(** * Tagify: request coordinator and resumable migrations

    A shallow embedding of [src/utils/RateLimiter.ts] and
    [src/utils/migration.ts].

    Conventions.
    - JavaScript numbers that hold millisecond clocks, counters and
      configured limits are integers here ([Z]).
    - [Date.now()] is an argument [now] of every function that reads the
      clock; one synchronous segment (code between two suspension
      points) reads one clock value.
    - A [Map<string, _>] is a [gmap string _], a [Set<string>] is a
      [gset string]; a JavaScript object used as a dictionary whose key
      order is observed through [Object.keys] is an association list. *)

From Stdlib Require Import ZArith QArith Qminmax Lia String Ascii.
From stdpp Require Import base gmap strings list sets sorting.

(* [set_solver] clears hypotheses that are already gone. *)
#[local] Set Warnings "-clear-no-such-hyp".

Open Scope Z_scope.

(* ===================================================================== *)
(** * RateLimiter.ts *)
(* ===================================================================== *)

Module RateLimiter.

(** [interface RateLimiterConfig] *)
Record RateLimiterConfig := {
  maxRequestsPerSecond : Z;
  maxRequestsPerMinute : Z;
  circuitBreakerThreshold : Z;
  circuitBreakerResetMs : Z;
  requestTimeoutMs : Z
}.

Definition DEFAULT_CONFIG : RateLimiterConfig := {|
  maxRequestsPerSecond := 20;
  maxRequestsPerMinute := 1000;
  circuitBreakerThreshold := 10;
  circuitBreakerResetMs := 30000;
  requestTimeoutMs := 10000
|}.

(** [graphqlRateLimiter]: the defaults with four fields overridden. *)
Definition graphqlConfig : RateLimiterConfig := {|
  maxRequestsPerSecond := 15;
  maxRequestsPerMinute := 1000;
  circuitBreakerThreshold := 10;
  circuitBreakerResetMs := 30000;
  requestTimeoutMs := requestTimeoutMs DEFAULT_CONFIG
|}.

(** A promise is known by its identity only. *)
Definition PromiseId := nat.

(** [interface PendingRequest<T>] *)
Record PendingRequest := {
  promise : PromiseId;
  pendingTimestamp : Z
}.

(** [interface RequestRecord] *)
Record RequestRecord := {
  timestamp : Z;
  success : bool
}.

(** The private fields of [class RateLimiter]. *)
Record State := {
  requestHistory : list RequestRecord;
  pendingRequests : gmap string PendingRequest;
  circuitOpen : bool;
  circuitOpenedAt : Z;
  consecutiveErrors : Z
}.

Definition initial : State := {|
  requestHistory := [];
  pendingRequests := ∅;
  circuitOpen := false;
  circuitOpenedAt := 0;
  consecutiveErrors := 0
|}.

Definition setHistory (h : list RequestRecord) (st : State) : State :=
  {| requestHistory := h;
     pendingRequests := pendingRequests st;
     circuitOpen := circuitOpen st;
     circuitOpenedAt := circuitOpenedAt st;
     consecutiveErrors := consecutiveErrors st |}.

Definition setPending (p : gmap string PendingRequest) (st : State) : State :=
  {| requestHistory := requestHistory st;
     pendingRequests := p;
     circuitOpen := circuitOpen st;
     circuitOpenedAt := circuitOpenedAt st;
     consecutiveErrors := consecutiveErrors st |}.

(** [Array.prototype.sort((a, b) => a.timestamp - b.timestamp)]: a stable
    sort by ascending timestamp. *)
Fixpoint insertByTimestamp (r : RequestRecord) (l : list RequestRecord)
  : list RequestRecord :=
  match l with
  | [] => [r]
  | x :: l' =>
      if timestamp r <=? timestamp x then r :: l
      else x :: insertByTimestamp r l'
  end.

Definition sortByTimestamp (l : list RequestRecord) : list RequestRecord :=
  foldr insertByTimestamp [] l.

(** [(r) => now - r.timestamp < ms] *)
Definition within (now ms : Z) (r : RequestRecord) : Prop :=
  now - timestamp r < ms.

#[global] Instance within_dec now ms r : Decision (within now ms r).
Proof. unfold within. apply _. Defined.

(** The value [{ allowed, retryAfterMs? }] returned by [checkRateLimits]. *)
Record RateLimitCheck := {
  allowed : bool;
  retryAfterMs : option Z
}.

Section WithConfig.

Variable config : RateLimiterConfig.

(** [private checkRateLimits()] *)
Definition checkRateLimits (now : Z) (st : State) : RateLimitCheck * State :=
  (* Clean old history *)
  let history := filter (within now 60000) (requestHistory st) in
  (* Check per-second limit *)
  let lastSecondRequests :=
    Z.of_nat (length (filter (within now 1000) history)) in
  if maxRequestsPerSecond config <=? lastSecondRequests then
    let oldestInWindow :=
      head (sortByTimestamp (filter (within now 1000) history)) in
    ({| allowed := false;
        retryAfterMs :=
          Some (match oldestInWindow with
                | Some o => 1000 - (now - timestamp o)
                | None => 100
                end) |},
     setHistory history st)
  (* Check per-minute limit *)
  else if maxRequestsPerMinute config <=? Z.of_nat (length history) then
    (* sort() works in place: the history stays sorted afterwards *)
    let sorted := sortByTimestamp history in
    let oldestRequest := head sorted in
    ({| allowed := false;
        retryAfterMs :=
          Some (match oldestRequest with
                | Some o => 60000 - (now - timestamp o)
                | None => 1000
                end) |},
     setHistory sorted st)
  else
    ({| allowed := true; retryAfterMs := None |}, setHistory history st).

(** [private checkCircuitBreaker()] *)
Definition checkCircuitBreaker (now : Z) (st : State) : bool * State :=
  if negb (circuitOpen st) then (true, st)
  else if circuitBreakerResetMs config <=? now - circuitOpenedAt st then
    (true,
     {| requestHistory := requestHistory st;
        pendingRequests := pendingRequests st;
        circuitOpen := false;
        circuitOpenedAt := circuitOpenedAt st;
        consecutiveErrors := 0 |})
  else (false, st).

(** [private recordSuccess()] *)
Definition recordSuccess (now : Z) (st : State) : State :=
  {| requestHistory :=
       requestHistory st ++ [{| timestamp := now; success := true |}];
     pendingRequests := pendingRequests st;
     circuitOpen := circuitOpen st;
     circuitOpenedAt := circuitOpenedAt st;
     consecutiveErrors := 0 |}.

(** [private recordError()] *)
Definition recordError (now : Z) (st : State) : State :=
  let history :=
    requestHistory st ++ [{| timestamp := now; success := false |}] in
  let errors := consecutiveErrors st + 1 in
  if circuitBreakerThreshold config <=? errors then
    {| requestHistory := history;
       pendingRequests := pendingRequests st;
       circuitOpen := true;
       circuitOpenedAt := now;
       consecutiveErrors := errors |}
  else
    {| requestHistory := history;
       pendingRequests := pendingRequests st;
       circuitOpen := circuitOpen st;
       circuitOpenedAt := circuitOpenedAt st;
       consecutiveErrors := errors |}.

(** The error thrown by [execute] when the circuit is open:
    [Error(`RateLimiter: Circuit breaker open. Retry after ${ms}ms`)]. *)
Inductive ExecuteError :=
  | CircuitBreakerOpen (retryAfter : Z).

(** What one run of [execute] does up to its first suspension point. *)
Inductive ExecuteStep :=
  | Throws (e : ExecuteError)
      (* the circuit is open *)
  | ReturnsPending (p : PromiseId)
      (* [return pending.promise]: the caller adopts the outcome of [p] *)
  | DelaysThenRetries (ms : Z)
      (* [await this.delay(ms); return this.execute(key, requestFn)] *)
  | Invokes (p : PromiseId).
      (* [requestFn] is called; [p] is the promise stored and returned *)

(** [rateLimitCheck.retryAfterMs || 100] *)
Definition retryAfterOrDefault (r : option Z) : Z :=
  match r with
  | Some ms => if ms =? 0 then 100 else ms
  | None => 100
  end.

(** [async execute<T>(key, requestFn)], up to the first suspension point.
    [fresh] is the identity of the promise built from
    [executeWithTimeout(requestFn).then(..).catch(..)] when the request is
    started. *)
Definition execute (now : Z) (key : string) (fresh : PromiseId) (st : State)
  : ExecuteStep * State :=
  (* Check circuit breaker *)
  let '(closed, st1) := checkCircuitBreaker now st in
  if negb closed then
    (Throws (CircuitBreakerOpen
               (circuitBreakerResetMs config - (now - circuitOpenedAt st1))),
     st1)
  else
    let fromRateLimits :=
      (* Check rate limits *)
      let '(rateLimitCheck, st2) := checkRateLimits now st1 in
      if negb (allowed rateLimitCheck) then
        (DelaysThenRetries (retryAfterOrDefault (retryAfterMs rateLimitCheck)),
         st2)
      else
        (* Execute the request *)
        (Invokes fresh,
         setPending
           (<[key := {| promise := fresh; pendingTimestamp := now |}]>
              (pendingRequests st2))
           st2) in
    (* Check for duplicate in-flight request *)
    match pendingRequests st1 !! key with
    | Some pending =>
        if now - pendingTimestamp pending <? requestTimeoutMs config
        then (ReturnsPending (promise pending), st1)
        else fromRateLimits
    | None => fromRateLimits
    end.

(** The [.then] handler of the promise built in [execute]. *)
Definition onFulfilled (now : Z) (key : string) (st : State) : State :=
  let st1 := recordSuccess now st in
  setPending (delete key (pendingRequests st1)) st1.

(** The [.catch] handler of the promise built in [execute]. *)
Definition onRejected (now : Z) (key : string) (st : State) : State :=
  let st1 := recordError now st in
  setPending (delete key (pendingRequests st1)) st1.

(** ** Callers, operations and settlement

    [execute] is asynchronous: between its synchronous segments other
    callers run and started operations settle.  A run of the limiter is a
    list of events, each carrying the clock value its segment reads. *)

(** How a started operation ends: [executeWithTimeout] resolves with the
    value of [requestFn], or rejects with its error or with
    [Error("Request timeout")]. *)
Inductive Outcome :=
  | Resolved (value : Z)
  | Rejected (error : string).

Inductive Event :=
  | Execute (now : Z) (key : string) (requestFn : nat)
      (* some caller runs [execute(key, requestFn)] *)
  | Settle (now : Z) (p : PromiseId) (o : Outcome).
      (* the operation behind promise [p] settles, its handler runs *)

(** A started operation: the key and operation it was started for and the
    clock value stored with its pending entry. *)
Record Started := {
  startedKey : string;
  startedFn : nat;
  startedAt : Z
}.

(** The limiter together with the bookkeeping of a run: the operations
    started and not yet settled, the outcome of the settled ones, and in
    order of occurrence every invocation of a [requestFn] and what every
    call of [execute] did. *)
Record System := {
  limiter : State;
  nextPromise : PromiseId;
  inFlight : gmap PromiseId Started;
  settled : gmap PromiseId Outcome;
  invocations : list (Z * string * nat);
  calls : list (nat * ExecuteStep)
}.

Definition boot : System := {|
  limiter := initial;
  nextPromise := 0%nat;
  inFlight := ∅;
  settled := ∅;
  invocations := [];
  calls := []
|}.

Definition step (sys : System) (ev : Event) : System :=
  match ev with
  | Execute now key requestFn =>
      let '(r, st) := execute now key (nextPromise sys) (limiter sys) in
      match r with
      | Invokes p =>
          {| limiter := st;
             nextPromise := S (nextPromise sys);
             inFlight :=
               <[p := {| startedKey := key; startedFn := requestFn;
                         startedAt := now |}]> (inFlight sys);
             settled := settled sys;
             invocations := invocations sys ++ [(now, key, requestFn)];
             calls := calls sys ++ [(requestFn, r)] |}
      | _ =>
          {| limiter := st;
             nextPromise := nextPromise sys;
             inFlight := inFlight sys;
             settled := settled sys;
             invocations := invocations sys;
             calls := calls sys ++ [(requestFn, r)] |}
      end
  | Settle now p o =>
      match inFlight sys !! p with
      | Some s =>
          {| limiter :=
               match o with
               | Resolved _ => onFulfilled now (startedKey s) (limiter sys)
               | Rejected _ => onRejected now (startedKey s) (limiter sys)
               end;
             nextPromise := nextPromise sys;
             inFlight := delete p (inFlight sys);
             settled := <[p := o]> (settled sys);
             invocations := invocations sys;
             calls := calls sys |}
      | None => sys
      end
  end.

Definition run (events : list Event) : System := foldl step boot events.

(** The operations a run started with a clock value [t] in the trailing
    window [now - ms < t <= now]. *)
Definition admittedWithin (now ms : Z) (sys : System) : Z :=
  Z.of_nat
    (length
       (filter (λ i : Z * string * nat, i.1.1 <= now ∧ now - i.1.1 < ms)
          (invocations sys))).

End WithConfig.

(** ** Statistics and reset *)

(** The value returned by [getStats()]. *)
Record Stats := {
  requestsLastSecond : Z;
  requestsLastMinute : Z;
  statsPendingRequests : Z;
  statsCircuitOpen : bool;
  statsConsecutiveErrors : Z
}.

(** [getStats()] *)
Definition getStats (now : Z) (st : State) : Stats :=
  {| requestsLastSecond :=
       Z.of_nat (length (filter (within now 1000) (requestHistory st)));
     requestsLastMinute :=
       Z.of_nat (length (filter (within now 60000) (requestHistory st)));
     statsPendingRequests := Z.of_nat (size (pendingRequests st));
     statsCircuitOpen := circuitOpen st;
     statsConsecutiveErrors := consecutiveErrors st |}.

(** [reset()] *)
Definition reset (st : State) : State :=
  {| requestHistory := [];
     pendingRequests := ∅;
     circuitOpen := false;
     circuitOpenedAt := 0;
     consecutiveErrors := 0 |}.

(** ** Notions used in the statements *)

(** [t] is the timestamp of an oldest sample of [l]. *)
Definition oldestIn (t : Z) (l : list RequestRecord) : Prop :=
  (∃ o, o ∈ l ∧ timestamp o = t) ∧ ∀ y, y ∈ l → t <= timestamp y.

Definition ascending (l : list RequestRecord) : Prop :=
  StronglySorted (λ a b, timestamp a <= timestamp b) l.


(** Deduplication over runs: whenever an operation for [key] is in
    flight, was started less than [requestTimeoutMs] ago and the circuit
    is closed, a further [execute] for [key] invokes nothing. *)
Definition deduplicates (cfg : RateLimiterConfig) : Prop :=
  ∀ events now key requestFn p s,
    inFlight (run cfg events) !! p = Some s →
    startedKey s = key →
    0 <= now - startedAt s < requestTimeoutMs cfg →
    circuitOpen (limiter (run cfg events)) = false →
    invocations (step cfg (run cfg events) (Execute now key requestFn))
      = invocations (run cfg events).

(** Bounded admissions over runs: at every clock value, the operations
    started within the trailing second (minute) are at most
    [maxRequestsPerSecond] ([maxRequestsPerMinute]). *)
Definition boundsAdmissions (cfg : RateLimiterConfig) : Prop :=
  ∀ events now,
    admittedWithin now 1000 (run cfg events) <= maxRequestsPerSecond cfg ∧
    admittedWithin now 60000 (run cfg events) <= maxRequestsPerMinute cfg.

(** Every operation in flight owns the pending entry of its key, and the
    promises in flight are older than the next one. *)
Definition tracked (sys : System) : Prop :=
  ∀ p s, inFlight sys !! p = Some s →
    (p < nextPromise sys)%nat ∧
    pendingRequests (limiter sys) !! startedKey s
      = Some {| promise := p; pendingTimestamp := startedAt s |}.

(** The event is a call that finds a pending entry for its key of age
    [requestTimeoutMs] or more. *)
Definition findsStale (cfg : RateLimiterConfig) (sys : System) (ev : Event)
  : Prop :=
  match ev with
  | Execute now key _ =>
      ∃ pending, pendingRequests (limiter sys) !! key = Some pending ∧
                 requestTimeoutMs cfg <= now - pendingTimestamp pending
  | Settle _ _ _ => False
  end.

(** No call of [events], run from [sys], finds a stale pending entry. *)
Fixpoint timely (cfg : RateLimiterConfig) (sys : System) (events : list Event)
  : Prop :=
  match events with
  | [] => True
  | ev :: rest => ¬ findsStale cfg sys ev ∧ timely cfg (step cfg sys ev) rest
  end.

(** Calls that fail one after the other: the [.catch] handler runs for
    each, at the given clock value and for the given key. *)
Definition failures (cfg : RateLimiterConfig) (st : State)
  (calls : list (Z * string)) : State :=
  foldl (λ s c, onRejected cfg c.1 c.2 s) st calls.

(** The number of settlements among the events of a run. *)
Definition isSettle (ev : Event) : bool :=
  match ev with Settle _ _ _ => true | Execute _ _ _ => false end.

Definition settlements (events : list Event) : nat :=
  length (filter (λ ev, isSettle ev = true) events).

(** Every pending entry belongs to an operation in flight, started for
    its key at its clock value. *)
Definition pendingInFlight (sys : System) : Prop :=
  ∀ key e, pendingRequests (limiter sys) !! key = Some e →
    (promise e < nextPromise sys)%nat ∧
    ∃ s, inFlight sys !! promise e = Some s ∧
         startedKey s = key ∧ startedAt s = pendingTimestamp e.

(** The clock value an event reads. *)
Definition clockOf (ev : Event) : Z :=
  match ev with
  | Execute now _ _ => now
  | Settle now _ _ => now
  end.

(** The clock values of the events do not decrease, and none is before
    [start]. *)
Fixpoint chronological (start : Z) (events : list Event) : Prop :=
  match events with
  | [] => True
  | ev :: rest => start <= clockOf ev ∧ chronological (clockOf ev) rest
  end.

(** The number of operations started after clock value [a]. *)
Definition startedAfter (a : Z) (sys : System) : nat :=
  length (filter (λ i : Z * string * nat, a < i.1.1) (invocations sys)).

(** The number of samples in the history with a timestamp after [a]. *)
Definition completedAfter (a : Z) (st : State) : nat :=
  length (filter (λ r, a < timestamp r) (requestHistory st)).

(** At clock value [last]: no operation was started later, the promises
    in flight are older than the next one, and every operation started
    after a clock value [a] of at most a minute ago is in flight or has
    left a sample after [a] in the history. *)
Definition accounted (last : Z) (sys : System) : Prop :=
  (∀ i, i ∈ invocations sys → i.1.1 <= last) ∧
  (∀ p s, inFlight sys !! p = Some s → (p < nextPromise sys)%nat) ∧
  (∀ a, last - 60000 <= a →
        (startedAfter a sys
         <= completedAfter a (limiter sys) + size (inFlight sys))%nat).

(** ** Sample runs *)

(** A limiter with small limits. *)
Definition smallConfig : RateLimiterConfig := {|
  maxRequestsPerSecond := 2;
  maxRequestsPerMinute := 5;
  circuitBreakerThreshold := 3;
  circuitBreakerResetMs := 30000;
  requestTimeoutMs := 10000
|}.

Definition sample (t : Z) (ok : bool) : RequestRecord :=
  {| timestamp := t; success := ok |}.

(** At clock 5000: one sample older than a second, two younger. *)
Definition busySecond : State :=
  setHistory [sample 100 true; sample 4700 true; sample 4500 false] initial.

(** A limiter whose circuit opened at clock 1000. *)
Definition tripped : State := {|
  requestHistory := [sample 1000 false];
  pendingRequests := ∅;
  circuitOpen := true;
  circuitOpenedAt := 1000;
  consecutiveErrors := 3
|}.

(** Sixteen calls with distinct keys in the same millisecond. *)
Definition burst : list Event :=
  imap (λ i key, Execute 0 key i)
    ["getTrack:01"; "getTrack:02"; "getTrack:03"; "getTrack:04";
     "getTrack:05"; "getTrack:06"; "getTrack:07"; "getTrack:08";
     "getTrack:09"; "getTrack:10"; "getTrack:11"; "getTrack:12";
     "getTrack:13"; "getTrack:14"; "getTrack:15"; "getTrack:16"]%string.

(** Operation 1 is started at clock 0 and never answers.  At clock 10000
    its timeout is due but its timer has not run yet; a second call for
    the same key finds the pending entry too old and starts operation 2.
    Then the timer of operation 1 runs and its promise rejects. *)
Definition lateTimeout : list Event :=
  [ Execute 0 "getTrack:a" 1%nat;
    Execute 10000 "getTrack:a" 2%nat;
    Settle 10000 0%nat (Rejected "Request timeout") ]%string.

(** A limiter that admits nothing. *)
Definition closedConfig : RateLimiterConfig := {|
  maxRequestsPerSecond := 0;
  maxRequestsPerMinute := 1000;
  circuitBreakerThreshold := 10;
  circuitBreakerResetMs := 30000;
  requestTimeoutMs := 10000
|}.


End RateLimiter.

(* ===================================================================== *)
(** * migration.ts *)
(* ===================================================================== *)

Module Migration.

(** ** Strings *)

(** [hay.includes(needle)] *)
Fixpoint includes (needle hay : string) : bool :=
  String.prefix needle hay ||
  match hay with
  | EmptyString => false
  | String _ rest => includes needle rest
  end.

(** [s.startsWith(p)] *)
Definition startsWith (p s : string) : bool := String.prefix p s.

(** [uri.split(":").pop()]: the text after the last colon; [current] is
    the segment read so far. *)
Fixpoint lastSegment (current uri : string) : string :=
  match uri with
  | EmptyString => current
  | String c rest =>
      if Ascii.eqb c ":" then lastSegment EmptyString rest
      else lastSegment (String.append current (String c EmptyString)) rest
  end.

(** Truthiness of a possibly absent string: [undefined] and [""] are
    falsy. *)
Definition truthy (s : option string) : bool :=
  match s with
  | Some EmptyString | None => false
  | Some _ => true
  end.

(** ** Data *)

Record Tag := {
  categoryId : string;
  subcategoryId : string;
  tagId : string
}.

(** Modelled from the spec: the declaration of [TrackData] in
    [hooks/data/useTagData] is not among the sources.  A record is a key
    with mutable fields of which some may be absent or null; the fields
    here are those [migration.ts] reads and writes ([name], [artists],
    [bpm], [rating], [energy], [tags]) and the two dates of the copy of
    the interface in [KeyboardShortcutService.ts].  [None] in [bpm] is
    [null], in the other optional fields it is [undefined]. *)
Record TrackData := {
  rating : Z;
  energy : Z;
  bpm : option Z;
  tags : list Tag;
  name : option string;
  artists : option string;
  dateCreated : option Z;
  dateModified : option Z
}.

(** [{ [trackUri: string]: TrackData }], in key order. *)
Definition Tracks := list (string * TrackData).

(** [interface TagDataStructure]; the categories are not looked into. *)
Record TagDataStructure := {
  categories : list string;
  tracks : Tracks
}.

(** [tracks[uri]] *)
Fixpoint getTrackData (ts : Tracks) (uri : string) : option TrackData :=
  match ts with
  | [] => None
  | (k, v) :: rest => if decide (k = uri) then Some v else getTrackData rest uri
  end.

(** [tracks[uri] = v]: an existing key keeps its place, a new key is
    added at the end. *)
Fixpoint setTrackData (ts : Tracks) (uri : string) (v : TrackData) : Tracks :=
  match ts with
  | [] => [(uri, v)]
  | (k, old) :: rest =>
      if decide (k = uri) then (k, v) :: rest
      else (k, old) :: setTrackData rest uri v
  end.

(** [{ ...data, tracks: ts }] *)
Definition withTracks (data : TagDataStructure) (ts : Tracks) : TagDataStructure :=
  {| categories := categories data; tracks := ts |}.

(** [Partial<TrackData>] as built by the migration: the keys [name] and
    [artists] are set together, [bpm] on its own; [None] is an absent
    key. *)
Record Updates := {
  updName : option string;
  updArtists : option string;
  updBpm : option Z
}.

Definition noUpdates : Updates :=
  {| updName := None; updArtists := None; updBpm := None |}.

(** [Object.keys(updates).length > 0] *)
Definition hasKeys (u : Updates) : bool :=
  match updName u, updArtists u, updBpm u with
  | None, None, None => false
  | _, _, _ => true
  end.

(** [{ ...track, ...updates }] *)
Definition merge (track : TrackData) (u : Updates) : TrackData :=
  {| rating := rating track;
     energy := energy track;
     bpm := match updBpm u with Some b => Some b | None => bpm track end;
     tags := tags track;
     name := match updName u with Some n => Some n | None => name track end;
     artists :=
       match updArtists u with Some a => Some a | None => artists track end;
     dateCreated := dateCreated track;
     dateModified := dateModified track |}.

(** [interface TrackMigrationResult] *)
Record TrackMigrationResult := {
  uri : string;
  success : bool;
  updates : Updates;
  retryable : bool
}.

(** A thrown value as [isRetryableError] and the driver read it. *)
Record JsError := {
  status : option Z;
  message : option string
}.

(** [interface MigrationState] *)
Record MigrationFlags := {
  cleanupEmptyTracks : option bool;
  addTrackMetadata : option bool;
  removeTrackInfoCache : option bool
}.

Record MigrationState := {
  version : string;
  migrations : MigrationFlags
}.

(** [!flag] for an optional boolean *)
Definition unset (flag : option bool) : bool :=
  match flag with
  | Some true => false
  | _ => true
  end.

(** [interface MigrationProgress] *)
Record MigrationProgress := {
  migrationName : string;
  processedUris : list string;
  failedUris : option (list string);
  totalTracks : Z;
  startedAt : Z
}.

(** The name and artists of a track, as [spotifyService.getTrack] and the
    track-info cache give them. *)
Record TrackInfo := {
  infoName : string;
  infoArtists : string
}.

(** ** The surroundings *)

(** The three [localStorage] entries the migrations touch, by their
    parsed content; [None] is a missing (or unreadable) entry.  Writes
    are taken to succeed.  The third entry is the one the track-info
    cache is kept in. *)
Record LocalStorage := {
  savedMigrations : option MigrationState;      (* "tagify:migrations" *)
  savedProgress : option MigrationProgress;     (* "tagify:migrationProgress" *)
  trackInfoCache : option (gmap string TrackInfo) (* "tagify:trackInfoCache" *)
}.

(** What the migrations do to the outside, in order. *)
Inductive Effect :=
  | SetTagData (data : TagDataStructure)
  | SaveMigrationProgress (p : option MigrationProgress)
  | SaveMigrationState (st : MigrationState)
  | RemoveTrackInfo (uri : string)
  | RemoveTrackInfoCache
  | OnProgress (processed total : Z)
  | Delay (ms : Q)
  | DispatchDataUpdated.

Record World := {
  storage : LocalStorage;
  effects : list Effect
}.

Definition emit (e : Effect) (w : World) : World :=
  {| storage := storage w; effects := effects w ++ [e] |}.

(** A call that returns or throws. *)
Inductive Completion (A : Type) :=
  | Done (a : A)
  | Thrown (e : JsError).
Arguments Done {A} a.
Arguments Thrown {A} e.

(** The clock and the two fetchers.  [getTrack uri n] is what
    [spotifyService.getTrack(uri)] answers to the call made in attempt
    [n] for that track, [getBpm id n] likewise for
    [audioFeaturesService.getBpm(id)]. *)
Record Env := {
  now : Z;
  getTrack : string → Z → Completion (option TrackInfo);
  getBpm : string → Z → Completion (option Z)
}.

(** ** Helpers of [migration.ts] *)

Definition isRetryableError (error : option JsError) : bool :=
  match error with
  | None => false
  | Some e =>
      (* 429 Too Many Requests *)
      if bool_decide (status e = Some 429) then true
      (* Network errors *)
      else if
        match message e with
        | Some m => includes "network" m || includes "fetch" m
        | None => false
        end
      then true
      (* Timeout errors *)
      else
        match message e with
        | Some m => includes "timeout" m
        | None => false
        end
  end.

(** [getBackoffDelay(attempt, baseDelay = 1000)] *)
Definition getBackoffDelay (attempt : Z) : Z :=
  Z.min (1000 * 2 ^ attempt) 30000.

(** The guard [if (!trackData) return true] concerns a missing value,
    which a [TrackData] here never is. *)
Definition isTrackEmpty (trackData : TrackData) : bool :=
  (rating trackData =? 0) && (energy trackData =? 0) &&
  (Nat.eqb (length (tags trackData)) 0).

Definition getMigrationState (ls : LocalStorage) : MigrationState :=
  match savedMigrations ls with
  | Some saved => saved
  | None =>
      {| version := "0.0.0";
         migrations := {| cleanupEmptyTracks := None;
                          addTrackMetadata := None;
                          removeTrackInfoCache := None |} |}
  end.

Definition saveMigrationState (st : MigrationState) (w : World) : World :=
  emit (SaveMigrationState st)
    {| storage := {| savedMigrations := Some st;
                     savedProgress := savedProgress (storage w);
                     trackInfoCache := trackInfoCache (storage w) |};
       effects := effects w |}.

Definition getMigrationProgress (ls : LocalStorage) : option MigrationProgress :=
  savedProgress ls.

Definition saveMigrationProgress (p : option MigrationProgress) (w : World)
  : World :=
  emit (SaveMigrationProgress p)
    {| storage := {| savedMigrations := savedMigrations (storage w);
                     savedProgress := p;
                     trackInfoCache := trackInfoCache (storage w) |};
       effects := effects w |}.

(** Modelled from the spec: [TrackInfoCacheManager.getTrackInfo(uri)],
    whose source is missing; a lookup in the secondary cache. *)
Definition getTrackInfo (ls : LocalStorage) (uri : string) : option TrackInfo :=
  trackInfoCache ls ≫= (λ cache, cache !! uri).

(** Modelled from the spec: [TrackInfoCacheManager.removeTrackInfo(uri)],
    whose source is missing; it drops the entry of [uri] from the
    secondary cache. *)
Definition removeTrackInfo (uri : string) (w : World) : World :=
  emit (RemoveTrackInfo uri)
    {| storage := {| savedMigrations := savedMigrations (storage w);
                     savedProgress := savedProgress (storage w);
                     trackInfoCache := delete uri <$> trackInfoCache (storage w) |};
       effects := effects w |}.

(** [localStorage.removeItem("tagify:trackInfoCache")] *)
Definition removeTrackInfoCacheItem (w : World) : World :=
  emit RemoveTrackInfoCache
    {| storage := {| savedMigrations := savedMigrations (storage w);
                     savedProgress := savedProgress (storage w);
                     trackInfoCache := None |};
       effects := effects w |}.

(** ** Migration 1: cleanup of empty tracks *)

Definition cleanupEmptyTracksMigration (currentData : TagDataStructure)
  (w : World) : TagDataStructure * World :=
  let '(cleanedTracks, w') :=
    foldl
      (λ (acc : Tracks * World) (entry : string * TrackData),
         if isTrackEmpty entry.2
         then (acc.1, removeTrackInfo entry.1 acc.2)
         else (acc.1 ++ [entry], acc.2))
      ([], w) (tracks currentData) in
  (withTracks currentData cleanedTracks, w').

(** ** Migration 2: track metadata and BPM *)

Definition BATCH_SIZE : nat := 5.
Definition BASE_DELAY_BETWEEN_BATCHES_MS : Q := inject_Z 500.
Definition SAVE_EVERY_N_BATCHES : Z := 10.
Definition MAX_RETRIES_PER_TRACK : nat := 3.
Definition MAX_CONSECUTIVE_FAILURES : Z := 10.

Definition needsMetadataOf (track : TrackData) : bool :=
  negb (truthy (name track)) || negb (truthy (artists track)).

Definition needsBpmOf (track : TrackData) : bool :=
  match bpm track with None => true | Some _ => false end.

(** The callback of [allTrackUris.filter(..)].  A key always has a value
    in the object it was listed from, so the last case does not arise. *)
Definition needsWork (currentData : TagDataStructure) (uri : string) : bool :=
  if startsWith "spotify:local:" uri then false
  else match getTrackData (tracks currentData) uri with
       | Some track => needsMetadataOf track || needsBpmOf track
       | None => false
       end.

(** Find tracks that need metadata OR BPM *)
Definition tracksNeedingWork (currentData : TagDataStructure) : list string :=
  filter (λ uri, needsWork currentData uri = true)
    (map fst (tracks currentData)).

(** The working copy [updatedData], the sets [processedUris] and
    [failedUris], and the progress record of a run. *)
Record Run := {
  updatedData : TagDataStructure;
  processedSet : gset string;
  failedSet : gset string;
  progress : MigrationProgress
}.

(** [progress.processedUris = Array.from(processedUris);
     progress.failedUris = Array.from(failedUris)].  The arrays list the
    keys in the order of [elements], not in the insertion order of the
    JavaScript sets; they are only ever read back into sets. *)
Definition snapshot (r : Run) : MigrationProgress :=
  {| migrationName := migrationName (progress r);
     processedUris := elements (processedSet r);
     failedUris := Some (elements (failedSet r));
     totalTracks := totalTracks (progress r);
     startedAt := startedAt (progress r) |}.

Definition withSnapshot (r : Run) : Run :=
  {| updatedData := updatedData r;
     processedSet := processedSet r;
     failedSet := failedSet r;
     progress := snapshot r |}.

(** Resuming from a saved progress record, or starting afresh. *)
Definition resume (env : Env) (saved : option MigrationProgress)
  (currentData : TagDataStructure) : Run :=
  let fresh :=
    {| updatedData := currentData;
       processedSet := ∅;
       failedSet := ∅;
       progress :=
         {| migrationName := "addTrackMetadata";
            processedUris := [];
            failedUris := Some [];
            totalTracks := Z.of_nat (length (tracksNeedingWork currentData));
            startedAt := now env |} |} in
  match saved with
  | Some p =>
      if decide (migrationName p = "addTrackMetadata"%string) then
        {| updatedData := currentData;
           processedSet := list_to_set (processedUris p);
           failedSet := list_to_set (default [] (failedUris p));
           progress := p |}
      else fresh
  | None => fresh
  end.

(** [tracksNeedingWork.filter((uri) => !processedUris.has(uri) ||
    failedUris.has(uri))] *)
Definition remainingTracks (r : Run) (targets : list string) : list string :=
  filter (λ uri, uri ∉ processedSet r ∨ uri ∈ failedSet r) targets.

(** One turn of the first pass; the second component is
    [stillNeedWork]. *)
Definition cacheStep (ls : LocalStorage) (acc : Run * list string)
  (uri : string) : Run * list string :=
  let '(r, stillNeedWork) := acc in
  if bool_decide (uri ∈ failedSet r ∧ uri ∉ processedSet r) then
    (r, stillNeedWork ++ [uri])
  else
    match getTrackData (tracks (updatedData r)) uri with
    | None => acc
    | Some track =>
        let needsMetadata := needsMetadataOf track in
        let needsBpm := needsBpmOf track in
        let '(data, metadataResolved) :=
          if needsMetadata then
            match getTrackInfo ls uri with
            | Some cachedInfo =>
                (withTracks (updatedData r)
                   (setTrackData (tracks (updatedData r)) uri
                      {| rating := rating track;
                         energy := energy track;
                         bpm := bpm track;
                         tags := tags track;
                         name := Some (infoName cachedInfo);
                         artists := Some (infoArtists cachedInfo);
                         dateCreated := dateCreated track;
                         dateModified := dateModified track |}),
                 true)
            | None => (updatedData r, false)
            end
          else (updatedData r, true) in
        if negb metadataResolved || needsBpm then
          ({| updatedData := data;
              processedSet := processedSet r;
              failedSet := failedSet r;
              progress := progress r |},
           stillNeedWork ++ [uri])
        else
          ({| updatedData := data;
              processedSet := {[uri]} ∪ processedSet r;
              failedSet := failedSet r ∖ {[uri]};
              progress := progress r |},
           stillNeedWork)
    end.

(** First pass: populate from the cache. *)
Definition cachePass (ls : LocalStorage) (r : Run) (remaining : list string)
  : Run * list string :=
  foldl (cacheStep ls) (r, []) remaining.

(** The body of the [try] block of one attempt: the updates gathered so
    far and, when a fetcher threw, the error. *)
Definition attempt (env : Env) (uri : string) (needsMetadata needsBpm : bool)
  (updates : Updates) (n : Z) : Updates * option JsError :=
  (* Fetch metadata if needed *)
  let afterMetadata : Updates * option JsError :=
    if needsMetadata && negb (truthy (updName updates)) then
      match getTrack env uri n with
      | Thrown e => (updates, Some e)
      | Done (Some trackInfo) =>
          ({| updName := Some (infoName trackInfo);
              updArtists := Some (infoArtists trackInfo);
              updBpm := updBpm updates |}, None)
      | Done None => (updates, None)
      end
    else (updates, None) in
  match afterMetadata with
  | (_, Some _) => afterMetadata
  | (updates1, None) =>
      (* Fetch BPM if needed *)
      if needsBpm && bool_decide (updBpm updates1 = None) then
        let trackId := lastSegment EmptyString uri in
        if negb (String.eqb trackId EmptyString) then
          match getBpm env trackId n with
          | Thrown e => (updates1, Some e)
          | Done (Some b) =>
              ({| updName := updName updates1;
                  updArtists := updArtists updates1;
                  updBpm := Some b |}, None)
          | Done None => (updates1, None)
          end
        else (updates1, None)
      else (updates1, None)
  end.

(** What one per-track effort does, in order: its attempts, each with the
    error it caught if any, and the waits between them. *)
Inductive FetchEvent :=
  | Attempt (n : Z) (caught : option JsError)
  | Sleep (ms : Z).

(** The result returned after the loop: failed after all retries. *)
Definition failedResult (uri : string) (updates : Updates)
  (lastError : option JsError) : TrackMigrationResult :=
  {| uri := uri; success := false; updates := updates;
     retryable := isRetryableError lastError |}.

(** [while (retryCount < MAX_RETRIES_PER_TRACK) { try .. catch .. }].
    Every turn that does not leave the loop adds one to [retryCount], so
    the loop is a recursion on [attemptsLeft], the distance of
    [retryCount] from [MAX_RETRIES_PER_TRACK]. *)
Fixpoint retryLoop (env : Env) (uri : string) (needsMetadata needsBpm : bool)
  (attemptsLeft : nat) (retryCount : Z) (updates : Updates)
  (lastError : option JsError) : TrackMigrationResult * list FetchEvent :=
  match attemptsLeft with
  | O => (failedResult uri updates lastError, [])
  | S attemptsLeft' =>
      match attempt env uri needsMetadata needsBpm updates retryCount with
      | (updates', None) =>
          (* Success *)
          ({| uri := uri; success := true; updates := updates';
              retryable := false |},
           [Attempt retryCount None])
      | (updates', Some error) =>
          let retryCount' := retryCount + 1 in
          if isRetryableError (Some error) &&
             (retryCount' <? Z.of_nat MAX_RETRIES_PER_TRACK)
          then
            let '(result, rest) :=
              retryLoop env uri needsMetadata needsBpm attemptsLeft' retryCount'
                updates' (Some error) in
            (result,
             Attempt retryCount (Some error)
               :: Sleep (getBackoffDelay retryCount') :: rest)
          else
            (failedResult uri updates' (Some error),
             [Attempt retryCount (Some error)])
      end
  end.

(** The per-track effort of a batch, for a track present in the working
    copy. *)
Definition fetchTrack (env : Env) (track : TrackData) (uri : string)
  : TrackMigrationResult * list FetchEvent :=
  retryLoop env uri (needsMetadataOf track) (needsBpmOf track)
    MAX_RETRIES_PER_TRACK 0 noUpdates None.

Definition isAttempt (ev : FetchEvent) : bool :=
  match ev with Attempt _ _ => true | Sleep _ => false end.

(** The number of attempts among the events of an effort. *)
Definition attemptsIn (events : list FetchEvent) : Z :=
  Z.of_nat (length (filter (λ ev, isAttempt ev = true) events)).

(** An element of the array [Promise.allSettled] resolves to. *)
Inductive Settled :=
  | Fulfilled (value : TrackMigrationResult)
  | RejectedPromise.

(** The promise of one track of a batch.  Reading a field of a missing
    track throws outside the [try] block, which rejects the promise. *)
Definition settleTrack (env : Env) (ts : Tracks) (uri : string) : Settled :=
  match getTrackData ts uri with
  | Some track => Fulfilled (fetchTrack env track uri).1
  | None => RejectedPromise
  end.

(** The keys of the fulfilled results. *)
Definition resultUris (results : list Settled) : list string :=
  omap (λ s, match s with
             | Fulfilled value => Some (uri value)
             | RejectedPromise => None
             end) results.

(** The variables of the second pass. *)
Record Loop := {
  run : Run;
  consecutiveFailures : Z;
  currentDelay : Q
}.

Definition withRun (l : Loop) (r : Run) : Loop :=
  {| run := r;
     consecutiveFailures := consecutiveFailures l;
     currentDelay := currentDelay l |}.

(** The body of [for (const result of results)]; the second component is
    [batchFailures]. *)
Definition applyResult (acc : Loop * Z) (result : Settled) : Loop * Z :=
  let '(l, batchFailures) := acc in
  let r := run l in
  match result with
  | Fulfilled value =>
      if success value then
        let ts := tracks (updatedData r) in
        let data :=
          if hasKeys (updates value) then
            match getTrackData ts (uri value) with
            | Some track =>
                withTracks (updatedData r)
                  (setTrackData ts (uri value) (merge track (updates value)))
            | None =>
                (* does not arise: the promise of a missing track rejects *)
                updatedData r
            end
          else updatedData r in
        ({| run := {| updatedData := data;
                      processedSet := {[uri value]} ∪ processedSet r;
                      failedSet := failedSet r ∖ {[uri value]};
                      progress := progress r |};
            consecutiveFailures := 0;
            currentDelay := currentDelay l |},
         batchFailures)
      else if retryable value then
        (* Keep in failedUris for retry on next migration run *)
        (withRun l
           {| updatedData := updatedData r;
              processedSet := processedSet r;
              failedSet := {[uri value]} ∪ failedSet r;
              progress := progress r |},
         batchFailures + 1)
      else
        (* Non-retryable error, mark as processed to skip *)
        (withRun l
           {| updatedData := updatedData r;
              processedSet := {[uri value]} ∪ processedSet r;
              failedSet := failedSet r ∖ {[uri value]};
              progress := progress r |},
         batchFailures + 1)
  | RejectedPromise =>
      ({| run := r;
          consecutiveFailures := consecutiveFailures l + 1;
          currentDelay := currentDelay l |},
       batchFailures + 1)
  end.

(** [const results = await Promise.allSettled(batchPromises)]; every
    effort of the batch reads the working copy as it is when the batch
    starts. *)
Definition settleBatch (env : Env) (l : Loop) (batch : list string)
  : list Settled :=
  map (settleTrack env (tracks (updatedData (run l)))) batch.

(** The results of a batch applied, then the count of consecutive
    failures and the delay between batches brought up to date. *)
Definition afterBatch (l : Loop) (results : list Settled) : Loop :=
  let '(l1, batchFailures) := foldl applyResult (l, 0) results in
  if 0 <? batchFailures then
    {| run := run l1;
       consecutiveFailures := consecutiveFailures l1 + batchFailures;
       (* Math.min(currentDelay * 1.5, 5000) *)
       currentDelay := Qred (Qmin (currentDelay l1 * (3 # 2)) (inject_Z 5000)) |}
  else
    {| run := run l1;
       consecutiveFailures := consecutiveFailures l1;
       currentDelay := BASE_DELAY_BETWEEN_BATCHES_MS |}.

Definition pausedError : JsError :=
  {| status := None;
     message :=
       Some "Migration paused due to repeated failures. Will retry on next app launch."%string |}.

(** The values of [i] in [for (let i = 0; i < n; i += BATCH_SIZE)]. *)
Definition batchStarts (n : nat) : list nat :=
  filter (λ i, (i mod BATCH_SIZE = 0)%nat) (seq 0 n).

(** Progress and working copy are saved: [saveMigrationProgress(progress);
    setTagData(updatedData)]. *)
Definition checkpoint (r : Run) (w : World) : World :=
  emit (SetTagData (updatedData r)) (saveMigrationProgress (Some (snapshot r)) w).

(** Second pass: fetch from the API with retry logic.  [starts] are the
    values of [i] still to come. *)
Fixpoint networkPass (env : Env) (stillNeedWork : list string) (total : Z)
  (starts : list nat) (l : Loop) (w : World) : Completion Loop * World :=
  match starts with
  | [] => (Done l, w)
  | i :: later =>
      let batch := take BATCH_SIZE (drop i stillNeedWork) in
      let l1 := afterBatch l (settleBatch env l batch) in
      (* If too many consecutive failures, pause migration *)
      if MAX_CONSECUTIVE_FAILURES <=? consecutiveFailures l1 then
        (Thrown pausedError, checkpoint (run l1) w)
      else
        (* Report progress *)
        let w1 :=
          emit (OnProgress (Z.of_nat (size (processedSet (run l1)))) total) w in
        (* Save progress periodically *)
        let batchNumber := Z.of_nat i / Z.of_nat BATCH_SIZE in
        let '(l2, w2) :=
          if (0 <? batchNumber) && (batchNumber mod SAVE_EVERY_N_BATCHES =? 0)
          then (withRun l1 (withSnapshot (run l1)), checkpoint (run l1) w1)
          else (l1, w1) in
        (* Throttle between batches *)
        let w3 :=
          if (i + BATCH_SIZE <? length stillNeedWork)%nat
          then emit (Delay (currentDelay l2)) w2
          else w2 in
        networkPass env stillNeedWork total later l2 w3
  end.

Definition addTrackMetadataMigration (env : Env)
  (currentData : TagDataStructure) (w : World)
  : Completion TagDataStructure * World :=
  let targets := tracksNeedingWork currentData in
  if Nat.eqb (length targets) 0 then (Done currentData, w)
  else
    (* Check for existing progress (resumable migration) *)
    let r0 := resume env (getMigrationProgress (storage w)) currentData in
    (* Filter out already processed tracks, but INCLUDE previously failed
       tracks for retry *)
    let remaining := remainingTracks r0 targets in
    (* First pass: populate from existing cache (metadata only) *)
    let '(r1, stillNeedWork) := cachePass (storage w) r0 remaining in
    let resolvedFromCache :=
      Z.of_nat (length remaining) - Z.of_nat (length stillNeedWork) in
    let '(r2, w1) :=
      if 0 <? resolvedFromCache
      then (withSnapshot r1,
            saveMigrationProgress (Some (snapshot r1))
              (emit (SetTagData (updatedData r1)) w))
      else (r1, w) in
    (* Second pass: fetch from API with retry logic *)
    match
      networkPass env stillNeedWork (Z.of_nat (length targets))
        (batchStarts (length stillNeedWork))
        {| run := r2; consecutiveFailures := 0;
           currentDelay := BASE_DELAY_BETWEEN_BATCHES_MS |} w1
    with
    | (Thrown e, w2) => (Thrown e, w2)
    | (Done l, w2) =>
        (* Final save *)
        (Done (updatedData (run l)),
         saveMigrationProgress None (emit (SetTagData (updatedData (run l))) w2))
    end.

(** ** Main migration runner *)

Section WithVersion.

(** [packageJson.version]; the package file is not among the sources. *)
Variable CURRENT_VERSION : string.

(** The local variables of [runMigrations]. *)
Record Driver := {
  migrationState : MigrationState;
  hasChanges : bool;
  driverData : TagDataStructure
}.

Definition setFlags (d : Driver) (flags : MigrationFlags)
  (data : TagDataStructure) : Driver :=
  {| migrationState :=
       {| version := version (migrationState d); migrations := flags |};
     hasChanges := true;
     driverData := data |}.

Definition flagsOf (d : Driver) : MigrationFlags := migrations (migrationState d).

(** Migration 1: cleanup empty tracks *)
Definition migration1 (d : Driver) (w : World) : Driver * World :=
  if unset (cleanupEmptyTracks (flagsOf d)) then
    let '(cleaned, w1) := cleanupEmptyTracksMigration (driverData d) w in
    (setFlags d
       {| cleanupEmptyTracks := Some true;
          addTrackMetadata := addTrackMetadata (flagsOf d);
          removeTrackInfoCache := removeTrackInfoCache (flagsOf d) |}
       cleaned,
     emit (SetTagData cleaned) w1)
  else (d, w).

(** [error.message?.includes("Migration paused")] *)
Definition isPause (error : JsError) : bool :=
  match message error with
  | Some m => includes "Migration paused" m
  | None => false
  end.

(** Migration 2: add track metadata (async) *)
Definition migration2 (env : Env) (d : Driver) (w : World)
  : Completion Driver * World :=
  if unset (addTrackMetadata (flagsOf d)) then
    match addTrackMetadataMigration env (driverData d) w with
    | (Done updated, w1) =>
        (Done (setFlags d
                 {| cleanupEmptyTracks := cleanupEmptyTracks (flagsOf d);
                    addTrackMetadata := Some true;
                    removeTrackInfoCache := removeTrackInfoCache (flagsOf d) |}
                 updated),
         w1)
    | (Thrown error, w1) =>
        if isPause error
        then (Done d, w1)      (* not marked complete: retried next time *)
        else (Thrown error, w1)
    end
  else (Done d, w).

(** Migration 3: remove trackInfoCache *)
Definition migration3 (d : Driver) (w : World) : Driver * World :=
  if unset (removeTrackInfoCache (flagsOf d)) then
    (setFlags d
       {| cleanupEmptyTracks := cleanupEmptyTracks (flagsOf d);
          addTrackMetadata := addTrackMetadata (flagsOf d);
          removeTrackInfoCache := Some true |}
       (driverData d),
     removeTrackInfoCacheItem w)
  else (d, w).

(** Update version and save state *)
Definition saveAndNotify (d : Driver) (w : World) : World :=
  if hasChanges d ||
     negb (String.eqb (version (migrationState d)) CURRENT_VERSION)
  then
    emit DispatchDataUpdated
      (saveMigrationState
         {| version := CURRENT_VERSION; migrations := flagsOf d |} w)
  else w.

Definition runMigrations (env : Env) (currentData : TagDataStructure)
  (w : World) : Completion bool * World :=
  if Nat.eqb (length (tracks currentData)) 0 then (Done false, w)
  else
    let d0 :=
      {| migrationState := getMigrationState (storage w);
         hasChanges := false;
         driverData := currentData |} in
    let '(d1, w1) := migration1 d0 w in
    match migration2 env d1 w1 with
    | (Thrown error, w2) => (Thrown error, w2)
    | (Done d2, w2) =>
        let '(d3, w3) := migration3 d2 w2 in
        (Done (hasChanges d3), saveAndNotify d3 w3)
    end.

Definition needsMigrations (ls : LocalStorage) : bool :=
  let migrationState := getMigrationState ls in
  negb (String.eqb (version migrationState) CURRENT_VERSION) ||
  unset (cleanupEmptyTracks (migrations migrationState)) ||
  unset (addTrackMetadata (migrations migrationState)).

End WithVersion.

(** ** Notions used in the statements *)

(** A storage whose migration record is [st]. *)
Definition withState (ls : LocalStorage) (st : MigrationState) : LocalStorage :=
  {| savedMigrations := Some st;
     savedProgress := savedProgress ls;
     trackInfoCache := trackInfoCache ls |}.

(** The track stored under [u] in the working copy. *)
Definition trackOf (l : Loop) (u : string) : option TrackData :=
  getTrackData (tracks (updatedData (run l))) u.

(** What a fulfilled result [value] has done between [l] and [l'] to the
    key sets and to its track. *)
Definition applied (value : TrackMigrationResult) (l l' : Loop) : Prop :=
  let u := uri value in
  (success value = true →
     u ∈ processedSet (run l') ∧ (u ∉ failedSet (run l')) ∧
     trackOf l' u =
       if hasKeys (updates value)
       then (λ t, merge t (updates value)) <$> trackOf l u
       else trackOf l u) ∧
  (success value = false → retryable value = true →
     u ∈ failedSet (run l') ∧
     (u ∈ processedSet (run l') ↔ u ∈ processedSet (run l)) ∧
     trackOf l' u = trackOf l u) ∧
  (success value = false → retryable value = false →
     u ∈ processedSet (run l') ∧ (u ∉ failedSet (run l')) ∧
     trackOf l' u = trackOf l u).

(** [l] and [l'] agree on the key [u]. *)
Definition untouched (u : string) (l l' : Loop) : Prop :=
  (u ∈ processedSet (run l') ↔ u ∈ processedSet (run l)) ∧
  (u ∈ failedSet (run l') ↔ u ∈ failedSet (run l)) ∧
  trackOf l' u = trackOf l u.

(** The name and artists in [upd], if any, are those [getTrack] answered
    for [u] in an attempt before attempt [k]. *)
Definition metadataFetched (env : Env) (u : string) (k : Z) (upd : Updates)
  : Prop :=
  (updName upd = None ∧ updArtists upd = None) ∨
  ∃ j info, 0 <= j < k ∧ getTrack env u j = Done (Some info) ∧
            updName upd = Some (infoName info) ∧
            updArtists upd = Some (infoArtists info).

(** What the updates of an effort hold when its attempt [n] caught
    nothing: name and artists as fetched in some attempt up to [n], and
    there are some when [getTrack] answers with a track in attempt [n];
    the BPM that [getBpm] answers in attempt [n], and no other. *)
Definition fetchedBy (env : Env) (u : string) (needsMetadata needsBpm : bool)
  (n : Z) (upd : Updates) : Prop :=
  metadataFetched env u (n + 1) upd ∧
  (needsMetadata = true → ∀ info,
     getTrack env u n = Done (Some info) → updName upd ≠ None) ∧
  (needsBpm = true → lastSegment EmptyString u ≠ EmptyString → ∀ b,
     getBpm env (lastSegment EmptyString u) n = Done (Some b) →
     updBpm upd = Some b) ∧
  (∀ b, updBpm upd = Some b →
     getBpm env (lastSegment EmptyString u) n = Done (Some b)).

(** ** Further notions *)

(** The waits of an effort, in order. *)
Definition sleeps (events : list FetchEvent) : list Z :=
  omap (λ ev, match ev with Sleep ms => Some ms | Attempt _ _ => None end) events.

(** The callback of [Object.entries(currentData.tracks).forEach(..)] in
    the cleanup of empty tracks. *)
Definition cleanupStep (acc : Tracks * World) (entry : string * TrackData)
  : Tracks * World :=
  if isTrackEmpty entry.2
  then (acc.1, removeTrackInfo entry.1 acc.2)
  else (acc.1 ++ [entry], acc.2).

(** A later state [t'] of a track [t] in which nothing but what was
    missing has been filled in. *)
Definition keeps (t t' : TrackData) : Prop :=
  rating t' = rating t ∧ energy t' = energy t ∧ tags t' = tags t ∧
  dateCreated t' = dateCreated t ∧ dateModified t' = dateModified t ∧
  (bpm t ≠ None → bpm t' = bpm t) ∧
  (needsMetadataOf t = false → name t' = name t ∧ artists t' = artists t).

(** Updates that touch only what the flags of an effort ask for. *)
Definition fromFlags (needsMetadata needsBpm : bool) (upd : Updates) : Prop :=
  (updBpm upd ≠ None → needsBpm = true) ∧
  (updName upd ≠ None ∨ updArtists upd ≠ None → needsMetadata = true).

(** [data'] has the keys and categories of [data], every track of [data]
    is kept in the sense above, and the tracks outside [targets] are as
    in [data]. *)
Definition conservative (targets : list string)
  (data data' : TagDataStructure) : Prop :=
  categories data' = categories data ∧
  map fst (tracks data') = map fst (tracks data) ∧
  (∀ u t, getTrackData (tracks data) u = Some t →
          ∃ t', getTrackData (tracks data') u = Some t' ∧ keeps t t') ∧
  (∀ u, u ∉ targets →
        getTrackData (tracks data') u = getTrackData (tracks data) u).

(** A result whose key is a target and whose updates the original track
    allows, whatever kept state they are merged into. *)
Definition okResult (targets : list string) (data : TagDataStructure)
  (s : Settled) : Prop :=
  match s with
  | Fulfilled value =>
      uri value ∈ targets ∧
      ∀ t c, getTrackData (tracks data) (uri value) = Some t → keeps t c →
             keeps t (merge c (updates value))
  | RejectedPromise => True
  end.

(** The batches of the second pass: [stillNeedWork.slice(i, i + BATCH_SIZE)]
    for the values of [i] the loop goes through. *)
Definition batches (stillNeedWork : list string) : list (list string) :=
  map (λ i, take BATCH_SIZE (drop i stillNeedWork))
    (batchStarts (length stillNeedWork)).

(** The key [u] is in one of the two sets of the run. *)
Definition settled (u : string) (l : Loop) : Prop :=
  u ∈ processedSet (run l) ∨ u ∈ failedSet (run l).

(** What the second migration may do to the outside when [total] tracks
    need work: writes of the data and of the progress record, progress
    reports out of [total], and waits of between 500 and 5000 ms. *)
Definition metadataEffect (total : Z) (e : Effect) : Prop :=
  match e with
  | SetTagData _ | SaveMigrationProgress _ => True
  | OnProgress processed total' => 0 <= processed ∧ total' = total
  | Delay ms => (BASE_DELAY_BETWEEN_BATCHES_MS <= ms <= inject_Z 5000)%Q
  | SaveMigrationState _ | RemoveTrackInfo _ | RemoveTrackInfoCache
  | DispatchDataUpdated => False
  end.

(** [w'] is [w] after some such effects; the other two storage entries
    are as they were. *)
Definition extends (total : Z) (w w' : World) : Prop :=
  (∃ more, effects w' = effects w ++ more ∧ Forall (metadataEffect total) more) ∧
  trackInfoCache (storage w') = trackInfoCache (storage w) ∧
  savedMigrations (storage w') = savedMigrations (storage w).

Definition delayOk (l : Loop) : Prop :=
  (BASE_DELAY_BETWEEN_BATCHES_MS <= currentDelay l <= inject_Z 5000)%Q.

(** The first pass is done with the key [u]: it is marked processed, and
    its track has a BPM, a name and artists. *)
Definition resolved (u : string) (r : Run) : Prop :=
  u ∈ processedSet r ∧ (u ∉ failedSet r) ∧
  ∃ t, getTrackData (tracks (updatedData r)) u = Some t ∧
       bpm t ≠ None ∧ is_Some (name t) ∧ is_Some (artists t).

(** A settled promise that carries a successful result. *)
Definition succeeded (s : Settled) : bool :=
  match s with
  | Fulfilled value => success value
  | RejectedPromise => false
  end.

(** The number of results of a batch that are not successes. *)
Definition failuresIn (results : list Settled) : Z :=
  Z.of_nat (length (filter (λ s, succeeded s = false) results)).

(** ** Sample data *)

Definition emptyStorage : LocalStorage :=
  {| savedMigrations := None; savedProgress := None; trackInfoCache := None |}.

Definition freshWorld : World := {| storage := emptyStorage; effects := [] |}.

Definition networkDown : JsError :=
  {| status := None; message := Some "network request failed"%string |}.

Definition notFound : JsError :=
  {| status := Some 404; message := Some "Not Found"%string |}.

(** Every fetch fails with a network error. *)
Definition offline : Env :=
  {| now := 1000;
     getTrack := λ _ _, Thrown networkDown;
     getBpm := λ _ _, Thrown networkDown |}.

(** A rated track; [n] and [b] are its name (with it, its artists) and
    BPM if known. *)
Definition sampleTrack (n : option string) (b : option Z) : TrackData :=
  {| rating := 4; energy := 0; bpm := b; tags := [];
     name := n; artists := n;
     dateCreated := None; dateModified := None |}.

(** One track with nothing missing. *)
Definition completeData : TagDataStructure :=
  {| categories := [];
     tracks :=
       [("spotify:track:done"%string, sampleTrack (Some "Song"%string) (Some 120))] |}.

(** Only the third migration is pending under version ["1.2.0"]. *)
Definition thirdPending : LocalStorage :=
  {| savedMigrations :=
       Some {| version := "1.2.0";
               migrations := {| cleanupEmptyTracks := Some true;
                                addTrackMetadata := Some true;
                                removeTrackInfoCache := None |} |};
     savedProgress := None;
     trackInfoCache := None |}.

Definition songInfo : TrackInfo :=
  {| infoName := "Song"; infoArtists := "Band" |}.

(** Three tracks without name, artists and BPM. *)
Definition threeTracks : TagDataStructure :=
  {| categories := [];
     tracks := [("spotify:track:A"%string, sampleTrack None None);
                ("spotify:track:B"%string, sampleTrack None None);
                ("spotify:track:C"%string, sampleTrack None None)] |}.

(** Track A is answered at once, track B after two network errors,
    track C is refused with status 404. *)
Definition scenario : Env :=
  {| now := 1000;
     getTrack := λ u n,
       if String.eqb u "spotify:track:A" then Done (Some songInfo)
       else if String.eqb u "spotify:track:B" then
         (if n <? 2 then Thrown networkDown else Done (Some songInfo))
       else Thrown notFound;
     getBpm := λ _ _, Done (Some 128) |}.

(** Eleven tracks without name, artists and BPM. *)
Definition elevenUris : list string :=
  ["spotify:track:00"; "spotify:track:01"; "spotify:track:02";
   "spotify:track:03"; "spotify:track:04"; "spotify:track:05";
   "spotify:track:06"; "spotify:track:07"; "spotify:track:08";
   "spotify:track:09"; "spotify:track:10"]%string.

Definition elevenTracks : TagDataStructure :=
  {| categories := [];
     tracks := map (λ u, (u, sampleTrack None None)) elevenUris |}.

(** A run was interrupted with track A processed and track B failed. *)
Definition interrupted : LocalStorage :=
  {| savedMigrations := None;
     savedProgress :=
       Some {| migrationName := "addTrackMetadata";
               processedUris := ["spotify:track:A"%string];
               failedUris := Some ["spotify:track:B"%string];
               totalTracks := 3;
               startedAt := 500 |};
     trackInfoCache := None |}.

(** The second pass as it starts on [data] without saved progress. *)
Definition startLoop (env : Env) (data : TagDataStructure) : Loop :=
  {| run := resume env None data;
     consecutiveFailures := 0;
     currentDelay := BASE_DELAY_BETWEEN_BATCHES_MS |}.

End Migration.

(* ===================================================================== *)
(** * Properties of the rate limiter *)
(* ===================================================================== *)

Module RateLimiterSpec.
Import RateLimiter.

(** ** Sorting by timestamp *)

Lemma insertByTimestamp_perm r l : insertByTimestamp r l ≡ₚ r :: l.
Proof.
  induction l as [|x l IH]; simpl; [done|].
  destruct (timestamp r <=? timestamp x); [done|].
  rewrite IH. apply Permutation_swap.
Qed.

Lemma sortByTimestamp_perm l : sortByTimestamp l ≡ₚ l.
Proof.
  induction l as [|x l IH]; simpl; [done|].
  rewrite insertByTimestamp_perm. by rewrite IH.
Qed.

Lemma insertByTimestamp_ascending r l :
  ascending l → ascending (insertByTimestamp r l).
Proof.
  unfold ascending. induction 1 as [|x l Hs IH Hx]; simpl.
  - repeat constructor.
  - destruct (Z.leb_spec (timestamp r) (timestamp x)) as [Hle|Hgt].
    + constructor; [by constructor|].
      constructor; [done|].
      eapply Forall_impl; [exact Hx|]. simpl. intros; lia.
    + constructor; [done|].
      rewrite insertByTimestamp_perm. constructor; [lia|done].
Qed.

Lemma sortByTimestamp_ascending l : ascending (sortByTimestamp l).
Proof.
  induction l as [|x l IH]; simpl; [constructor|].
  by apply insertByTimestamp_ascending.
Qed.

Lemma head_sortByTimestamp_None l :
  head (sortByTimestamp l) = None ↔ l = [].
Proof.
  split; [|by intros ->].
  intros H. destruct (sortByTimestamp l) as [|o s] eqn:E; [|done].
  apply Permutation_nil_r. by rewrite <- E, sortByTimestamp_perm.
Qed.

Lemma head_sortByTimestamp_oldest l o :
  head (sortByTimestamp l) = Some o → oldestIn (timestamp o) l.
Proof.
  intros H. pose proof (sortByTimestamp_ascending l) as Hs.
  pose proof (sortByTimestamp_perm l) as Hp.
  destruct (sortByTimestamp l) as [|o' s]; [done|].
  simpl in H. injection H as ->.
  apply StronglySorted_inv in Hs as [_ Hall].
  split.
  - exists o. split; [|done]. rewrite <- Hp. apply list_elem_of_here.
  - intros y Hy. rewrite <- Hp in Hy.
    apply elem_of_cons in Hy as [->|Hy]; [lia|].
    rewrite Forall_forall in Hall. by apply Hall.
Qed.

(** ** The sliding windows *)

Lemma filter_within_narrow now a b (l : list RequestRecord) :
  a <= b → filter (within now a) (filter (within now b) l) = filter (within now a) l.
Proof.
  intros Hab. induction l as [|x l IH]; [done|].
  rewrite (filter_cons (within now b)).
  destruct (decide (within now b x)) as [Hb|Hb].
  - rewrite !filter_cons. destruct (decide (within now a x)); by rewrite IH.
  - rewrite IH, filter_cons.
    destruct (decide (within now a x)) as [Ha|]; [|done].
    unfold within in *. lia.
Qed.

Lemma oldestIn_unique t t' l : oldestIn t l → oldestIn t' l → t = t'.
Proof.
  intros [(o & Ho & <-) Hmin] [(o' & Ho' & <-) Hmin'].
  specialize (Hmin _ Ho'). specialize (Hmin' _ Ho). lia.
Qed.

Lemma oldestIn_head_sort t l o :
  oldestIn t l → head (sortByTimestamp l) = Some o → timestamp o = t.
Proof.
  intros Ht Ho. apply head_sortByTimestamp_oldest in Ho.
  eauto using oldestIn_unique.
Qed.

Lemma oldestIn_nonempty t l : oldestIn t l → l ≠ [].
Proof. intros [(o & Ho & _) _] ->. by apply elem_of_nil in Ho. Qed.

(** C4. [checkRateLimits] keeps exactly the samples younger than 60 s,
    refuses exactly when the last second holds at least
    [maxRequestsPerSecond] samples or the last minute at least
    [maxRequestsPerMinute], and the wait it returns is the time until the
    oldest sample of the violated window (the last second first) leaves
    it, or 100 ms / 1000 ms when that window is empty. *)
Theorem checkRateLimits_spec cfg now st :
  let lastSecond := filter (within now 1000) (requestHistory st) in
  let lastMinute := filter (within now 60000) (requestHistory st) in
  let r := (checkRateLimits cfg now st).1 in
  let st' := (checkRateLimits cfg now st).2 in
  (requestHistory st' ≡ₚ lastMinute ∧
   ∀ x, x ∈ requestHistory st' → now - timestamp x < 60000) ∧
  (allowed r = false ↔
     maxRequestsPerSecond cfg <= Z.of_nat (length lastSecond) ∨
     maxRequestsPerMinute cfg <= Z.of_nat (length lastMinute)) ∧
  (allowed r = true → retryAfterMs r = None) ∧
  (maxRequestsPerSecond cfg <= Z.of_nat (length lastSecond) →
     (∀ t, oldestIn t lastSecond → retryAfterMs r = Some (1000 - (now - t))) ∧
     (lastSecond = [] → retryAfterMs r = Some 100)) ∧
  (Z.of_nat (length lastSecond) < maxRequestsPerSecond cfg →
   maxRequestsPerMinute cfg <= Z.of_nat (length lastMinute) →
     (∀ t, oldestIn t lastMinute → retryAfterMs r = Some (60000 - (now - t))) ∧
     (lastMinute = [] → retryAfterMs r = Some 1000)).
Proof.
  intros lastSecond lastMinute r st'.
  assert (Hmem : ∀ l x, l ≡ₚ lastMinute → x ∈ l → now - timestamp x < 60000).
  { intros l x Hl Hx. rewrite Hl in Hx.
    by apply list_elem_of_filter in Hx as [Hx _]. }
  assert (Hwait : ∀ l (a d : Z),
    (∀ t, oldestIn t l →
       Some (match head (sortByTimestamp l) with
             | Some o => a - (now - timestamp o) | None => d end)
       = Some (a - (now - t))) ∧
    (l = [] →
       Some (match head (sortByTimestamp l) with
             | Some o => a - (now - timestamp o) | None => d end) = Some d)).
  { intros l a d. split; [|by intros ->].
    intros t Ht. destruct (head (sortByTimestamp l)) as [o|] eqn:E.
    - by rewrite (oldestIn_head_sort _ _ _ Ht E).
    - apply head_sortByTimestamp_None in E. by apply oldestIn_nonempty in Ht. }
  subst r st'. unfold checkRateLimits.
  rewrite (filter_within_narrow now 1000 60000) by lia.
  fold lastSecond lastMinute.
  destruct (Z.leb_spec (maxRequestsPerSecond cfg) (Z.of_nat (length lastSecond)))
    as [Hs|Hs]; simpl.
  { split; [split; [done|intros x; by apply (Hmem lastMinute)]|].
    split; [by intuition|].
    split; [done|].
    split; [intros _; apply Hwait|lia]. }
  destruct (Z.leb_spec (maxRequestsPerMinute cfg) (Z.of_nat (length lastMinute)))
    as [Hm|Hm]; simpl.
  { split; [split; [apply sortByTimestamp_perm|]|].
    { intros x. apply (Hmem (sortByTimestamp lastMinute)), sortByTimestamp_perm. }
    split; [by intuition|].
    split; [done|].
    split; [lia|intros _ _; apply Hwait]. }
  split; [split; [done|intros x; by apply (Hmem lastMinute)]|].
  split; [split; [done|lia]|].
  split; [done|].
  split; lia.
Qed.

(** ** The circuit breaker *)




Lemma checkRateLimits_witness :
  retryAfterMs (checkRateLimits smallConfig 5000 busySecond).1 = Some 500.
Proof.
  destruct (checkRateLimits_spec smallConfig 5000 busySecond)
    as (_ & _ & _ & Hsecond & _).
  destruct Hsecond as [Hwait _]; [vm_compute; discriminate|].
  apply (Hwait 4500). split.
  - exists (sample 4500 false). split; [|reflexivity].
    vm_compute. apply list_elem_of_further, list_elem_of_here.
  - intros y Hy. vm_compute in Hy.
    apply elem_of_cons in Hy as [->|Hy]; [vm_compute; discriminate|].
    apply elem_of_cons in Hy as [->|Hy]; [vm_compute; discriminate|].
    by apply elem_of_nil in Hy.
Defined.

(** ** Deduplication of calls in flight *)

(** The attach path of [execute]: with the circuit closed and a pending
    entry for the key younger than [requestTimeoutMs], the caller gets
    the stored promise, nothing is invoked and the limiter is unchanged. *)
Lemma execute_attaches cfg now key fresh st pending :
  circuitOpen st = false →
  pendingRequests st !! key = Some pending →
  now - pendingTimestamp pending < requestTimeoutMs cfg →
  execute cfg now key fresh st = (ReturnsPending (promise pending), st).
Proof.
  intros Hc Hp Hyoung. unfold execute, checkCircuitBreaker.
  rewrite Hc. simpl. rewrite Hp.
  destruct (Z.ltb_spec (now - pendingTimestamp pending) (requestTimeoutMs cfg));
    [done|lia].
Qed.

Lemma checkCircuitBreaker_pending cfg now st :
  pendingRequests (checkCircuitBreaker cfg now st).2 = pendingRequests st.
Proof. unfold checkCircuitBreaker. by repeat case_match. Qed.

Lemma checkRateLimits_pending cfg now st :
  pendingRequests (checkRateLimits cfg now st).2 = pendingRequests st.
Proof. unfold checkRateLimits. by repeat case_match. Qed.

(** What [execute] does to the pending table. *)
Lemma execute_pending cfg now key fresh st :
  match (execute cfg now key fresh st).1 with
  | Invokes p =>
      p = fresh ∧
      pendingRequests (execute cfg now key fresh st).2
        = <[key := {| promise := fresh; pendingTimestamp := now |}]>
            (pendingRequests st) ∧
      (∀ pending, pendingRequests st !! key = Some pending →
                  requestTimeoutMs cfg <= now - pendingTimestamp pending)
  | _ => pendingRequests (execute cfg now key fresh st).2 = pendingRequests st
  end.
Proof.
  unfold execute.
  pose proof (checkCircuitBreaker_pending cfg now st) as Hcb.
  destruct (checkCircuitBreaker cfg now st) as [closed st1]. simpl in Hcb.
  pose proof (checkRateLimits_pending cfg now st1) as Hrl.
  destruct (checkRateLimits cfg now st1) as [r st2]. simpl in Hrl.
  destruct closed; simpl; [|done].
  rewrite Hcb.
  destruct (pendingRequests st !! key) as [pending|] eqn:Hp.
  - destruct (Z.ltb_spec (now - pendingTimestamp pending) (requestTimeoutMs cfg)).
    + simpl. done.
    + destruct (allowed r); simpl; [|congruence].
      rewrite Hrl, Hcb. split_and!; try done. intros ? [= <-]. lia.
  - destruct (allowed r); simpl; [|congruence].
    rewrite Hrl, Hcb. split_and!; done.
Qed.

Lemma step_tracked cfg sys ev :
  tracked sys → ¬ findsStale cfg sys ev → tracked (step cfg sys ev).
Proof.
  intros Htr Hfresh. destruct ev as [now key fn|now p o]; unfold step.
  - pose proof (execute_pending cfg now key (nextPromise sys) (limiter sys)) as H.
    destruct (execute cfg now key (nextPromise sys) (limiter sys)) as [r st].
    simpl in H. destruct r as [e|q|ms|q].
    + intros p s Hp. simpl in *. rewrite H. by apply Htr.
    + intros p s Hp. simpl in *. rewrite H. by apply Htr.
    + intros p s Hp. simpl in *. rewrite H. by apply Htr.
    + destruct H as (-> & Hpend & Hstale).
      assert (Hnone : pendingRequests (limiter sys) !! key = None).
      { destruct (pendingRequests (limiter sys) !! key) as [pending|] eqn:E;
          [|done].
        exfalso. apply Hfresh. exists pending. split; [done|]. by apply Hstale. }
      intros p s Hp. simpl in *. rewrite Hpend.
      destruct (decide (p = nextPromise sys)) as [->|Hne].
      * rewrite lookup_insert_eq in Hp. injection Hp as <-. simpl.
        split; [lia|]. by rewrite lookup_insert_eq.
      * rewrite lookup_insert_ne in Hp by done.
        destruct (Htr p s Hp) as [Hlt Hown]. split; [lia|].
        rewrite lookup_insert_ne; [done|]. intros Heq. rewrite <- Heq in Hown. congruence.
  - destruct (inFlight sys !! p) as [s|] eqn:Hp; [|done].
    destruct (Htr p s Hp) as [_ Hown].
    intros q t Hq. simpl in *.
    destruct (decide (q = p)) as [->|Hne].
    { by rewrite lookup_delete_eq in Hq. }
    rewrite lookup_delete_ne in Hq by done.
    destruct (Htr q t Hq) as [Hlt Hown'].
    split; [done|].
    assert (Hkey : startedKey s ≠ startedKey t).
    { intros Heq. rewrite Heq in Hown. congruence. }
    destruct o; unfold onFulfilled, onRejected, setPending, recordSuccess,
      recordError; simpl.
    + by rewrite lookup_delete_ne.
    + case_match; simpl; by rewrite lookup_delete_ne.
Qed.

Lemma run_tracked cfg events : ∀ sys,
  tracked sys → timely cfg sys events → tracked (foldl (step cfg) sys events).
Proof.
  induction events as [|ev events IH]; intros sys Htr Ht; simpl; [done|].
  destruct Ht as [Hev Hrest]. apply IH; [|done]. by apply step_tracked.
Qed.

Lemma boot_tracked : tracked boot.
Proof. intros p s Hp. simpl in Hp. by rewrite lookup_empty in Hp. Qed.

(** X9. In a run in which no call finds a stale pending entry, a call for
    a key with an operation in flight that was started less than
    [requestTimeoutMs] ago attaches to it and invokes nothing. *)
Theorem timely_deduplicates cfg events now key requestFn p s :
  timely cfg boot events →
  let sys := run cfg events in
  inFlight sys !! p = Some s →
  startedKey s = key →
  now - startedAt s < requestTimeoutMs cfg →
  circuitOpen (limiter sys) = false →
  invocations (step cfg sys (Execute now key requestFn)) = invocations sys ∧
  calls (step cfg sys (Execute now key requestFn))
    = calls sys ++ [(requestFn, ReturnsPending p)].
Proof.
  intros Ht sys Hp <- Hyoung Hclosed.
  destruct (run_tracked cfg events boot boot_tracked Ht p s Hp) as [_ Hown].
  unfold step. fold sys.
  rewrite (execute_attaches cfg now (startedKey s) (nextPromise sys) (limiter sys)
             _ Hclosed Hown Hyoung).
  done.
Qed.

Lemma lateTimeout_not_timely : ¬ timely DEFAULT_CONFIG boot lateTimeout.
Proof.
  intros (_ & Hsecond & _). apply Hsecond. vm_compute.
  eexists. split; [reflexivity|]. simpl. discriminate.
Qed.

(** C1. Deduplication is lost when the handler of a timed-out call runs
    after a newer call for the same key was started: the handler deletes
    the newer call's pending entry.  After [lateTimeout], operation 2 for
    ["getTrack:a"] is in flight since clock 10000 and the circuit is
    closed, yet a call at clock 10001 invokes operation 3. *)
Theorem late_handler_drops_newer_entry :
  let sys := run DEFAULT_CONFIG lateTimeout in
  inFlight sys !! 1%nat
    = Some {| startedKey := "getTrack:a"; startedFn := 2; startedAt := 10000 |} ∧
  circuitOpen (limiter sys) = false ∧
  pendingRequests (limiter sys) !! "getTrack:a" = None ∧
  invocations (step DEFAULT_CONFIG sys (Execute 10001 "getTrack:a" 3%nat))
    = [(0, "getTrack:a", 1%nat); (10000, "getTrack:a", 2%nat);
       (10001, "getTrack:a", 3%nat)] ∧
  ¬ deduplicates DEFAULT_CONFIG.
Proof.
  assert (H : let sys := run DEFAULT_CONFIG lateTimeout in
    inFlight sys !! 1%nat
      = Some {| startedKey := "getTrack:a"; startedFn := 2; startedAt := 10000 |} ∧
    circuitOpen (limiter sys) = false ∧
    pendingRequests (limiter sys) !! "getTrack:a" = None ∧
    invocations (step DEFAULT_CONFIG sys (Execute 10001 "getTrack:a" 3%nat))
      = [(0, "getTrack:a", 1%nat); (10000, "getTrack:a", 2%nat);
         (10001, "getTrack:a", 3%nat)]).
  { vm_compute. done. }
  destruct H as (Hfl & Hc & Hp & Hinv).
  split_and!; try done.
  intros Hd.
  specialize (Hd lateTimeout 10001 "getTrack:a" 3%nat 1%nat _ Hfl eq_refl).
  assert (Hrecent : 0 <= 10001 - 10000 < 10000) by lia.
  specialize (Hd Hrecent Hc). rewrite Hinv in Hd.
  vm_compute in Hd. discriminate.
Qed.

(** ** Rate limits and admissions *)

(** C2, violated by the code. The history counts completed calls and not
    started ones, so sixteen calls with distinct keys made in one
    millisecond are all started by the limiter of the GraphQL requests,
    which is configured for fifteen per second: the number of operations
    started within a trailing second exceeds [maxRequestsPerSecond]. *)
Lemma burst_exceeds_limit :
  admittedWithin 0 1000 (run graphqlConfig burst) = 16 ∧
  maxRequestsPerSecond graphqlConfig = 15 ∧
  ¬ boundsAdmissions graphqlConfig.
Proof.
  assert (H : admittedWithin 0 1000 (run graphqlConfig burst) = 16)
    by (vm_compute; reflexivity).
  split_and!; [done|done|].
  intros Hb. destruct (Hb burst 0) as [Hs _]. rewrite H in Hs.
  simpl in Hs. lia.
Qed.

Lemma checkCircuitBreaker_history cfg now st :
  requestHistory (checkCircuitBreaker cfg now st).2 = requestHistory st.
Proof. unfold checkCircuitBreaker. by repeat case_match. Qed.

Lemma execute_invokes_allowed cfg now key fresh st p st' :
  execute cfg now key fresh st = (Invokes p, st') →
  allowed (checkRateLimits cfg now (checkCircuitBreaker cfg now st).2).1 = true.
Proof.
  unfold execute.
  destruct (checkCircuitBreaker cfg now st) as [closed st1]. simpl.
  destruct (checkRateLimits cfg now st1) as [r st2]. simpl.
  destruct closed; simpl; [|discriminate].
  destruct (allowed r); simpl; [done|].
  by repeat case_match.
Qed.

Lemma checkRateLimits_allowed cfg now st :
  allowed (checkRateLimits cfg now st).1 = true →
  Z.of_nat (length (filter (within now 1000) (requestHistory st)))
    < maxRequestsPerSecond cfg ∧
  Z.of_nat (length (filter (within now 60000) (requestHistory st)))
    < maxRequestsPerMinute cfg.
Proof.
  unfold checkRateLimits.
  rewrite (filter_within_narrow now 1000 60000) by lia.
  destruct (Z.leb_spec (maxRequestsPerSecond cfg)
    (Z.of_nat (length (filter (within now 1000) (requestHistory st)))));
    simpl; [discriminate|].
  destruct (Z.leb_spec (maxRequestsPerMinute cfg)
    (Z.of_nat (length (filter (within now 60000) (requestHistory st)))));
    simpl; [discriminate|done].
Qed.

(** What the check before a start does bound: an operation is started
    only when the samples of completed calls in the history number fewer
    than [maxRequestsPerSecond] within the last second and fewer than
    [maxRequestsPerMinute] within the last minute. *)
Theorem admission_bounds_completed cfg now key fresh st p st' :
  execute cfg now key fresh st = (Invokes p, st') →
  Z.of_nat (length (filter (within now 1000) (requestHistory st)))
    < maxRequestsPerSecond cfg ∧
  Z.of_nat (length (filter (within now 60000) (requestHistory st)))
    < maxRequestsPerMinute cfg.
Proof.
  intros Hex. apply execute_invokes_allowed in Hex.
  apply checkRateLimits_allowed in Hex.
  by rewrite checkCircuitBreaker_history in Hex.
Qed.

Lemma admission_bounds_completed_witness :
  Z.of_nat (length (filter (within 6000 1000) (requestHistory busySecond)))
    < maxRequestsPerSecond smallConfig.
Proof.
  refine (proj1 (admission_bounds_completed smallConfig 6000 "k" 0%nat busySecond
    0%nat (execute smallConfig 6000 "k" 0%nat busySecond).2 _)).
  vm_compute. reflexivity.
Defined.

End RateLimiterSpec.

(* ===================================================================== *)
(** * Properties of the migrations *)
(* ===================================================================== *)

Module MigrationSpec.
Import Migration.

(** ** The driver *)

Lemma eqb_false_iff_ne (a b : string) : negb (String.eqb a b) = true ↔ a ≠ b.
Proof.
  destruct (String.eqb_spec a b); simpl; split; try done; congruence.
Qed.

(** C10. [needsMigrations] is true exactly when the stored version
    differs from the running one or one of the flags
    [cleanupEmptyTracks], [addTrackMetadata] is unset; the flag
    [removeTrackInfoCache] has no influence, so with the version current
    and the first two flags true the answer is false also when the third
    migration is pending. *)
Theorem needsMigrations_spec V ls :
  (needsMigrations V ls = true ↔
     version (getMigrationState ls) ≠ V ∨
     unset (cleanupEmptyTracks (migrations (getMigrationState ls))) = true ∨
     unset (addTrackMetadata (migrations (getMigrationState ls))) = true) ∧
  (∀ v c a third third',
     needsMigrations V
       (withState ls {| version := v;
                        migrations := {| cleanupEmptyTracks := c;
                                         addTrackMetadata := a;
                                         removeTrackInfoCache := third |} |})
     = needsMigrations V
       (withState ls {| version := v;
                        migrations := {| cleanupEmptyTracks := c;
                                         addTrackMetadata := a;
                                         removeTrackInfoCache := third' |} |})) ∧
  (version (getMigrationState ls) = V →
   cleanupEmptyTracks (migrations (getMigrationState ls)) = Some true →
   addTrackMetadata (migrations (getMigrationState ls)) = Some true →
   unset (removeTrackInfoCache (migrations (getMigrationState ls))) = true →
   needsMigrations V ls = false).
Proof.
  split_and!.
  - unfold needsMigrations. rewrite !orb_true_iff, eqb_false_iff_ne. tauto.
  - done.
  - intros Hv Hc Ha _. unfold needsMigrations. rewrite Hv, Hc, Ha.
    by rewrite String.eqb_refl.
Qed.

Lemma needsMigrations_witness : needsMigrations "1.2.0" thirdPending = false.
Proof.
  destruct (needsMigrations_spec "1.2.0" thirdPending) as (_ & _ & H).
  apply H; reflexivity.
Defined.

(** C9. When a call of [runMigrations] has returned and left all three
    flags true and the stored version equal to the running one, another
    call returns [false] and leaves the storage and the list of effects
    as they are: nothing is written, no flag changes, no [setTagData] and
    no notification. *)
Theorem runMigrations_idempotent V env data w changed w' :
  runMigrations V env data w = (Done changed, w') →
  version (getMigrationState (storage w')) = V →
  cleanupEmptyTracks (migrations (getMigrationState (storage w'))) = Some true →
  addTrackMetadata (migrations (getMigrationState (storage w'))) = Some true →
  removeTrackInfoCache (migrations (getMigrationState (storage w'))) = Some true →
  ∀ env' data', runMigrations V env' data' w' = (Done false, w').
Proof.
  intros _ Hv Hc Ha Hr env' data'. unfold runMigrations.
  destruct (Nat.eqb (length (tracks data')) 0); [done|].
  unfold migration1, migration2, migration3, saveAndNotify, flagsOf. simpl.
  rewrite Hc. simpl. rewrite Ha. simpl. rewrite Hr. simpl.
  by rewrite Hv, String.eqb_refl.
Qed.

Lemma runMigrations_idempotent_witness :
  let w' := (runMigrations "1.2.0" offline completeData freshWorld).2 in
  runMigrations "1.2.0" offline completeData w' = (Done false, w').
Proof.
  refine (runMigrations_idempotent "1.2.0" offline completeData freshWorld true
    _ _ _ _ _ _ offline completeData); reflexivity.
Defined.

(** ** Resuming *)

(** What one turn of the first pass does to the key sets and to
    [stillNeedWork]. *)
Lemma cacheStep_cases ls r todo u :
  let r' := (cacheStep ls (r, todo) u).1 in
  let todo' := (cacheStep ls (r, todo) u).2 in
  (todo' = todo ∨ todo' = todo ++ [u]) ∧
  (u ∈ failedSet r → u ∉ processedSet r → todo' = todo ++ [u]) ∧
  (∀ v, v ≠ u → (v ∈ processedSet r' ↔ v ∈ processedSet r) ∧
                (v ∈ failedSet r' ↔ v ∈ failedSet r)).
Proof.
  unfold cacheStep.
  destruct (bool_decide_reflect (u ∈ failedSet r ∧ u ∉ processedSet r))
    as [Hfp|Hfp]; simpl.
  { split_and!; [by right|done|done]. }
  destruct (getTrackData (tracks (updatedData r)) u) as [t|]; simpl.
  2:{ split_and!; [by left|tauto|done]. }
  repeat case_match; simplify_eq; simpl;
    (split_and!; [by (left + right)|tauto|intros v Hv; set_solver]).
Qed.

Lemma cachePass_from ls l : ∀ r todo,
  let todo' := (foldl (cacheStep ls) (r, todo) l).2 in
  (∀ u, u ∈ todo → u ∈ todo') ∧
  (∀ u, u ∈ todo' → u ∈ todo ∨ u ∈ l) ∧
  (∀ u, u ∈ l → u ∈ failedSet r → u ∉ processedSet r → u ∈ todo').
Proof.
  induction l as [|x l IH]; intros r todo; cbn [foldl].
  { split_and!; [done|by left|]. intros u Hu. by apply elem_of_nil in Hu. }
  pose proof (cacheStep_cases ls r todo x) as Hc. cbv zeta in Hc.
  destruct (cacheStep ls (r, todo) x) as [r1 todo1].
  cbn [fst snd] in Hc. destruct Hc as (Hgrow & Hpush & Hother).
  destruct (IH r1 todo1) as (IH1 & IH2 & IH3).
  assert (Hsub : ∀ u, u ∈ todo → u ∈ todo1).
  { intros u Hu. destruct Hgrow as [->| ->]; [done|]. set_solver. }
  split_and!.
  - intros u Hu. by apply IH1, Hsub.
  - intros u Hu. apply IH2 in Hu as [Hu|Hu]; [|set_solver].
    destruct Hgrow as [->| ->]; [by left|].
    apply elem_of_app in Hu as [Hu|Hu]; [by left|]. set_solver.
  - intros u Hu Hf Hp. destruct (decide (u = x)) as [->|Hne].
    + apply IH1. rewrite (Hpush Hf Hp). set_solver.
    + apply elem_of_cons in Hu as [->|Hu]; [done|].
      destruct (Hother u Hne) as [Hp' Hf'].
      apply IH3; [done|by apply Hf'|by rewrite Hp'].
Qed.

(** C8. With a saved progress record named ["addTrackMetadata"], the
    run starts from the processed and failed keys of that record; the
    keys it works on are the targets that are not processed or are
    failed, as a set [(targets ∖ processed) ∪ (targets ∩ failed)]; only
    such keys are handed to the network pass, so a processed key that is
    not failed is never fetched again, and every failed key that is not
    processed is handed to the network pass. *)
Theorem resume_remaining env ls currentData p :
  getMigrationProgress ls = Some p →
  migrationName p = "addTrackMetadata"%string →
  let r := resume env (getMigrationProgress ls) currentData in
  let targets := tracksNeedingWork currentData in
  let remaining := remainingTracks r targets in
  let stillNeedWork := (cachePass ls r remaining).2 in
  processedSet r = list_to_set (processedUris p) ∧
  failedSet r = list_to_set (default [] (failedUris p)) ∧
  list_to_set remaining =@{gset string}
    (list_to_set targets ∖ processedSet r) ∪
    (list_to_set targets ∩ failedSet r) ∧
  (∀ u, u ∈ stillNeedWork → u ∈ remaining) ∧
  (∀ u, u ∈ processedSet r → u ∉ failedSet r → u ∉ stillNeedWork) ∧
  (∀ u, u ∈ targets → u ∈ failedSet r → u ∉ processedSet r →
        u ∈ stillNeedWork).
Proof.
  intros Hsaved Hname r targets remaining stillNeedWork.
  assert (Hr : r = {| updatedData := currentData;
                      processedSet := list_to_set (processedUris p);
                      failedSet := list_to_set (default [] (failedUris p));
                      progress := p |}).
  { subst r. rewrite Hsaved. unfold resume. by rewrite decide_True. }
  assert (Hrem : ∀ u, u ∈ remaining ↔
            u ∈ targets ∧ (u ∉ processedSet r ∨ u ∈ failedSet r)).
  { intros u. subst remaining. unfold remainingTracks.
    rewrite list_elem_of_filter. tauto. }
  destruct (cachePass_from ls remaining r []) as (_ & Hfrom & Hfailed).
  fold (cachePass ls r remaining) in Hfrom, Hfailed.
  assert (Hstill : ∀ u, u ∈ stillNeedWork → u ∈ remaining).
  { intros u Hu. apply Hfrom in Hu as [Hu|Hu]; [|done].
    by apply elem_of_nil in Hu. }
  split_and!.
  - by rewrite Hr.
  - by rewrite Hr.
  - apply set_eq. intros u.
    rewrite elem_of_list_to_set, Hrem, elem_of_union, elem_of_difference,
      elem_of_intersection, elem_of_list_to_set. tauto.
  - done.
  - intros u Hp Hf Hu. apply Hstill, Hrem in Hu. tauto.
  - intros u Hu Hf Hp. apply Hfailed; [|done|done]. apply Hrem. tauto.
Qed.

(** ** The per-track effort *)

Lemma isRetryableError_iff e :
  isRetryableError (Some e) = true ↔
    status e = Some 429 ∨
    ∃ m, message e = Some m ∧
         (includes "network" m = true ∨ includes "fetch" m = true ∨
          includes "timeout" m = true).
Proof.
  unfold isRetryableError.
  destruct (bool_decide_reflect (status e = Some 429)) as [Hs|Hs].
  { split; [by left|done]. }
  destruct (message e) as [m|].
  - destruct (includes "network" m) eqn:Hn; simpl.
    { split; [|done]. intros _. right. exists m. auto. }
    destruct (includes "fetch" m) eqn:Hf; simpl.
    { split; [|done]. intros _. right. exists m. auto. }
    split.
    + intros Ht. right. exists m. auto.
    + intros [?|(m' & [= <-] & [?|[?|?]])]; congruence.
  - split; [done|]. intros [?|(m' & ? & _)]; congruence.
Qed.

(** One more turn of the loop: the outcome of the attempt, then the
    class of the error it caught. *)
Ltac step_loop :=
  match goal with
  | |- context [attempt ?e ?u ?a ?b ?up ?n] =>
      let u1 := fresh "u" in
      let e1 := fresh "e" in
      destruct (attempt e u a b up n) as [u1 [e1|]]
  | |- context [isRetryableError (Some ?e)] =>
      let R := fresh "R" in
      destruct (isRetryableError (Some e)) eqn:R
  end; cbn [fst snd andb].

(** All the ways a list of at most five events splits at [pre]. *)
Ltac split_events pre :=
  destruct pre as [|? [|? [|? [|? [|? pre]]]]]; simplify_eq/=;
  try match goal with
      | H : [] = ?p ++ _ |- _ => destruct p; discriminate H
      end.

(** C7. A per-track effort makes at most three attempts.  A failed
    attempt is followed by anything only when its error is retryable, and
    then by a wait of [min(1000 * 2^k, 30000)] ms, [k] the number of
    attempts made so far, and by the next attempt; every wait follows a
    failed attempt.  After a failed attempt whose error is not retryable
    nothing follows and the result is a failure that is not retryable.
    An error is retryable exactly when its status is 429 or its message
    contains ["network"], ["fetch"] or ["timeout"].

    The effort does attempt and does retry: it starts with attempt 0,
    which catches what the fetchers throw in it; a failed attempt with a
    retryable error, when fewer than three attempts have been made, is
    followed by that wait and by the next attempt; an effort that ends on
    a failed attempt with a retryable error has made three attempts and
    its result is a retryable failure; an attempt that catches nothing
    ends the effort with a success. *)
Theorem fetchTrack_retries env track u :
  let result := (fetchTrack env track u).1 in
  let events := (fetchTrack env track u).2 in
  attemptsIn events <= 3 ∧
  (∀ pre n e next post,
     events = pre ++ Attempt n (Some e) :: next :: post →
     isRetryableError (Some e) = true ∧
     next = Sleep (Z.min (1000 * 2 ^ attemptsIn (pre ++ [Attempt n (Some e)]))
                     30000) ∧
     ∃ caught, head post = Some (Attempt (n + 1) caught)) ∧
  (∀ pre ms post,
     events = pre ++ Sleep ms :: post →
     ∃ n e, last pre = Some (Attempt n (Some e))) ∧
  (∀ pre n e post,
     events = pre ++ Attempt n (Some e) :: post →
     isRetryableError (Some e) = false →
     post = [] ∧ success result = false ∧ retryable result = false) ∧
  (∀ e, isRetryableError (Some e) = true ↔
     status e = Some 429 ∨
     ∃ m, message e = Some m ∧
          (includes "network" m = true ∨ includes "fetch" m = true ∨
           includes "timeout" m = true)) ∧
  (∃ rest,
     events
     = Attempt 0 (attempt env u (needsMetadataOf track) (needsBpmOf track)
                    noUpdates 0).2 :: rest) ∧
  (∀ pre n e post,
     events = pre ++ Attempt n (Some e) :: post →
     isRetryableError (Some e) = true →
     attemptsIn (pre ++ [Attempt n (Some e)]) < 3 →
     ∃ caught post',
       post = Sleep (Z.min (1000 * 2 ^ attemptsIn (pre ++ [Attempt n (Some e)]))
                       30000)
              :: Attempt (n + 1) caught :: post') ∧
  (∀ pre n e,
     events = pre ++ [Attempt n (Some e)] →
     isRetryableError (Some e) = true →
     attemptsIn events = 3 ∧ success result = false ∧ retryable result = true) ∧
  (∀ pre n post,
     events = pre ++ Attempt n None :: post →
     post = [] ∧ success result = true).
Proof.
  intros result events.
  split_and!; [| | | |apply isRetryableError_iff| | | |];
    subst result events; unfold fetchTrack, MAX_RETRIES_PER_TRACK;
    cbn [retryLoop]; unfold MAX_RETRIES_PER_TRACK;
    change (Z.of_nat 3) with 3;
    change (0 + 1 <? 3) with true; change (0 + 1 + 1 <? 3) with true;
    change (0 + 1 + 1 + 1 <? 3) with false;
    repeat step_loop.
  all: try (vm_compute; discriminate).
  all: try (by eexists).
  all: try (intros pre n e' next post H; split_events pre;
            (split_and!; [done|done|by eexists])).
  all: try (intros pre ms post H; split_events pre; by eexists _, _).
  all: try (intros pre n e' post H Hr; split_events pre;
            unfold failedResult; simpl; split_and!; congruence).
  all: try (intros pre n e' post H Hr Hlt; split_events pre;
            try congruence; try (vm_compute in Hlt; discriminate Hlt);
            by eexists _, _).
  all: try (intros pre n e' H Hr; split_events pre;
            unfold failedResult; simpl; split_and!; congruence || done).
  all: try (intros pre n post H; split_events pre; done).
Qed.

Lemma fetchTrack_retries_witness :
  isRetryableError (Some networkDown) = true ∧
  Sleep 2000 = Sleep (Z.min (1000 * 2 ^ 1) 30000) ∧
  ∃ caught,
    head [Attempt 1 (Some networkDown); Sleep 4000; Attempt 2 None]
    = Some (Attempt (0 + 1) caught).
Proof.
  destruct (fetchTrack_retries scenario (sampleTrack None None) "spotify:track:B")
    as (_ & Hretry & _).
  exact (Hretry [] 0 networkDown (Sleep 2000)
           [Attempt 1 (Some networkDown); Sleep 4000; Attempt 2 None] eq_refl).
Defined.

(** ** The results of a batch *)

Lemma getTrackData_set_eq ts k v : getTrackData (setTrackData ts k v) k = Some v.
Proof.
  induction ts as [|[k' v'] ts IH]; simpl.
  - by rewrite decide_True.
  - destruct (decide (k' = k)) as [->|Hne]; simpl.
    + by rewrite decide_True.
    + by rewrite decide_False.
Qed.

Lemma getTrackData_set_ne ts k v u :
  k ≠ u → getTrackData (setTrackData ts k v) u = getTrackData ts u.
Proof.
  intros Hne. induction ts as [|[k' v'] ts IH]; simpl.
  - by rewrite decide_False.
  - destruct (decide (k' = k)) as [->|Hk]; simpl.
    + by rewrite !decide_False.
    + destruct (decide (k' = u)); [done|apply IH].
Qed.

Lemma applyResult_own l n value :
  applied value l (applyResult (l, n) (Fulfilled value)).1.
Proof.
  unfold applied, applyResult, trackOf. simpl.
  destruct (success value); simpl.
  - split_and!; try done. intros _.
    split_and!; [set_solver|set_solver|].
    destruct (hasKeys (updates value)); [|done].
    destruct (getTrackData (tracks (updatedData (run l))) (uri value)) eqn:E;
      simpl; [|by rewrite E].
    apply getTrackData_set_eq.
  - destruct (retryable value); simpl.
    + split_and!; try done. intros _ _. split_and!; [set_solver|done|done].
    + split_and!; try done. intros _ _. split_and!; [set_solver|set_solver|done].
Qed.

Lemma applyResult_other l n s u :
  u ∉ resultUris [s] → untouched u l (applyResult (l, n) s).1.
Proof.
  unfold untouched, applyResult, trackOf.
  destruct s as [value|]; simpl; [|done].
  intros Hu. assert (uri value ≠ u) by set_solver.
  destruct (success value); simpl.
  - split_and!; [set_solver|set_solver|].
    destruct (hasKeys (updates value)); [|done].
    destruct (getTrackData (tracks (updatedData (run l))) (uri value)); [|done].
    simpl. by apply getTrackData_set_ne.
  - destruct (retryable value); simpl; split_and!; set_solver.
Qed.

Lemma applyResult_progress l n s :
  progress (run (applyResult (l, n) s).1) = progress (run l).
Proof. unfold applyResult. by repeat case_match. Qed.

Lemma applyResults_other results : ∀ l n u,
  u ∉ resultUris results → untouched u l (foldl applyResult (l, n) results).1.
Proof.
  induction results as [|s results IH]; intros l n u Hu; cbn [foldl].
  { by unfold untouched. }
  assert (Hs : u ∉ resultUris [s]).
  { intros Hin. apply Hu. unfold resultUris in *. destruct s; set_solver. }
  assert (Hrest : u ∉ resultUris results).
  { intros Hin. apply Hu. unfold resultUris in *. destruct s; set_solver. }
  pose proof (applyResult_other l n s u Hs) as H1.
  destruct (applyResult (l, n) s) as [l1 n1]. cbn [fst] in H1.
  pose proof (IH l1 n1 u Hrest) as H2.
  unfold untouched in *. destruct H1 as (? & ? & ?), H2 as (? & ? & ->).
  split_and!; [tauto|tauto|done].
Qed.

Lemma applyResults_progress results : ∀ l n,
  progress (run (foldl applyResult (l, n) results).1) = progress (run l).
Proof.
  induction results as [|s results IH]; intros l n; cbn [foldl]; [done|].
  pose proof (applyResult_progress l n s) as H.
  destruct (applyResult (l, n) s) as [l1 n1]. cbn [fst] in H.
  by rewrite IH.
Qed.

Lemma applied_untouched value l l1 l2 :
  applied value l l1 → untouched (uri value) l1 l2 → applied value l l2.
Proof.
  unfold applied, untouched. intros (Hs & Hr & Ht) (Hp & Hf & ->).
  split_and!.
  - intros H. destruct (Hs H) as (? & ? & ?). rewrite Hp, Hf. tauto.
  - intros H H'. destruct (Hr H H') as (? & ? & ?). rewrite Hp, Hf. tauto.
  - intros H H'. destruct (Ht H H') as (? & ? & ?). rewrite Hp, Hf. tauto.
Qed.

Lemma untouched_applied value l l1 l2 :
  untouched (uri value) l l1 → applied value l1 l2 → applied value l l2.
Proof.
  unfold applied, untouched. intros (Hp & Hf & Htr) (Hs & Hr & Ht).
  rewrite <- Htr, <- Hp. done.
Qed.

Lemma applyResults_applied results : ∀ l n value,
  NoDup (resultUris results) →
  Fulfilled value ∈ results →
  applied value l (foldl applyResult (l, n) results).1.
Proof.
  induction results as [|s results IH]; intros l n value Hnd Hin; cbn [foldl].
  { by apply elem_of_nil in Hin. }
  apply elem_of_cons in Hin as [<-|Hin].
  - assert (Hrest : uri value ∉ resultUris results).
    { unfold resultUris in *. simpl in Hnd. by apply NoDup_cons in Hnd as [? _]. }
    pose proof (applyResult_own l n value) as H1.
    destruct (applyResult (l, n) (Fulfilled value)) as [l1 n1]. cbn [fst] in H1.
    eapply applied_untouched; [done|]. by apply applyResults_other.
  - assert (Hnd' : NoDup (resultUris results)).
    { unfold resultUris in *. destruct s; simpl in Hnd; [|done].
      by apply NoDup_cons in Hnd as [_ ?]. }
    assert (Hs : uri value ∉ resultUris [s]).
    { unfold resultUris in *. destruct s as [v|]; simpl in *; [|set_solver].
      apply NoDup_cons in Hnd as [Hv _]. intros Heq. apply Hv.
      assert (uri v = uri value) as -> by set_solver.
      apply list_elem_of_omap. by exists (Fulfilled value). }
    pose proof (applyResult_other l n s (uri value) Hs) as H1.
    destruct (applyResult (l, n) s) as [l1 n1]. cbn [fst] in H1.
    eapply untouched_applied; [done|]. by apply IH.
Qed.

Lemma afterBatch_run l results :
  run (afterBatch l results) = run (foldl applyResult (l, 0) results).1.
Proof.
  unfold afterBatch. destruct (foldl applyResult (l, 0) results) as [l1 n].
  by destruct (0 <? n).
Qed.

Lemma resume_snapshot env r data :
  migrationName (progress r) = "addTrackMetadata"%string →
  processedSet (resume env (Some (snapshot r)) data) = processedSet r ∧
  failedSet (resume env (Some (snapshot r)) data) = failedSet r.
Proof.
  intros Hname. unfold resume. simpl. rewrite decide_True by done. simpl.
  split; apply list_to_set_elements_L.
Qed.

Lemma afterBatch_other l results u :
  u ∉ resultUris results → untouched u l (afterBatch l results).
Proof.
  intros Hu. pose proof (applyResults_other results l 0 u Hu) as H.
  unfold untouched, trackOf in *. by rewrite afterBatch_run.
Qed.

Lemma afterBatch_progress l results :
  progress (run (afterBatch l results)) = progress (run l).
Proof. by rewrite afterBatch_run, applyResults_progress. Qed.

Lemma afterBatches_other u later : ∀ l,
  Forall (λ results, u ∉ resultUris results) later →
  untouched u l (foldl afterBatch l later) ∧
  progress (run (foldl afterBatch l later)) = progress (run l).
Proof.
  induction later as [|results later IH]; intros l Hlater; cbn [foldl].
  { by unfold untouched. }
  apply Forall_cons in Hlater as [Hu Hlater].
  destruct (IH (afterBatch l results) Hlater) as [(Hp & Hf & Ht) Hprog].
  destruct (afterBatch_other l results u Hu) as (Hp' & Hf' & Ht').
  rewrite Hprog, afterBatch_progress. unfold untouched.
  rewrite Hp, Hf, Ht. done.
Qed.

(** ** What a successful effort has fetched *)

Lemma metadataFetched_mono env u k k' upd :
  k <= k' → metadataFetched env u k upd → metadataFetched env u k' upd.
Proof.
  intros Hk [H|(j & info & Hj & H)]; [by left|right].
  exists j, info. split; [lia|done].
Qed.

Lemma attempt_fetches env u nm nb upd k :
  0 <= k → updBpm upd = None → metadataFetched env u k upd →
  match (attempt env u nm nb upd k).2 with
  | Some _ =>
      updBpm (attempt env u nm nb upd k).1 = None ∧
      metadataFetched env u (k + 1) (attempt env u nm nb upd k).1
  | None => fetchedBy env u nm nb k (attempt env u nm nb upd k).1
  end.
Proof.
  intros Hk Hbpm Hmeta.
  assert (Hmeta1 : metadataFetched env u (k + 1) upd)
    by (eapply metadataFetched_mono; [|done]; lia).
  assert (Hnew : ∀ info b, getTrack env u k = Done (Some info) →
    metadataFetched env u (k + 1)
      {| updName := Some (infoName info);
         updArtists := Some (infoArtists info); updBpm := b |}).
  { intros info b Hinfo. right. exists k, info. split_and!; try done; lia. }
  assert (Htruthy : ∀ s, truthy s = true → s ≠ None).
  { intros [s|]; done. }
  unfold attempt, fetchedBy. cbv zeta.
  destruct (nm && negb (truthy (updName upd))) eqn:Hfetch.
  - destruct (getTrack env u k) as [[info|]|e] eqn:Hget; [| |done].
    + cbn [updBpm]. rewrite Hbpm, bool_decide_true by done.
      destruct nb; cbn [andb].
      * destruct (negb (String.eqb _ _)) eqn:Hid.
        -- apply negb_true_iff, String.eqb_neq in Hid.
           destruct (getBpm env _ k) as [[b|]|e] eqn:Hb; cbn [fst snd].
           ++ split_and!; try done; [by apply Hnew|..]; simpl;
                intros; congruence.
           ++ split_and!; try done; [by apply Hnew|..]; simpl;
                intros; congruence.
           ++ split; [done|by apply Hnew].
        -- apply negb_false_iff, String.eqb_eq in Hid.
           cbn [fst snd]. split_and!; try done; [by apply Hnew|..]; simpl;
             intros; congruence.
      * cbn [fst snd]. split_and!; try done; [by apply Hnew|..]; simpl;
          intros; congruence.
    + apply andb_true_iff in Hfetch as [-> Hfalsy].
      rewrite Hbpm, bool_decide_true by done.
      destruct nb; cbn [andb].
      * destruct (negb (String.eqb _ _)) eqn:Hid.
        -- apply negb_true_iff, String.eqb_neq in Hid.
           destruct (getBpm env _ k) as [[b|]|e] eqn:Hb; cbn [fst snd].
           ++ split_and!; try done; simpl; intros; congruence.
           ++ split_and!; try done; simpl; intros; congruence.
           ++ done.
        -- apply negb_false_iff, String.eqb_eq in Hid.
           cbn [fst snd]. split_and!; try done; simpl; intros; congruence.
      * cbn [fst snd]. split_and!; try done; simpl; intros; congruence.
  - assert (Hname : nm = true → updName upd ≠ None).
    { intros ->. cbn [andb] in Hfetch. apply negb_false_iff in Hfetch.
      by apply Htruthy. }
    rewrite Hbpm, bool_decide_true by done.
    destruct nb; cbn [andb].
    + destruct (negb (String.eqb _ _)) eqn:Hid.
      * apply negb_true_iff, String.eqb_neq in Hid.
        destruct (getBpm env _ k) as [[b|]|e] eqn:Hb; cbn [fst snd].
        -- split_and!; try done; simpl; intros; try congruence; by apply Hname.
        -- split_and!; try done; simpl; intros; try congruence; by apply Hname.
        -- done.
      * apply negb_false_iff, String.eqb_eq in Hid.
        cbn [fst snd]. split_and!; try done; simpl; intros; try congruence;
          by apply Hname.
    + cbn [fst snd]. split_and!; try done; simpl; intros; try congruence;
        by apply Hname.
Qed.

Lemma retryLoop_fetches env u nm nb attemptsLeft : ∀ k upd err,
  0 <= k → updBpm upd = None → metadataFetched env u k upd →
  success (retryLoop env u nm nb attemptsLeft k upd err).1 = true →
  ∃ n, k <= n ∧
       last (retryLoop env u nm nb attemptsLeft k upd err).2
         = Some (Attempt n None) ∧
       fetchedBy env u nm nb n
         (updates (retryLoop env u nm nb attemptsLeft k upd err).1).
Proof.
  induction attemptsLeft as [|attemptsLeft IH]; intros k upd err Hk Hbpm Hmeta;
    cbn [retryLoop]; [discriminate|].
  pose proof (attempt_fetches env u nm nb upd k Hk Hbpm Hmeta) as Hstep.
  destruct (attempt env u nm nb upd k) as [upd' [e|]]; cbn [fst snd] in Hstep.
  - destruct Hstep as [Hbpm' Hmeta'].
    destruct (isRetryableError (Some e) && _); [|discriminate].
    assert (Hk' : 0 <= k + 1) by lia.
    specialize (IH (k + 1) upd' (Some e) Hk' Hbpm' Hmeta').
    destruct (retryLoop env u nm nb attemptsLeft (k + 1) upd' (Some e))
      as [result rest]. cbn [fst snd] in *.
    intros Hsucc. destruct (IH Hsucc) as (n & Hn & Hlast & Hfetched).
    exists n. split_and!; [lia| |done].
    destruct rest as [|ev rest]; [discriminate Hlast|]. exact Hlast.
  - intros _. exists k. split_and!; [lia|done|done].
Qed.

Lemma fetchTrack_fetches env t u :
  success (fetchTrack env t u).1 = true →
  ∃ n, 0 <= n ∧
       last (fetchTrack env t u).2 = Some (Attempt n None) ∧
       fetchedBy env u (needsMetadataOf t) (needsBpmOf t) n
         (updates (fetchTrack env t u).1).
Proof.
  apply retryLoop_fetches; [lia|done|by left].
Qed.

(** C6. After the results of a batch are applied, for every fulfilled
    result: a success has its updates, when there are any, merged into
    its track and its key in [processed] and out of [failed]; a retryable
    failure has its key in [failed], its membership in [processed] and
    its track as before; a terminal failure has its key in [processed]
    and out of [failed] and its track as before, whatever updates it
    gathered.  After any later batches on other keys, a run that resumes
    from the progress saved in that state works on the key of a retryable
    failure if it is still a target, and on no key of a success or of a
    terminal failure.

    Field by field: after a success the track has the name, the artists
    and the BPM of the updates where the updates have them, and its own
    otherwise; rating, energy, tags and dates are its own.  And what was
    fetched reaches the dataset: when the result is the one of the
    effort for the track, which ended with attempt [n], the track has
    the BPM that [getBpm] answered in attempt [n], and, when [getTrack]
    answers with a track in attempt [n], the name and artists that
    [getTrack] answered in an attempt up to [n]. *)
Theorem afterBatch_applied l results value later :
  NoDup (resultUris results) →
  Fulfilled value ∈ results →
  migrationName (progress (run l)) = "addTrackMetadata"%string →
  Forall (λ others, uri value ∉ resultUris others) later →
  let l' := afterBatch l results in
  applied value l l' ∧
  (∀ env data,
    let remaining :=
      remainingTracks
        (resume env (Some (snapshot (run (foldl afterBatch l' later)))) data)
        (tracksNeedingWork data) in
    (success value = false → retryable value = true →
     uri value ∈ tracksNeedingWork data → uri value ∈ remaining) ∧
    (success value = true ∨ retryable value = false → uri value ∉ remaining)) ∧
  (success value = true → ∀ t, trackOf l (uri value) = Some t →
     ∃ t', trackOf l' (uri value) = Some t' ∧
           name t' = match updName (updates value) with
                     | Some n => Some n
                     | None => name t
                     end ∧
           artists t' = match updArtists (updates value) with
                        | Some a => Some a
                        | None => artists t
                        end ∧
           bpm t' = match updBpm (updates value) with
                    | Some b => Some b
                    | None => bpm t
                    end ∧
           rating t' = rating t ∧ energy t' = energy t ∧ tags t' = tags t ∧
           dateCreated t' = dateCreated t ∧
           dateModified t' = dateModified t) ∧
  (∀ env t,
     trackOf l (uri value) = Some t →
     value = (fetchTrack env t (uri value)).1 →
     success value = true →
     ∃ n t',
       last (fetchTrack env t (uri value)).2 = Some (Attempt n None) ∧
       trackOf l' (uri value) = Some t' ∧
       (needsBpmOf t = true →
        lastSegment EmptyString (uri value) ≠ EmptyString →
        ∀ b, getBpm env (lastSegment EmptyString (uri value)) n
               = Done (Some b) →
             bpm t' = Some b) ∧
       (needsMetadataOf t = true →
        ∀ info, getTrack env (uri value) n = Done (Some info) →
        ∃ j fetched,
          0 <= j <= n ∧
          getTrack env (uri value) j = Done (Some fetched) ∧
          name t' = Some (infoName fetched) ∧
          artists t' = Some (infoArtists fetched))).
Proof.
  intros Hnd Hin Hname Hlater l'.
  assert (Happ : applied value l l').
  { pose proof (applyResults_applied results l 0 value Hnd Hin) as H.
    unfold applied, trackOf in *. subst l'. by rewrite afterBatch_run. }
  assert (Hfields : success value = true →
    ∀ t, trackOf l (uri value) = Some t →
         trackOf l' (uri value) = Some (merge t (updates value))).
  { intros Hsucc t Ht. destruct Happ as (Hs & _).
    destruct (Hs Hsucc) as (_ & _ & ->). rewrite Ht.
    destruct (hasKeys (updates value)) eqn:Hkeys; [done|].
    f_equal. unfold hasKeys in Hkeys. unfold merge.
    destruct (updName (updates value)), (updArtists (updates value)),
      (updBpm (updates value)); try discriminate.
    by destruct t. }
  split_and!; [done| | |].
  - intros env data remaining.
    destruct (afterBatches_other (uri value) later l' Hlater)
      as [(Hp' & Hf' & _) Hprog].
    assert (Hname' : migrationName (progress (run (foldl afterBatch l' later)))
                     = "addTrackMetadata"%string).
    { rewrite Hprog. subst l'. by rewrite afterBatch_progress. }
    destruct (resume_snapshot env _ data Hname') as [HP HF].
    subst remaining. unfold remainingTracks.
    rewrite !list_elem_of_filter, HP, HF, Hp', Hf'.
    destruct Happ as (Hs & Hr & Ht). split.
    + intros H1 H2 H3. destruct (Hr H1 H2) as (? & _). tauto.
    + intros Hcase [[Hp|Hf] _].
      * destruct (success value) eqn:E1.
        -- destruct (Hs eq_refl) as (? & _). tauto.
        -- destruct Hcase as [?|E2]; [done|].
           destruct (Ht eq_refl E2) as (? & _). tauto.
      * destruct (success value) eqn:E1.
        -- destruct (Hs eq_refl) as (_ & ? & _). tauto.
        -- destruct Hcase as [?|E2]; [done|].
           destruct (Ht eq_refl E2) as (_ & ? & _). tauto.
  - intros Hsucc t Ht. exists (merge t (updates value)).
    split; [by apply Hfields|]. unfold merge. by cbn.
  - intros env t Ht Hvalue Hsucc.
    pose proof (Hfields Hsucc t Ht) as Ht'.
    rewrite Hvalue in Hsucc.
    destruct (fetchTrack_fetches env t (uri value) Hsucc)
      as (n & Hn & Hlast & Hmeta & Hsome & Hbpm & _).
    rewrite <- Hvalue in *.
    exists n, (merge t (updates value)). split_and!; [done|done| |].
    + intros Hnb Hid b Hb. cbn. by rewrite (Hbpm Hnb Hid b Hb).
    + intros Hnm info Hinfo.
      destruct Hmeta as [[Hnone _]|(j & fetched & Hj & Hget & Hn1 & Hn2)].
      { by destruct (Hsome Hnm info Hinfo). }
      exists j, fetched. cbn. rewrite Hn1, Hn2. split_and!; try done; lia.
Qed.

(** ** Keys of the working copy *)

Lemma getTrackData_Some_key ts u t :
  getTrackData ts u = Some t → u ∈ map fst ts.
Proof.
  induction ts as [|[k v] ts IH]; simpl; [done|].
  destruct (decide (k = u)) as [->|]; [intros _; apply list_elem_of_here|].
  intros H. apply list_elem_of_further. by apply IH.
Qed.

Lemma getTrackData_key ts u : u ∈ map fst ts → is_Some (getTrackData ts u).
Proof.
  induction ts as [|[k v] ts IH]; simpl; intros Hu.
  { by apply elem_of_nil in Hu. }
  destruct (decide (k = u)); [by eexists|].
  apply elem_of_cons in Hu as [?|Hu]; [congruence|by apply IH].
Qed.

Lemma setTrackData_keys ts k v :
  k ∈ map fst ts → map fst (setTrackData ts k v) = map fst ts.
Proof.
  induction ts as [|[k' v'] ts IH]; simpl; intros Hk.
  { by apply elem_of_nil in Hk. }
  destruct (decide (k' = k)) as [->|Hne]; simpl; [done|].
  apply elem_of_cons in Hk as [?|Hk]; [congruence|]. by rewrite IH.
Qed.

(** Every target has a track: the last case of [needsWork] does not
    arise on the keys it is asked about. *)
Lemma tracksNeedingWork_key data u :
  u ∈ tracksNeedingWork data → is_Some (getTrackData (tracks data) u).
Proof.
  unfold tracksNeedingWork. rewrite list_elem_of_filter.
  intros [_ Hu]. by apply getTrackData_key.
Qed.

Lemma cacheStep_keys ls r todo u :
  map fst (tracks (updatedData (cacheStep ls (r, todo) u).1))
  = map fst (tracks (updatedData r)).
Proof.
  unfold cacheStep.
  destruct (bool_decide _); [done|].
  destruct (getTrackData (tracks (updatedData r)) u) as [t|] eqn:E; [|done].
  apply getTrackData_Some_key in E.
  repeat case_match; simplify_eq; simpl; try done;
    by apply setTrackData_keys.
Qed.

Lemma applyResult_keys l n s :
  map fst (tracks (updatedData (run (applyResult (l, n) s).1)))
  = map fst (tracks (updatedData (run l))).
Proof.
  unfold applyResult. destruct s as [value|]; [|done].
  destruct (success value); simpl.
  - destruct (hasKeys (updates value)); [|done].
    destruct (getTrackData _ (uri value)) as [t|] eqn:E; [|done].
    simpl. by apply setTrackData_keys, (getTrackData_Some_key _ _ t).
  - by destruct (retryable value).
Qed.

(** ** Batches have distinct keys *)

Lemma retryLoop_uri env u nm nb left : ∀ k upd err,
  uri (retryLoop env u nm nb left k upd err).1 = u.
Proof.
  induction left as [|left IH]; intros k upd err; simpl; [done|].
  destruct (attempt env u nm nb upd k) as [upd' [e|]]; [|done].
  destruct (_ && _); [|done].
  specialize (IH (k + 1) upd' (Some e)).
  by destruct (retryLoop env u nm nb left (k + 1) upd' (Some e)).
Qed.

Lemma settleBatch_uris env l batch :
  resultUris (settleBatch env l batch) `sublist_of` batch.
Proof.
  unfold settleBatch, resultUris.
  induction batch as [|u batch IH]; simpl; [done|].
  unfold settleTrack at 1.
  destruct (getTrackData _ u) as [t|]; simpl.
  - unfold fetchTrack. rewrite retryLoop_uri. by apply sublist_skip.
  - by apply sublist_cons.
Qed.

Lemma settleBatch_fulfilled env l batch s :
  batch ⊆ map fst (tracks (updatedData (run l))) →
  s ∈ settleBatch env l batch → ∃ value, s = Fulfilled value.
Proof.
  intros Hsub. unfold settleBatch. rewrite list_elem_of_fmap.
  intros (u & -> & Hu). unfold settleTrack.
  destruct (getTrackData_key _ u (Hsub _ Hu)) as [t ->]. by eexists.
Qed.

Lemma cachePass_sublist ls remaining : ∀ r todo,
  ∃ more, (foldl (cacheStep ls) (r, todo) remaining).2 = todo ++ more ∧
          more `sublist_of` remaining.
Proof.
  induction remaining as [|u remaining IH]; intros r todo; cbn [foldl].
  { exists []. by rewrite app_nil_r. }
  pose proof (cacheStep_cases ls r todo u) as Hc. cbv zeta in Hc.
  destruct (cacheStep ls (r, todo) u) as [r1 todo1].
  cbn [fst snd] in Hc. destruct Hc as (Hgrow & _).
  destruct (IH r1 todo1) as (more & -> & Hmore).
  destruct Hgrow as [->| ->].
  - exists more. split; [done|]. by apply sublist_cons.
  - exists (u :: more). rewrite <- app_assoc. split; [done|].
    by apply sublist_skip.
Qed.

(** With distinct keys in the dataset, the results of every batch of the
    second pass have distinct keys. *)
Lemma batch_results_NoDup env ls data r i l :
  NoDup (map fst (tracks data)) →
  NoDup (resultUris
           (settleBatch env l
              (take BATCH_SIZE
                 (drop i (cachePass ls r
                            (remainingTracks r (tracksNeedingWork data))).2)))).
Proof.
  intros Hnd.
  eapply sublist_NoDup; [|apply settleBatch_uris].
  eapply sublist_NoDup; [|apply sublist_take].
  eapply sublist_NoDup; [|apply sublist_drop].
  destruct (cachePass_sublist ls (remainingTracks r (tracksNeedingWork data)) r [])
    as (more & Heq & Hsub).
  unfold cachePass. rewrite Heq. simpl.
  eapply sublist_NoDup; [|exact Hsub].
  unfold remainingTracks, tracksNeedingWork. by do 2 apply NoDup_filter.
Qed.

(** ** The pause *)

Lemma networkPass_thrown env still total starts : ∀ l w e w',
  networkPass env still total starts l w = (Thrown e, w') →
  e = pausedError ∧ ∃ r w0, w' = checkpoint r w0.
Proof.
  induction starts as [|i later IH]; intros l w e w'; cbn [networkPass].
  { discriminate. }
  destruct (MAX_CONSECUTIVE_FAILURES <=? _).
  { intros [= <- <-]. eauto. }
  destruct (_ && _); apply IH.
Qed.

Lemma networkPass_migrations env still total starts : ∀ l w,
  savedMigrations (storage (networkPass env still total starts l w).2)
  = savedMigrations (storage w).
Proof.
  induction starts as [|i later IH]; intros l w; cbn [networkPass]; [done|].
  destruct (MAX_CONSECUTIVE_FAILURES <=? _); [done|].
  destruct (_ && _); rewrite IH; by destruct (_ <? _)%nat.
Qed.

Lemma addTrackMetadataMigration_migrations env data w :
  savedMigrations (storage (addTrackMetadataMigration env data w).2)
  = savedMigrations (storage w).
Proof.
  unfold addTrackMetadataMigration.
  destruct (Nat.eqb _ 0); [done|].
  destruct (cachePass _ _ _) as [r1 still].
  destruct (0 <? _).
  - match goal with
    | |- context [networkPass ?e ?s ?t ?b ?l ?w] =>
        pose proof (networkPass_migrations e s t b l w) as H;
        destruct (networkPass e s t b l w) as [[l'|err] w2]
    end; simpl in *; by rewrite H.
  - match goal with
    | |- context [networkPass ?e ?s ?t ?b ?l ?w] =>
        pose proof (networkPass_migrations e s t b l w) as H;
        destruct (networkPass e s t b l w) as [[l'|err] w2]
    end; simpl in *; by rewrite H.
Qed.

Lemma cleanupEmptyTracksMigration_migrations data w :
  savedMigrations (storage (cleanupEmptyTracksMigration data w).2)
  = savedMigrations (storage w).
Proof.
  unfold cleanupEmptyTracksMigration.
  assert (H : ∀ entries acc,
    savedMigrations (storage (foldl
      (λ (acc : Tracks * World) (entry : string * TrackData),
         if isTrackEmpty entry.2
         then (acc.1, removeTrackInfo entry.1 acc.2)
         else (acc.1 ++ [entry], acc.2)) acc entries).2)
    = savedMigrations (storage acc.2)).
  { induction entries as [|entry entries IH]; intros acc; cbn [foldl]; [done|].
    rewrite IH. by destruct (isTrackEmpty entry.2). }
  specialize (H (tracks data) ([], w)).
  destruct (foldl _ _ _) as [cleaned w1]. exact H.
Qed.

Lemma unset_false flag : unset flag = false → flag = Some true.
Proof. by destruct flag as [[|]|]. Qed.


(** ** The properties at work on the sample data *)

Lemma resume_remaining_witness :
  "spotify:track:B"%string ∈
    (cachePass interrupted
       (resume scenario (getMigrationProgress interrupted) threeTracks)
       (remainingTracks
          (resume scenario (getMigrationProgress interrupted) threeTracks)
          (tracksNeedingWork threeTracks))).2.
Proof.
  destruct (resume_remaining scenario interrupted threeTracks
              {| migrationName := "addTrackMetadata";
                 processedUris := ["spotify:track:A"%string];
                 failedUris := Some ["spotify:track:B"%string];
                 totalTracks := 3;
                 startedAt := 500 |} eq_refl eq_refl)
    as (_ & _ & _ & _ & _ & Hfailed).
  apply Hfailed.
  - vm_compute. apply list_elem_of_further, list_elem_of_here.
  - vm_compute. reflexivity.
  - vm_compute. discriminate.
Defined.

Lemma afterBatch_applied_witness :
  let l := startLoop scenario threeTracks in
  let results := settleBatch scenario l (map fst (tracks threeTracks)) in
  "spotify:track:C"%string ∈ processedSet (run (afterBatch l results)) ∧
  trackOf (afterBatch l results) "spotify:track:C" = Some (sampleTrack None None) ∧
  ∃ t', trackOf (afterBatch l results) "spotify:track:B" = Some t' ∧
        name t' = Some "Song"%string ∧ artists t' = Some "Band"%string ∧
        bpm t' = Some 128.
Proof.
  intros l results.
  assert (Hnd : NoDup (resultUris results)).
  { vm_compute. repeat constructor; vm_compute; intros H;
      repeat (apply elem_of_cons in H as [H|H]; [discriminate H|]);
      by apply elem_of_nil in H. }
  destruct (afterBatch_applied l results
              (fetchTrack scenario (sampleTrack None None) "spotify:track:C").1
              [])
    as [(_ & _ & Hterminal) _].
  - exact Hnd.
  - do 2 apply list_elem_of_further. apply list_elem_of_here.
  - reflexivity.
  - constructor.
  - destruct Hterminal as (Hp & _ & Ht); [reflexivity|reflexivity|].
    destruct (afterBatch_applied l results
                (fetchTrack scenario (sampleTrack None None) "spotify:track:B").1
                [])
      as (_ & _ & Hsuccess & _).
    + exact Hnd.
    + apply list_elem_of_further, list_elem_of_here.
    + reflexivity.
    + constructor.
    + destruct (Hsuccess eq_refl (sampleTrack None None) eq_refl)
        as (t' & Ht' & Hname & Hartists & Hbpm & _).
      split; [exact Hp|]. split; [exact Ht|].
      exists t'. split; [exact Ht'|].
      split; [exact Hname|]. split; [exact Hartists|exact Hbpm].
Defined.


End MigrationSpec.

(* ===================================================================== *)
(** * Further properties of the rate limiter *)
(* ===================================================================== *)

Module RateLimiterMore.
Import RateLimiter RateLimiterSpec.

Lemma filter_length_perm {A} (P : A → Prop) `{∀ x, Decision (P x)} (l k : list A) :
  l ≡ₚ k → length (filter P l) = length (filter P k).
Proof. intros Hp. by rewrite Hp. Qed.

Lemma filter_length_le {A} (P : A → Prop) `{∀ x, Decision (P x)} (l : list A) :
  (length (filter P l) <= length l)%nat.
Proof. apply length_filter. Qed.

Lemma checkRateLimits_history cfg now st :
  requestHistory (checkRateLimits cfg now st).2
    ≡ₚ filter (within now 60000) (requestHistory st).
Proof.
  unfold checkRateLimits.
  destruct (_ <=? _); [done|].
  destruct (_ <=? _); [apply sortByTimestamp_perm|done].
Qed.

Lemma filter_within_idemp now a b (l : list RequestRecord) :
  a <= b →
  length (filter (within now a) (filter (within now b) l))
  = length (filter (within now a) l).
Proof. intros. by rewrite filter_within_narrow. Qed.

(** X1. The second- and minute-counts of [getStats] are ordered; the
    minute-count is the length of the history [checkRateLimits] retains
    at the same clock value, pruning leaves the statistics as they are,
    and the next call passes the rate limits exactly when both counts
    are below their limits. *)
Theorem getStats_consistent cfg now st :
  let s := getStats now st in
  let st' := (checkRateLimits cfg now st).2 in
  0 <= requestsLastSecond s <= requestsLastMinute s ∧
  requestsLastMinute s = Z.of_nat (length (requestHistory st')) ∧
  getStats now st' = s ∧
  (allowed (checkRateLimits cfg now st).1 = true ↔
     requestsLastSecond s < maxRequestsPerSecond cfg ∧
     requestsLastMinute s < maxRequestsPerMinute cfg).
Proof.
  intros s st'.
  pose proof (checkRateLimits_history cfg now st) as Hh. fold st' in Hh.
  assert (Hpend : pendingRequests st' = pendingRequests st ∧
                  circuitOpen st' = circuitOpen st ∧
                  consecutiveErrors st' = consecutiveErrors st).
  { subst st'. unfold checkRateLimits. by repeat case_match. }
  destruct Hpend as (Hp & Hc & He).
  split_and!.
  - subst s. simpl. lia.
  - subst s. simpl.
    rewrite <- (filter_within_narrow now 1000 60000) by lia.
    pose proof (length_filter (within now 1000)
                  (filter (within now 60000) (requestHistory st))). lia.
  - subst s. simpl. by rewrite Hh.
  - subst s. unfold getStats. rewrite Hp, Hc, He.
    rewrite !(filter_length_perm _ _ _ Hh).
    rewrite (filter_within_narrow now 1000 60000) by lia.
    by rewrite (filter_within_narrow now 60000 60000) by lia.
  - subst s. simpl. split.
    + apply checkRateLimits_allowed.
    + intros [H1 H2]. unfold checkRateLimits.
      rewrite (filter_within_narrow now 1000 60000) by lia.
      destruct (Z.leb_spec (maxRequestsPerSecond cfg)
        (Z.of_nat (length (filter (within now 1000) (requestHistory st)))));
        [lia|].
      destruct (Z.leb_spec (maxRequestsPerMinute cfg)
        (Z.of_nat (length (filter (within now 60000) (requestHistory st)))));
        [lia|done].
Qed.

(** X2. After [reset] the statistics are all zero and, with positive
    limits, the next call of [execute] starts its operation and its
    promise is the only pending entry, whatever the limiter held
    before. *)
Theorem reset_admits cfg now key fresh st :
  0 < maxRequestsPerSecond cfg →
  0 < maxRequestsPerMinute cfg →
  getStats now (reset st)
    = {| requestsLastSecond := 0; requestsLastMinute := 0;
         statsPendingRequests := 0; statsCircuitOpen := false;
         statsConsecutiveErrors := 0 |} ∧
  (execute cfg now key fresh (reset st)).1 = Invokes fresh ∧
  pendingRequests (execute cfg now key fresh (reset st)).2
    = {[ key := {| promise := fresh; pendingTimestamp := now |} ]}.
Proof.
  intros Hs Hm. split.
  { unfold getStats, reset. simpl. by rewrite map_size_empty. }
  unfold execute, reset, checkCircuitBreaker, checkRateLimits. simpl.
  rewrite lookup_empty. change (Z.of_nat 0) with 0.
  destruct (Z.leb_spec (maxRequestsPerSecond cfg) 0); [lia|].
  destruct (Z.leb_spec (maxRequestsPerMinute cfg) 0); [lia|].
  simpl. split; [done|]. by rewrite insert_empty.
Qed.

(** X3. A limiter with [maxRequestsPerSecond] or [maxRequestsPerMinute]
    at most 0 never starts an operation. *)
Theorem nonpositive_limit_blocks cfg now key fresh st :
  maxRequestsPerSecond cfg <= 0 ∨ maxRequestsPerMinute cfg <= 0 →
  ∀ p, (execute cfg now key fresh st).1 ≠ Invokes p.
Proof.
  intros Hlim p Hex.
  assert (∃ st', execute cfg now key fresh st = (Invokes p, st')) as [st' H].
  { destruct (execute cfg now key fresh st) as [r st'] eqn:E.
    exists st'. simpl in Hex. by subst. }
  apply execute_invokes_allowed, checkRateLimits_allowed in H.
  destruct H as [H1 H2]. lia.
Qed.

Lemma checkRateLimits_verdict_history cfg now st1 st2 :
  requestHistory st1 = requestHistory st2 →
  (checkRateLimits cfg now st1).1 = (checkRateLimits cfg now st2).1.
Proof. intros H. unfold checkRateLimits. rewrite H. by repeat case_match. Qed.

(** The wait of a refusal. *)
Lemma checkRateLimits_wait cfg now st :
  allowed (checkRateLimits cfg now st).1 = false →
  ∃ w, retryAfterMs (checkRateLimits cfg now st).1 = Some w ∧ 0 < w ∧
       ((∀ x, x ∈ requestHistory st → timestamp x <= now) → w <= 60000).
Proof.
  assert (Hhead : ∀ ms l o,
    head (sortByTimestamp (filter (within now ms) l)) = Some o →
    now - timestamp o < ms ∧ ∃ o', o' ∈ l ∧ timestamp o' = timestamp o).
  { intros ms l o H.
    apply head_sortByTimestamp_oldest in H as [(o' & Ho' & Heq) _].
    apply list_elem_of_filter in Ho' as [Hw Hin]. unfold within in Hw.
    split; [lia|]. by exists o'. }
  unfold checkRateLimits.
  rewrite (filter_within_narrow now 1000 60000) by lia.
  destruct (_ <=? _); simpl.
  { intros _.
    destruct (head (sortByTimestamp (filter (within now 1000) (requestHistory st))))
      as [o|] eqn:E.
    - apply Hhead in E as (Hw & o' & Hin & Heq).
      eexists. split; [done|]. split; [lia|].
      intros Hpast. specialize (Hpast _ Hin). lia.
    - eexists. split; [done|]. lia. }
  destruct (_ <=? _); simpl; [|discriminate].
  intros _.
  destruct (head (sortByTimestamp (filter (within now 60000) (requestHistory st))))
    as [o|] eqn:E.
  - apply Hhead in E as (Hw & o' & Hin & Heq).
    eexists. split; [done|]. split; [lia|].
    intros Hpast. specialize (Hpast _ Hin). lia.
  - eexists. split; [done|]. lia.
Qed.

(** X4. When [execute] decides to wait, the wait is the one
    [checkRateLimits] computed (the default of [|| 100] never replaces
    it), it is positive, and it is at most 60000 ms when no sample lies
    in the future. *)
Theorem retry_wait_bounds cfg now key fresh st ms :
  (execute cfg now key fresh st).1 = DelaysThenRetries ms →
  retryAfterMs (checkRateLimits cfg now st).1 = Some ms ∧
  0 < ms ∧
  ((∀ x, x ∈ requestHistory st → timestamp x <= now) → ms <= 60000).
Proof.
  unfold execute.
  pose proof (checkCircuitBreaker_history cfg now st) as Hh.
  destruct (checkCircuitBreaker cfg now st) as [closed st1]. simpl in Hh.
  rewrite <- (checkRateLimits_verdict_history cfg now st1 st Hh).
  pose proof (checkRateLimits_wait cfg now st1) as Hw. rewrite Hh in Hw.
  destruct (checkRateLimits cfg now st1) as [r st2]. simpl in *.
  destruct closed; simpl; [|discriminate].
  assert (Hcase : (if negb (allowed r)
                   then (DelaysThenRetries (retryAfterOrDefault (retryAfterMs r)), st2)
                   else (Invokes fresh,
                         setPending
                           (<[key:={| promise := fresh; pendingTimestamp := now |}]>
                              (pendingRequests st2)) st2)).1
                  = DelaysThenRetries ms →
                  retryAfterMs r = Some ms ∧ 0 < ms ∧
                  ((∀ x, x ∈ requestHistory st → timestamp x <= now) → ms <= 60000)).
  { destruct (allowed r); simpl; [discriminate|].
    destruct (Hw eq_refl) as (w & -> & Hpos & Hup). simpl.
    destruct (Z.eqb_spec w 0); [lia|]. by intros [= <-]. }
  destruct (pendingRequests st1 !! key) as [pending|]; [|done].
  destruct (_ <? _); [discriminate|done].
Qed.

Lemma filter_length_mono {A} (P Q : A → Prop) `{∀ x, Decision (P x)}
  `{∀ x, Decision (Q x)} (l : list A) :
  (∀ x, x ∈ l → P x → Q x) →
  (length (filter P l) <= length (filter Q l))%nat.
Proof.
  induction l as [|a l IH]; intros Himp; [done|].
  assert (IH' := IH (λ x Hx, Himp x (list_elem_of_further _ _ _ Hx))).
  rewrite !filter_cons. destruct (decide (P a)) as [Hp|].
  - rewrite decide_True by (apply Himp; [apply list_elem_of_here|done]).
    simpl. lia.
  - destruct (decide (Q a)); simpl; lia.
Qed.

Lemma filter_length_lt {A} (P Q : A → Prop) `{∀ x, Decision (P x)}
  `{∀ x, Decision (Q x)} (l : list A) :
  (∀ x, x ∈ l → P x → Q x) →
  (∃ x, x ∈ l ∧ Q x ∧ ¬ P x) →
  (length (filter P l) < length (filter Q l))%nat.
Proof.
  induction l as [|a l IH]; intros Himp (x & Hx & HQ & HP).
  { by apply elem_of_nil in Hx. }
  assert (Himp' : ∀ x, x ∈ l → P x → Q x)
    by (intros y Hy; apply Himp; by apply list_elem_of_further).
  pose proof (filter_length_mono P Q l Himp') as Hle.
  rewrite !filter_cons.
  apply elem_of_cons in Hx as [->|Hx].
  - rewrite decide_False, decide_True by done. simpl. lia.
  - assert (Hlt : (length (filter P l) < length (filter Q l))%nat).
    { apply IH; [done|by exists x]. }
    destruct (decide (P a)) as [Ha|Ha].
    + rewrite decide_True by (apply Himp; [apply list_elem_of_here|done]).
      simpl. lia.
    + destruct (decide (Q a)); simpl; lia.
Qed.

(** X5. With both limits positive: after the wait returned with a
    refusal, and without new samples, the violated window holds fewer
    samples than at the refusal: the last second after a per-second
    refusal, the last minute after a per-minute refusal. *)
Theorem waiting_makes_room cfg now st w :
  let lastSecond := filter (within now 1000) (requestHistory st) in
  let lastMinute := filter (within now 60000) (requestHistory st) in
  let st' := (checkRateLimits cfg now st).2 in
  0 < maxRequestsPerSecond cfg →
  0 < maxRequestsPerMinute cfg →
  retryAfterMs (checkRateLimits cfg now st).1 = Some w →
  (maxRequestsPerSecond cfg <= Z.of_nat (length lastSecond) →
   (length (filter (within (now + w) 1000) (requestHistory st'))
    < length lastSecond)%nat) ∧
  (Z.of_nat (length lastSecond) < maxRequestsPerSecond cfg →
   (length (filter (within (now + w) 60000) (requestHistory st'))
    < length lastMinute)%nat).
Proof.
  intros lastSecond lastMinute st' Hsecond Hminute Hw.
  assert (Hroom : ∀ ms l o,
    head (sortByTimestamp (filter (within now ms) l)) = Some o →
    (length (filter (within (now + (ms - (now - timestamp o))) ms) l)
     < length (filter (within now ms) l))%nat).
  { intros ms l o H.
    apply head_sortByTimestamp_oldest in H as [(o' & Ho' & Heq) Hmin].
    apply list_elem_of_filter in Ho' as [Hwo Hin]. unfold within in Hwo.
    apply filter_length_lt.
    - intros x Hx Hp. unfold within in *. lia.
    - exists o'. unfold within. split_and!; [done|lia|lia]. }
  assert (Hsub : ∀ (P : RequestRecord → Prop) `{∀ x, Decision (P x)} l,
    (length (filter P (filter (within now 60000) l)) <= length (filter P l))%nat).
  { intros P ? l. induction l as [|a l IH]; [done|].
    rewrite (filter_cons (within now 60000)).
    destruct (decide (within now 60000 a)); rewrite !filter_cons;
      destruct (decide (P a)); simpl; lia. }
  revert Hw. subst st'. unfold checkRateLimits.
  rewrite (filter_within_narrow now 1000 60000) by lia.
  fold lastSecond lastMinute.
  destruct (Z.leb_spec (maxRequestsPerSecond cfg) (Z.of_nat (length lastSecond)));
    simpl.
  { intros [= <-]. split; [|lia]. intros _.
    assert (Hne : lastSecond ≠ []).
    { intros Hnil. rewrite Hnil in *. simpl in *. lia. }
    destruct (head (sortByTimestamp lastSecond)) as [o|] eqn:E.
    - eapply Nat.le_lt_trans; [apply Hsub|]. by apply Hroom.
    - by apply head_sortByTimestamp_None in E. }
  destruct (Z.leb_spec (maxRequestsPerMinute cfg) (Z.of_nat (length lastMinute)));
    simpl; [|discriminate].
  intros [= <-]. split; [lia|]. intros _.
  assert (Hne : lastMinute ≠ []).
  { intros Hnil. rewrite Hnil in *. simpl in *. lia. }
  destruct (head (sortByTimestamp lastMinute)) as [o|] eqn:E.
  - rewrite (filter_length_perm _ _ _ (sortByTimestamp_perm lastMinute)).
    subst lastMinute. rewrite <- (filter_within_narrow now 60000 60000) at 2 by lia.
    eapply Nat.le_lt_trans; [apply Hsub|].
    rewrite (filter_within_narrow now 60000 60000) by lia. by apply Hroom.
  - by apply head_sortByTimestamp_None in E.
Qed.

(** X6. After a run of failures on a closed circuit the count of
    consecutive errors has grown by their number, the circuit is open
    exactly when the count has reached [circuitBreakerThreshold], and
    then the opening time is the clock value of the last failure: every
    further failure moves it. *)
Theorem failures_open_circuit cfg st calls :
  circuitOpen st = false →
  calls ≠ [] →
  let st' := failures cfg st calls in
  consecutiveErrors st' = consecutiveErrors st + Z.of_nat (length calls) ∧
  (circuitOpen st' = true ↔
     circuitBreakerThreshold cfg <= consecutiveErrors st + Z.of_nat (length calls)) ∧
  (circuitOpen st' = true → ∃ key, last calls = Some (circuitOpenedAt st', key)).
Proof.
  intros Hclosed Hne st'. subst st'.
  induction calls as [|c calls IH] using rev_ind; [done|]. clear Hne.
  unfold failures in *. rewrite foldl_app. simpl.
  rewrite length_app, last_snoc. simpl.
  set (s := foldl (λ s c, onRejected cfg c.1 c.2 s) st calls) in *.
  assert (Hs : consecutiveErrors s = consecutiveErrors st + Z.of_nat (length calls) ∧
               (circuitOpen s = true →
                circuitBreakerThreshold cfg
                  <= consecutiveErrors st + Z.of_nat (length calls))).
  { destruct calls as [|c0 calls0].
    - subst s. simpl. split; [lia|congruence].
    - destruct IH as (H1 & H2 & _); [done|]. split; [done|]. apply H2. }
  destruct Hs as [Hcount Hopen].
  unfold onRejected, recordError. simpl.
  destruct (Z.leb_spec (circuitBreakerThreshold cfg) (consecutiveErrors s + 1));
    simpl.
  - split_and!; [lia| |].
    + split; [lia|done].
    + intros _. exists c.2. by destruct c.
  - split_and!; [lia| |].
    + split; [|lia]. intros H'. specialize (Hopen H'). lia.
    + intros H'. specialize (Hopen H'). lia.
Qed.

Lemma execute_history_length cfg now key fresh st :
  (length (requestHistory (execute cfg now key fresh st).2)
   <= length (requestHistory st))%nat.
Proof.
  unfold execute.
  pose proof (checkCircuitBreaker_history cfg now st) as Hh.
  destruct (checkCircuitBreaker cfg now st) as [closed st1]. simpl in Hh.
  pose proof (checkRateLimits_history cfg now st1) as Hr.
  destruct (checkRateLimits cfg now st1) as [r st2]. simpl in Hr.
  assert (Hlen : (length (requestHistory st2) <= length (requestHistory st))%nat).
  { rewrite Hr, Hh. apply length_filter. }
  destruct closed; simpl; [|by rewrite Hh].
  destruct (pendingRequests st1 !! key) as [pending|].
  - destruct (_ <? _); simpl; [by rewrite Hh|]. by destruct (allowed r).
  - by destruct (allowed r).
Qed.

(** X7. The history never holds more samples than operations have
    settled in the run: calls of [execute] add none. *)
Theorem history_bounded_by_settlements cfg events :
  (length (requestHistory (limiter (run cfg events))) <= settlements events)%nat.
Proof.
  unfold run.
  assert (H : ∀ sys,
    (length (requestHistory (limiter (foldl (step cfg) sys events)))
     <= length (requestHistory (limiter sys)) + settlements events)%nat).
  { induction events as [|ev events IH]; intros sys; simpl; [lia|].
    etrans; [apply IH|]. unfold settlements. rewrite filter_cons.
    destruct ev as [now key fn|now p o]; simpl.
    - pose proof (execute_history_length cfg now key (nextPromise sys) (limiter sys)).
      destruct (execute cfg now key (nextPromise sys) (limiter sys)) as [r st'].
      simpl in *. destruct r; simpl; lia.
    - destruct (inFlight sys !! p) as [s|]; simpl; [|lia].
      destruct o; unfold onFulfilled, onRejected, recordSuccess, recordError;
        simpl; [|case_match; simpl]; rewrite length_app; simpl; lia. }
  specialize (H boot). simpl in H. lia.
Qed.

Lemma step_pendingInFlight cfg sys ev :
  pendingInFlight sys → pendingInFlight (step cfg sys ev).
Proof.
  intros Hinv. destruct ev as [now key fn|now p o]; unfold step.
  - pose proof (execute_pending cfg now key (nextPromise sys) (limiter sys)) as H.
    destruct (execute cfg now key (nextPromise sys) (limiter sys)) as [r st].
    simpl in H. destruct r as [e|q|ms|q];
      try (intros k e' Hk; simpl in *; rewrite H in Hk; by apply Hinv).
    destruct H as (-> & Hpend & _).
    intros k e' Hk. simpl in *. rewrite Hpend in Hk.
    destruct (decide (key = k)) as [->|Hne].
    + rewrite lookup_insert_eq in Hk. injection Hk as <-. simpl.
      split; [lia|]. rewrite lookup_insert_eq. by eexists.
    + rewrite lookup_insert_ne in Hk by done.
      destruct (Hinv k e' Hk) as (Hlt & s & Hs & Hkey & Hat).
      split; [lia|]. exists s. rewrite lookup_insert_ne by lia. done.
  - destruct (inFlight sys !! p) as [s|] eqn:Hp; [|done].
    intros k e' Hk. simpl in *.
    assert (Hk' : k ≠ startedKey s ∧ pendingRequests (limiter sys) !! k = Some e').
    { destruct o; unfold onFulfilled, onRejected, setPending, recordSuccess,
        recordError in Hk; simpl in Hk; [|revert Hk; case_match; simpl; intros Hk];
        (destruct (decide (startedKey s = k)) as [<-|Hne];
         [by rewrite lookup_delete_eq in Hk
         |rewrite lookup_delete_ne in Hk by done; by split]). }
    destruct Hk' as [Hne Hk'].
    destruct (Hinv k e' Hk') as (Hlt & s' & Hs' & Hkey & Hat).
    split; [done|]. exists s'. split; [|done].
    rewrite lookup_delete_ne; [done|]. intros ->. congruence.
Qed.

Theorem pending_is_in_flight cfg events key e :
  pendingRequests (limiter (run cfg events)) !! key = Some e →
  ∃ s, inFlight (run cfg events) !! promise e = Some s ∧
       startedKey s = key ∧ startedAt s = pendingTimestamp e.
Proof.
  assert (H : ∀ sys, pendingInFlight sys →
                     pendingInFlight (foldl (step cfg) sys events)).
  { induction events as [|ev events IH]; intros sys Hinv; simpl; [done|].
    by apply IH, step_pendingInFlight. }
  intros Hk. eapply (H boot); [|exact Hk].
  intros k e' Hk'. simpl in Hk'. by rewrite lookup_empty in Hk'.
Qed.

Lemma execute_returns_pending cfg now key fresh st p :
  (execute cfg now key fresh st).1 = ReturnsPending p →
  ∃ e, pendingRequests st !! key = Some e ∧ promise e = p ∧
       now - pendingTimestamp e < requestTimeoutMs cfg.
Proof.
  unfold execute.
  pose proof (checkCircuitBreaker_pending cfg now st) as Hp.
  destruct (checkCircuitBreaker cfg now st) as [closed st1]. simpl in Hp.
  destruct (checkRateLimits cfg now st1) as [r st2].
  destruct closed; simpl; [|discriminate]. rewrite Hp.
  destruct (pendingRequests st !! key) as [e|].
  - destruct (Z.ltb_spec (now - pendingTimestamp e) (requestTimeoutMs cfg)).
    + simpl. intros [= <-]. by exists e.
    + by destruct (allowed r).
  - by destruct (allowed r).
Qed.

(** X8. A caller that [execute] attaches to a pending promise gets a
    promise whose operation is in flight, was started for the same key,
    and less than [requestTimeoutMs] ago. *)
Theorem attached_promise_is_in_flight cfg events now key fresh p :
  (execute cfg now key fresh (limiter (run cfg events))).1 = ReturnsPending p →
  ∃ s, inFlight (run cfg events) !! p = Some s ∧
       startedKey s = key ∧ now - startedAt s < requestTimeoutMs cfg.
Proof.
  intros H. apply execute_returns_pending in H as (e & He & <- & Hyoung).
  apply pending_is_in_flight in He as (s & Hs & Hkey & Hat).
  exists s. split_and!; [done|done|lia].
Qed.

Lemma timely_deduplicates_witness :
  invocations (step smallConfig (run smallConfig [Execute 0 "k" 1%nat])
                 (Execute 5 "k" 2%nat))
  = invocations (run smallConfig [Execute 0 "k" 1%nat]).
Proof.
  refine (proj1 (timely_deduplicates smallConfig [Execute 0 "k" 1%nat] 5 "k"
                   2%nat 0%nat
                   {| startedKey := "k"; startedFn := 1; startedAt := 0 |}
                   _ _ _ _ _)).
  - split; [|exact I]. intros (pending & Hp & _). vm_compute in Hp. discriminate.
  - reflexivity.
  - reflexivity.
  - simpl. lia.
  - reflexivity.
Defined.

Lemma reset_admits_witness :
  (execute smallConfig 7 "k" 0%nat (reset tripped)).1 = Invokes 0%nat.
Proof.
  refine (proj1 (proj2 (reset_admits smallConfig 7 "k" 0%nat tripped _ _)));
    simpl; lia.
Defined.

Lemma nonpositive_limit_blocks_witness :
  (execute closedConfig 7 "k" 0%nat initial).1 ≠ Invokes 0%nat.
Proof.
  apply (nonpositive_limit_blocks closedConfig 7 "k" 0%nat initial).
  left. simpl. lia.
Defined.

Lemma retry_wait_bounds_witness : 0 < 500.
Proof.
  refine (proj1 (proj2 (retry_wait_bounds smallConfig 5000 "k" 0%nat busySecond
                          500 _))).
  vm_compute. reflexivity.
Defined.

Lemma waiting_makes_room_witness :
  (length (filter (within (5000 + 500) 1000)
             (requestHistory (checkRateLimits smallConfig 5000 busySecond).2))
   < length (filter (within 5000 1000) (requestHistory busySecond)))%nat.
Proof.
  refine (proj1 (waiting_makes_room smallConfig 5000 busySecond 500 _ _ _) _).
  - simpl. lia.
  - simpl. lia.
  - vm_compute. reflexivity.
  - vm_compute. discriminate.
Defined.

Lemma failures_open_circuit_witness :
  circuitOpen (failures smallConfig initial
                 [(1, "a"); (2, "b"); (3, "c")]%string) = true.
Proof.
  destruct (failures_open_circuit smallConfig initial
              [(1, "a"); (2, "b"); (3, "c")]%string) as (_ & [_ Hopen] & _).
  - reflexivity.
  - discriminate.
  - apply Hopen. simpl. lia.
Defined.

Lemma attached_promise_is_in_flight_witness :
  ∃ s, inFlight (run smallConfig [Execute 0 "k" 1%nat]) !! 0%nat = Some s ∧
       startedKey s = "k"%string ∧ 5 - startedAt s < requestTimeoutMs smallConfig.
Proof.
  apply (attached_promise_is_in_flight smallConfig [Execute 0 "k" 1%nat] 5 "k"
           1%nat 0%nat).
  vm_compute. reflexivity.
Defined.

(** ** What the limits do bound *)

Lemma filter_after_within now a (l : list RequestRecord) :
  now - 60000 <= a →
  length (filter (λ r, a < timestamp r) (filter (within now 60000) l))
  = length (filter (λ r, a < timestamp r) l).
Proof.
  intros Ha. induction l as [|r l IH]; [done|].
  rewrite (filter_cons (within now 60000)). unfold within at 1.
  destruct (decide (now - timestamp r < 60000)).
  - rewrite !filter_cons. destruct (decide (a < timestamp r)); simpl; lia.
  - rewrite filter_cons. rewrite decide_False by lia. done.
Qed.

Lemma filter_none {A} (P : A → Prop) `{∀ x, Decision (P x)} (l : list A) :
  (∀ x, x ∈ l → ¬ P x) → filter P l = [].
Proof.
  induction l as [|x l IH]; intros Hl; [done|].
  rewrite filter_cons, decide_False by (apply Hl; left).
  apply IH. intros y Hy. apply Hl. by right.
Qed.

Lemma execute_completedAfter cfg now key fresh st a :
  now - 60000 <= a →
  completedAfter a (execute cfg now key fresh st).2 = completedAfter a st.
Proof.
  intros Ha. unfold completedAfter, execute.
  pose proof (checkCircuitBreaker_history cfg now st) as Hh.
  destruct (checkCircuitBreaker cfg now st) as [closed st1]. simpl in Hh.
  pose proof (checkRateLimits_history cfg now st1) as Hr.
  destruct (checkRateLimits cfg now st1) as [r st2]. simpl in Hr.
  assert (Hcount :
    length (filter (λ r, a < timestamp r) (requestHistory st2))
    = length (filter (λ r, a < timestamp r) (requestHistory st))).
  { rewrite Hr, Hh. by apply filter_after_within. }
  destruct closed; simpl; [|by rewrite Hh].
  destruct (pendingRequests st1 !! key) as [pending|].
  - destruct (_ <? _); simpl; [by rewrite Hh|]. by destruct (allowed r).
  - by destruct (allowed r).
Qed.

Lemma execute_invokes_fresh cfg now key fresh st p :
  (execute cfg now key fresh st).1 = Invokes p → p = fresh.
Proof.
  unfold execute.
  destruct (checkCircuitBreaker cfg now st) as [closed st1].
  destruct (checkRateLimits cfg now st1) as [r st2].
  destruct closed; simpl; [|discriminate].
  destruct (pendingRequests st1 !! key) as [pending|];
    [destruct (_ <? _); simpl; [discriminate|]|];
    destruct (allowed r); simpl; intros H; by simplify_eq.
Qed.

Lemma settle_history cfg now key st (o : Outcome) :
  ∃ ok,
    requestHistory (match o with
                    | Resolved _ => onFulfilled now key st
                    | Rejected _ => onRejected cfg now key st
                    end)
    = requestHistory st ++ [{| timestamp := now; success := ok |}].
Proof.
  destruct o; unfold onFulfilled, onRejected, recordSuccess, recordError;
    simpl; [by eexists|]. case_match; by eexists.
Qed.

Lemma boot_accounted start : accounted start boot.
Proof.
  split_and!; simpl.
  - intros i Hi. by apply elem_of_nil in Hi.
  - intros p s Hp. by rewrite lookup_empty in Hp.
  - intros a _. unfold startedAfter. simpl. lia.
Qed.

Lemma step_accounted cfg last sys ev :
  accounted last sys → last <= clockOf ev →
  accounted (clockOf ev) (step cfg sys ev).
Proof.
  intros (Htimes & Hfresh & Hcount) Hlast.
  destruct ev as [now key fn|now p o]; simpl in Hlast; cbn [clockOf step].
  - pose proof (execute_completedAfter cfg now key (nextPromise sys)
                  (limiter sys)) as Hsame.
    pose proof (execute_invokes_fresh cfg now key (nextPromise sys)
                  (limiter sys)) as Hp.
    destruct (execute cfg now key (nextPromise sys) (limiter sys)) as [r st'].
    cbn [fst snd] in *.
    assert (Hother : accounted now
      {| limiter := st'; nextPromise := nextPromise sys;
         inFlight := inFlight sys; settled := settled sys;
         invocations := invocations sys;
         calls := calls sys ++ [(fn, r)] |}).
    { split_and!; simpl.
      - intros i Hi. specialize (Htimes i Hi). lia.
      - done.
      - intros a Ha. unfold startedAfter. simpl. rewrite (Hsame a Ha).
        apply Hcount. lia. }
    destruct r as [e|q|ms|q]; try exact Hother.
    specialize (Hp q eq_refl). subst q.
    split_and!; simpl.
    + intros i Hi. apply elem_of_app in Hi as [Hi|Hi].
      * specialize (Htimes i Hi). lia.
      * apply list_elem_of_singleton in Hi as ->. simpl. lia.
    + intros p s Hp. destruct (decide (p = nextPromise sys)) as [->|Hne]; [lia|].
      rewrite lookup_insert_ne in Hp by done.
      specialize (Hfresh p s Hp). lia.
    + intros a Ha. unfold startedAfter. simpl. rewrite (Hsame a Ha).
      rewrite filter_app, length_app.
      assert (Hnew : (length (filter (λ i : Z * string * nat, (a < i.1.1)%Z)
                                [(now, key, fn)]) <= 1)%nat).
      { rewrite filter_cons. destruct (decide _); simpl; lia. }
      assert (Hnone : inFlight sys !! nextPromise sys = None).
      { destruct (inFlight sys !! nextPromise sys) as [s|] eqn:E; [|done].
        specialize (Hfresh _ _ E). lia. }
      rewrite map_size_insert_None by done.
      assert (Hold : last - 60000 <= a) by lia.
      specialize (Hcount a Hold). unfold startedAfter in Hcount. lia.
  - destruct (inFlight sys !! p) as [s|] eqn:Hp.
    + destruct (settle_history cfg now (startedKey s) (limiter sys) o)
        as (ok & Hhist).
      split_and!; simpl.
      * intros i Hi. specialize (Htimes i Hi). lia.
      * intros q s' Hq. apply lookup_delete_Some in Hq as [_ Hq].
        by eapply Hfresh.
      * intros a Ha. unfold startedAfter, completedAfter. simpl.
        rewrite Hhist, filter_app, length_app.
        assert (Hsize : size (inFlight sys) = S (size (delete p (inFlight sys)))).
        { rewrite map_size_delete, Hp.
          assert (size (inFlight sys) ≠ 0%nat); [|simpl; lia].
          intros Hz. apply map_size_empty_inv in Hz. rewrite Hz in Hp.
          by rewrite lookup_empty in Hp. }
        assert (Hold : last - 60000 <= a) by lia.
        specialize (Hcount a Hold).
        unfold startedAfter, completedAfter in Hcount.
        destruct (decide (a < now)) as [Hlt|Hge].
        -- rewrite (filter_cons _ {| timestamp := now; success := ok |}).
           rewrite decide_True by done. simpl. lia.
        -- assert (Hzero : filter (λ i : Z * string * nat, a < i.1.1)
                             (invocations sys) = []).
           { apply filter_none. intros i Hi. specialize (Htimes i Hi). lia. }
           rewrite Hzero. simpl. lia.
    + split_and!; simpl.
      * intros i Hi. specialize (Htimes i Hi). lia.
      * done.
      * intros a Ha. apply Hcount. lia.
Qed.

Lemma accounted_later last last' sys :
  accounted last sys → last <= last' → accounted last' sys.
Proof.
  intros (Htimes & Hfresh & Hcount) Hle. split_and!; [|done|].
  - intros i Hi. specialize (Htimes i Hi). lia.
  - intros a Ha. apply Hcount. lia.
Qed.

Lemma run_accounted cfg events : ∀ start sys bound,
  accounted start sys → chronological start events →
  start <= bound → (∀ ev, ev ∈ events → clockOf ev <= bound) →
  accounted bound (foldl (step cfg) sys events).
Proof.
  induction events as [|ev events IH]; intros start sys bound Hacc Hchron Hb Hall.
  { by eapply accounted_later. }
  destruct Hchron as [Hstart Hrest]. cbn [foldl].
  apply (IH (clockOf ev)); [by eapply step_accounted|done| |].
  - apply Hall. left.
  - intros ev' Hev'. apply Hall. by right.
Qed.

Lemma filter_ext_in {A} (P Q : A → Prop) `{∀ x, Decision (P x)}
  `{∀ x, Decision (Q x)} (l : list A) :
  (∀ x, x ∈ l → P x ↔ Q x) → filter P l = filter Q l.
Proof.
  induction l as [|x l IH]; intros Hl; [done|].
  rewrite !filter_cons.
  assert (Hx : P x ↔ Q x) by (apply Hl; left).
  rewrite IH by (intros y Hy; apply Hl; by right).
  destruct (decide (P x)), (decide (Q x)); tauto || done.
Qed.

Lemma chronological_app start events ev :
  chronological start (events ++ [ev]) →
  chronological start events ∧ start <= clockOf ev ∧
  ∀ ev', ev' ∈ events → clockOf ev' <= clockOf ev.
Proof.
  revert start. induction events as [|e events IH]; intros start; simpl.
  { intros [H _]. split_and!; [done|done|]. intros ev' Hev'.
    by apply elem_of_nil in Hev'. }
  intros [Hstart Hrest]. destruct (IH _ Hrest) as (Hc & Hle & Hall).
  split; [by split|]. split; [lia|].
  intros ev' Hev'. apply elem_of_cons in Hev' as [->|Hev']; [done|].
  by apply Hall.
Qed.

(** X23. In a run whose clock values do not decrease, when a call of
    [execute] starts its operation, the operations started within the
    trailing second, this one included, number at most
    [maxRequestsPerSecond] plus the operations in flight before the
    call, and those started within the trailing minute at most
    [maxRequestsPerMinute] plus the operations in flight; with nothing
    in flight the limits themselves hold. *)
Theorem admissions_bounded_with_in_flight cfg start events now key requestFn p :
  chronological start (events ++ [Execute now key requestFn]) →
  let sys := run cfg events in
  (execute cfg now key (nextPromise sys) (limiter sys)).1 = Invokes p →
  let sys' := step cfg sys (Execute now key requestFn) in
  admittedWithin now 1000 sys'
    <= maxRequestsPerSecond cfg + Z.of_nat (size (inFlight sys)) ∧
  admittedWithin now 60000 sys'
    <= maxRequestsPerMinute cfg + Z.of_nat (size (inFlight sys)) ∧
  (inFlight sys = ∅ →
   admittedWithin now 1000 sys' <= maxRequestsPerSecond cfg ∧
   admittedWithin now 60000 sys' <= maxRequestsPerMinute cfg).
Proof.
  intros Hchron sys Hinvokes sys'.
  destruct (chronological_app start events _ Hchron) as (Hc & Hstart & Hbefore).
  simpl in Hstart, Hbefore.
  destruct (run_accounted cfg events start boot now (boot_accounted start) Hc
              Hstart Hbefore) as (Htimes & _ & Hcount).
  fold (run cfg events) in Htimes, Hcount. fold sys in Htimes, Hcount.
  assert (Hallowed :
    Z.of_nat (length (filter (within now 1000) (requestHistory (limiter sys))))
      < maxRequestsPerSecond cfg ∧
    Z.of_nat (length (filter (within now 60000) (requestHistory (limiter sys))))
      < maxRequestsPerMinute cfg).
  { destruct (execute cfg now key (nextPromise sys) (limiter sys))
      as [r st'] eqn:E. simpl in Hinvokes. subst r.
    apply execute_invokes_allowed in E. apply checkRateLimits_allowed in E.
    by rewrite checkCircuitBreaker_history in E. }
  assert (Hwindow : ∀ ms,
    0 < ms <= 60000 →
    admittedWithin now ms sys'
    <= Z.of_nat (length (filter (within now ms) (requestHistory (limiter sys))))
       + 1 + Z.of_nat (size (inFlight sys))).
  { intros ms Hms.
    assert (Hacc : (startedAfter (now - ms) sys
      <= completedAfter (now - ms) (limiter sys) + size (inFlight sys))%nat)
      by (apply Hcount; lia).
    unfold admittedWithin, sys', step.
    destruct (execute cfg now key (nextPromise sys) (limiter sys))
      as [r st'] eqn:E. simpl in Hinvokes. subst r. simpl.
    rewrite filter_app, length_app.
    assert (Hnew : (length (filter
      (λ i : Z * string * nat, (i.1.1 <= now ∧ now - i.1.1 < ms)%Z)
      [(now, key, requestFn)]) <= 1)%nat).
    { rewrite filter_cons. destruct (decide _); simpl; lia. }
    assert (Hsame : length (filter
      (λ i : Z * string * nat, i.1.1 <= now ∧ now - i.1.1 < ms)
      (invocations sys)) = startedAfter (now - ms) sys).
    { unfold startedAfter. f_equal. apply filter_ext_in.
      intros i Hi. specialize (Htimes i Hi). lia. }
    assert (Hhist : length (filter (within now ms) (requestHistory (limiter sys)))
                    = completedAfter (now - ms) (limiter sys)).
    { unfold completedAfter. f_equal. apply list_filter_iff.
      intros r. unfold within. lia. }
    lia. }
  pose proof (Hwindow 1000) as H1. pose proof (Hwindow 60000) as H2.
  destruct Hallowed as [Hs Hm].
  split_and!; [lia|lia|].
  intros Hnone. rewrite Hnone, map_size_empty in H1, H2. lia.
Qed.

Lemma admissions_bounded_with_in_flight_witness :
  admittedWithin 1 1000
    (step smallConfig (run smallConfig [Execute 0 "a" 1%nat])
       (Execute 1 "b" 2%nat))
  <= maxRequestsPerSecond smallConfig
     + Z.of_nat (size (inFlight (run smallConfig [Execute 0 "a" 1%nat]))).
Proof.
  refine (proj1 (admissions_bounded_with_in_flight smallConfig 0
                   [Execute 0 "a" 1%nat] 1 "b" 2%nat 1%nat _ _)).
  - simpl. lia.
  - vm_compute. reflexivity.
Defined.

End RateLimiterMore.

(* ===================================================================== *)
(** * Further properties of the migrations *)
(* ===================================================================== *)

Module MigrationMore.
Import Migration MigrationSpec.

(** ** Cleanup *)

Lemma cleanup_unfold data w :
  cleanupEmptyTracksMigration data w
  = (withTracks data (foldl cleanupStep ([], w) (tracks data)).1,
     (foldl cleanupStep ([], w) (tracks data)).2).
Proof.
  unfold cleanupEmptyTracksMigration.
  change (foldl _ ([], w) (tracks data))
    with (foldl cleanupStep ([], w) (tracks data)).
  by destruct (foldl cleanupStep ([], w) (tracks data)).
Qed.

Lemma cleanup_fold entries : ∀ (kept : Tracks) (w : World),
  (foldl cleanupStep (kept, w) entries).1
    = kept ++ filter (λ e, isTrackEmpty e.2 = false) entries ∧
  effects (foldl cleanupStep (kept, w) entries).2
    = effects w ++
      map RemoveTrackInfo
        (map fst (filter (λ e, isTrackEmpty e.2 = true) entries)) ∧
  savedProgress (storage (foldl cleanupStep (kept, w) entries).2)
    = savedProgress (storage w) ∧
  (filter (λ e, isTrackEmpty e.2 = true) entries = [] →
   (foldl cleanupStep (kept, w) entries).2 = w).
Proof.
  induction entries as [|e entries IH]; intros kept w; cbn [foldl].
  { simpl. rewrite !app_nil_r. done. }
  rewrite !filter_cons. unfold cleanupStep at 2 4 6 8. cbn [fst snd].
  destruct (isTrackEmpty e.2) eqn:E.
  - rewrite decide_False, decide_True by done.
    destruct (IH kept (removeTrackInfo e.1 w)) as (H1 & H2 & H3 & _).
    split_and!; [exact H1| |exact H3|discriminate].
    etrans; [exact H2|]. simpl. by rewrite <- app_assoc.
  - rewrite decide_True, decide_False by done.
    destruct (IH (kept ++ [e]) w) as (H1 & H2 & H3 & H4).
    split_and!; [|exact H2|exact H3|exact H4].
    etrans; [exact H1|]. by rewrite <- app_assoc.
Qed.

Lemma filter_empty_of_nonempty (l : list (string * TrackData)) :
  filter (λ e, isTrackEmpty e.2 = true)
    (filter (λ e, isTrackEmpty e.2 = false) l) = [].
Proof.
  induction l as [|e l IH]; [done|].
  rewrite (filter_cons (λ e, isTrackEmpty e.2 = false)).
  destruct (decide (isTrackEmpty e.2 = false)) as [He|]; [|done].
  rewrite filter_cons, decide_False by congruence. done.
Qed.

Lemma filter_nonempty_idemp (l : list (string * TrackData)) :
  filter (λ e, isTrackEmpty e.2 = false)
    (filter (λ e, isTrackEmpty e.2 = false) l)
  = filter (λ e, isTrackEmpty e.2 = false) l.
Proof.
  induction l as [|e l IH]; [done|].
  rewrite filter_cons.
  destruct (decide (isTrackEmpty e.2 = false)) as [He|]; [|done].
  rewrite filter_cons, decide_True by done. by rewrite IH.
Qed.

(** X10. The cleanup keeps exactly the tracks that are not empty, in
    their order, and the categories.  It asks the track-info cache to
    drop each empty track, in order, and does nothing else; the migration
    record and the progress record in storage stay as they were.  Run
    again on its own result it changes nothing. *)
Theorem cleanup_removes_empty_tracks data w :
  let data' := (cleanupEmptyTracksMigration data w).1 in
  let w' := (cleanupEmptyTracksMigration data w).2 in
  tracks data' = filter (λ e, isTrackEmpty e.2 = false) (tracks data) ∧
  categories data' = categories data ∧
  effects w'
    = effects w ++
      map RemoveTrackInfo
        (map fst (filter (λ e, isTrackEmpty e.2 = true) (tracks data))) ∧
  savedMigrations (storage w') = savedMigrations (storage w) ∧
  savedProgress (storage w') = savedProgress (storage w) ∧
  cleanupEmptyTracksMigration data' w' = (data', w').
Proof.
  intros data' w'.
  pose proof (cleanupEmptyTracksMigration_migrations data w) as Hm.
  fold w' in Hm. subst data' w'. rewrite !cleanup_unfold in *. cbn [fst snd] in *.
  destruct (cleanup_fold (tracks data) [] w) as (H1 & H2 & H3 & _).
  rewrite app_nil_l in H1. unfold Tracks in *.
  split_and!; try done.
  cbn [tracks withTracks]. rewrite H1.
  destruct (cleanup_fold
              (filter (λ e, isTrackEmpty e.2 = false) (tracks data)) []
              (foldl cleanupStep ([], w) (tracks data)).2)
    as (G1 & _ & _ & G4).
  unfold Tracks in *.
  rewrite (G4 (filter_empty_of_nonempty _)), G1. simpl.
  by rewrite filter_nonempty_idemp.
Qed.

(** ** Backoff *)

(** X11. The backoff delay is between 1000 and 30000 ms, does not
    decrease with the attempt number, and is 30000 ms from attempt 5
    on. *)
Theorem getBackoffDelay_bounds a b :
  0 <= a → a <= b →
  1000 <= getBackoffDelay a <= 30000 ∧
  getBackoffDelay a <= getBackoffDelay b ∧
  (5 <= a → getBackoffDelay a = 30000).
Proof.
  intros Ha Hab. unfold getBackoffDelay.
  assert (H1 : 1 <= 2 ^ a) by (apply (Z.pow_le_mono_r 2 0 a); lia).
  assert (H2 : 2 ^ a <= 2 ^ b) by (apply Z.pow_le_mono_r; lia).
  split_and!; try lia.
  intros H5. assert (2 ^ 5 <= 2 ^ a) by (apply Z.pow_le_mono_r; lia).
  change (2 ^ 5) with 32 in *. lia.
Qed.

Lemma getBackoffDelay_bounds_witness : getBackoffDelay 7 = 30000.
Proof.
  refine (proj2 (proj2 (getBackoffDelay_bounds 7 9 _ _)) _); lia.
Defined.

(** ** The per-track effort, continued *)

Ltac run_effort :=
  unfold fetchTrack, MAX_RETRIES_PER_TRACK;
  cbn [retryLoop]; unfold MAX_RETRIES_PER_TRACK;
  change (Z.of_nat 3) with 3;
  change (0 + 1 <? 3) with true; change (0 + 1 + 1 <? 3) with true;
  change (0 + 1 + 1 + 1 <? 3) with false;
  repeat step_loop.

(** X12. A per-track effort waits at most twice, 2000 ms and then
    4000 ms, and consists of at most five events. *)
Theorem fetchTrack_waits env track u :
  sleeps (fetchTrack env track u).2 `prefix_of` [2000; 4000] ∧
  (length (fetchTrack env track u).2 <= 5)%nat.
Proof.
  split; run_effort; simpl; try lia;
    first [ by exists [2000; 4000] | by exists [4000] | by exists [] ].
Qed.

(** X13. The result of a per-track effort carries the key of its track.
    A successful result is not marked retryable, and its last attempt
    caught nothing.  A failed result is marked retryable exactly when the
    error of its last attempt is, and a retryable failure has used all
    three attempts. *)
Theorem fetchTrack_result env track u :
  let result := (fetchTrack env track u).1 in
  let events := (fetchTrack env track u).2 in
  uri result = u ∧
  (success result = true →
     retryable result = false ∧ ∃ n, last events = Some (Attempt n None)) ∧
  (success result = false →
     ∃ n e, last events = Some (Attempt n (Some e)) ∧
            retryable result = isRetryableError (Some e) ∧
            (retryable result = true → attemptsIn events = 3)).
Proof.
  intros result events. subst result events.
  split_and!; run_effort; unfold failedResult;
    cbn [uri success retryable updates last]; try done;
    try (intros _; split; [done|by eexists]);
    try (intros _; eexists _, _; split_and!; [reflexivity|reflexivity|];
         first [ intros _; reflexivity | congruence ]).
Qed.

(** ** What the migration leaves untouched *)

Lemma keeps_refl t : keeps t t.
Proof. by unfold keeps. Qed.

Lemma attempt_fromFlags env u nm nb upd n :
  fromFlags nm nb upd → fromFlags nm nb (attempt env u nm nb upd n).1.
Proof.
  intros [Hb Hm]. unfold attempt.
  destruct nm, nb; simpl;
    repeat (case_match; simpl; simplify_eq);
    split; simpl in *; intros; try done; try (by apply Hb); try (by apply Hm);
    try tauto.
Qed.

Lemma retryLoop_fromFlags env u nm nb left' : ∀ k upd err,
  fromFlags nm nb upd →
  fromFlags nm nb (updates (retryLoop env u nm nb left' k upd err).1).
Proof.
  induction left' as [|left' IH]; intros k upd err Hupd; simpl; [done|].
  pose proof (attempt_fromFlags env u nm nb upd k Hupd) as Ha.
  destruct (attempt env u nm nb upd k) as [upd' [e|]]; simpl in Ha; [|done].
  destruct (_ && _); [|done].
  specialize (IH (k + 1) upd' (Some e) Ha).
  by destruct (retryLoop env u nm nb left' (k + 1) upd' (Some e)).
Qed.

Lemma fetchTrack_fromFlags env c u :
  fromFlags (needsMetadataOf c) (needsBpmOf c) (updates (fetchTrack env c u).1).
Proof.
  apply retryLoop_fromFlags. split; simpl; [done|]. intros [?|?]; done.
Qed.

Lemma keeps_merge t c c2 upd :
  keeps t c → keeps t c2 →
  fromFlags (needsMetadataOf c) (needsBpmOf c) upd →
  keeps t (merge c2 upd).
Proof.
  intros (_ & _ & _ & _ & _ & Hb0 & Hm0) (Hr & He & Htg & Hd1 & Hd2 & Hb & Hm)
    [Fb Fm].
  unfold keeps, merge. simpl. split_and!; try done.
  - intros Hbt. rewrite <- (Hb Hbt).
    destruct (updBpm upd) eqn:E; [|done].
    assert (needsBpmOf c = true) as Hn by (apply Fb; done).
    unfold needsBpmOf in Hn. rewrite (Hb0 Hbt) in Hn. by destruct (bpm t).
  - intros Hmt. destruct (Hm Hmt) as [Hn1 Hn2]. destruct (Hm0 Hmt) as [Hc1 Hc2].
    assert (Hcf : needsMetadataOf c = false).
    { unfold needsMetadataOf in *. by rewrite Hc1, Hc2. }
    destruct (updName upd) eqn:E1.
    { assert (needsMetadataOf c = true) by (apply Fm; left; done). congruence. }
    destruct (updArtists upd) eqn:E2.
    { assert (needsMetadataOf c = true) by (apply Fm; right; done). congruence. }
    done.
Qed.

Lemma conservative_refl T data : conservative T data data.
Proof.
  split_and!; try done. intros u t Ht. exists t. split; [done|apply keeps_refl].
Qed.

Lemma conservative_set T data cur u c c' :
  conservative T data cur →
  u ∈ T →
  getTrackData (tracks cur) u = Some c →
  (∀ t, getTrackData (tracks data) u = Some t → keeps t c → keeps t c') →
  conservative T data (withTracks cur (setTrackData (tracks cur) u c')).
Proof.
  intros (Hcat & Hkeys & Hkeep & Hout) Hu Hc Hstep.
  split_and!; simpl.
  - done.
  - rewrite setTrackData_keys; [done|]. by eapply getTrackData_Some_key.
  - intros v t Hv. destruct (decide (u = v)) as [<-|Hne].
    + rewrite getTrackData_set_eq. exists c'. split; [done|].
      destruct (Hkeep u t Hv) as (c0 & Hc0 & Hk). apply Hstep; [done|].
      congruence.
    + rewrite getTrackData_set_ne by done. by apply Hkeep.
  - intros v Hv. rewrite getTrackData_set_ne; [by apply Hout|].
    intros <-. done.
Qed.

Lemma cacheStep_conservative T data ls r todo u :
  conservative T data (updatedData r) → u ∈ T →
  conservative T data (updatedData (cacheStep ls (r, todo) u).1).
Proof.
  intros Hcons Hu. unfold cacheStep.
  destruct (bool_decide _); [done|].
  destruct (getTrackData (tracks (updatedData r)) u) as [c|] eqn:Hc; [|done].
  destruct (needsMetadataOf c) eqn:Hn; simpl.
  - destruct (getTrackInfo ls u) as [info|]; simpl.
    + assert (Hset : conservative T data
        (withTracks (updatedData r)
           (setTrackData (tracks (updatedData r)) u
              {| rating := rating c; energy := energy c; bpm := bpm c;
                 tags := tags c; name := Some (infoName info);
                 artists := Some (infoArtists info);
                 dateCreated := dateCreated c;
                 dateModified := dateModified c |}))).
      { eapply conservative_set; [done|done|done|].
        intros t _ (Hr & He & Ht & Hd1 & Hd2 & Hb & Hm).
        unfold keeps. simpl. split_and!; try done.
        intros Hmt. destruct (Hm Hmt) as [Hn1 Hn2].
        unfold needsMetadataOf in *. rewrite Hn1, Hn2 in Hn. congruence. }
      by destruct (needsBpmOf c).
    + done.
  - by destruct (needsBpmOf c).
Qed.

Lemma cachePass_conservative T data ls remaining : ∀ r todo,
  conservative T data (updatedData r) →
  (∀ u, u ∈ remaining → u ∈ T) →
  conservative T data (updatedData (foldl (cacheStep ls) (r, todo) remaining).1).
Proof.
  induction remaining as [|u remaining IH]; intros r todo Hc Hsub; cbn [foldl];
    [done|].
  pose proof (cacheStep_conservative T data ls r todo u Hc
                (Hsub u (list_elem_of_here _ _))) as H1.
  destruct (cacheStep ls (r, todo) u) as [r1 todo1]. cbn [fst] in H1.
  apply IH; [done|]. intros v Hv. by apply Hsub, list_elem_of_further.
Qed.

Lemma applyResult_conservative T data l n s :
  conservative T data (updatedData (run l)) → okResult T data s →
  conservative T data (updatedData (run (applyResult (l, n) s).1)).
Proof.
  intros Hc Hok. unfold applyResult. destruct s as [value|]; [|done].
  destruct Hok as [Hu Hm].
  destruct (success value); simpl.
  - destruct (hasKeys (updates value)); [|done].
    destruct (getTrackData (tracks (updatedData (run l))) (uri value))
      as [c|] eqn:E; [|done].
    eapply conservative_set; [done|done|done|]. intros t Ht Hk. by apply Hm.
  - destruct (retryable value); simpl; done.
Qed.

Lemma applyResults_conservative T data results : ∀ l n,
  conservative T data (updatedData (run l)) →
  Forall (okResult T data) results →
  conservative T data (updatedData (run (foldl applyResult (l, n) results).1)).
Proof.
  induction results as [|s results IH]; intros l n Hc Hok; cbn [foldl]; [done|].
  apply Forall_cons in Hok as [Hs Hok].
  pose proof (applyResult_conservative T data l n s Hc Hs) as H1.
  destruct (applyResult (l, n) s) as [l1 n1]. cbn [fst] in H1. by apply IH.
Qed.

Lemma settleBatch_ok T data env l batch :
  conservative T data (updatedData (run l)) →
  (∀ u, u ∈ batch → u ∈ T) →
  Forall (okResult T data) (settleBatch env l batch).
Proof.
  intros (_ & _ & Hkeep & _) Hsub. unfold settleBatch.
  apply Forall_fmap, Forall_forall. intros u Hu. unfold settleTrack. simpl.
  destruct (getTrackData (tracks (updatedData (run l))) u) as [c|] eqn:Hc;
    [|done].
  assert (Huri : uri (fetchTrack env c u).1 = u) by apply retryLoop_uri.
  simpl. rewrite Huri. split; [by apply Hsub|].
  intros t c2 Ht Hk2.
  destruct (Hkeep u t Ht) as (c0 & Hc0 & Hk0).
  assert (c0 = c) as -> by congruence.
  eapply keeps_merge; [exact Hk0|exact Hk2|apply fetchTrack_fromFlags].
Qed.

Lemma afterBatch_conservative T data env l batch :
  conservative T data (updatedData (run l)) →
  (∀ u, u ∈ batch → u ∈ T) →
  conservative T data (updatedData (run (afterBatch l (settleBatch env l batch)))).
Proof.
  intros Hc Hsub. rewrite afterBatch_run.
  apply applyResults_conservative; [done|]. by apply settleBatch_ok.
Qed.

Lemma networkPass_conservative T data env still total starts : ∀ l w l' w',
  conservative T data (updatedData (run l)) →
  (∀ u, u ∈ still → u ∈ T) →
  networkPass env still total starts l w = (Done l', w') →
  conservative T data (updatedData (run l')).
Proof.
  induction starts as [|i later IH]; intros l w l' w' Hc Hsub; cbn [networkPass].
  { intros H. by simplify_eq. }
  assert (Hbatch : ∀ u, u ∈ take BATCH_SIZE (drop i still) → u ∈ T).
  { intros u Hu. apply Hsub.
    by eapply subseteq_drop, subseteq_take. }
  pose proof (afterBatch_conservative T data env l _ Hc Hbatch) as H1.
  cbv zeta.
  destruct (MAX_CONSECUTIVE_FAILURES <=? _); [discriminate|].
  destruct (_ && _); apply IH; done.
Qed.

(** ** The batches *)

Lemma filter_fmap_shift (l : list nat) :
  filter (λ i, (i mod BATCH_SIZE = 0)%nat) (Nat.add BATCH_SIZE <$> l)
  = Nat.add BATCH_SIZE <$> filter (λ i, (i mod BATCH_SIZE = 0)%nat) l.
Proof.
  induction l as [|i l IH]; [done|].
  rewrite fmap_cons, !filter_cons, IH.
  assert (Hmod : ((BATCH_SIZE + i) mod BATCH_SIZE = i mod BATCH_SIZE)%nat).
  { unfold BATCH_SIZE.
    replace (5 + i)%nat with (i + 1 * 5)%nat by lia.
    by rewrite Nat.Div0.mod_add. }
  rewrite Hmod. by destruct (decide (i mod BATCH_SIZE = 0)%nat).
Qed.

Lemma batchStarts_step n :
  (0 < n)%nat →
  batchStarts n
  = 0%nat :: (Nat.add BATCH_SIZE <$> batchStarts (n - BATCH_SIZE)).
Proof.
  intros Hn. unfold batchStarts.
  destruct (decide (n <= 4)%nat) as [Hsmall|Hbig].
  - assert (Hcases : n = 1%nat ∨ n = 2%nat ∨ n = 3%nat ∨ n = 4%nat) by lia.
    destruct Hcases as [->|[->|[->| ->]]]; reflexivity.
  - replace n with (5 + (n - BATCH_SIZE))%nat at 1 by (unfold BATCH_SIZE; lia).
    rewrite seq_app, filter_app.
    change (filter _ (seq 0 5)) with [0%nat].
    change (0 + 5)%nat with (BATCH_SIZE + 0)%nat.
    by rewrite <- fmap_add_seq, filter_fmap_shift.
Qed.

Lemma batches_concat (l : list string) : concat (batches l) = l.
Proof.
  unfold batches. remember (length l) as n eqn:Hlen.
  revert l Hlen. induction n as [n IH] using lt_wf_ind. intros l Hlen.
  destruct (decide (n = 0%nat)) as [->|Hpos].
  { symmetry in Hlen. apply length_zero_iff_nil in Hlen. by subst l. }
  rewrite batchStarts_step by lia.
  rewrite fmap_cons, concat_cons, drop_0, <- list_fmap_compose.
  assert (Hrest :
    concat ((λ i, take BATCH_SIZE (drop i (drop BATCH_SIZE l)))
              <$> batchStarts (n - BATCH_SIZE))
    = drop BATCH_SIZE l).
  { apply (IH (n - BATCH_SIZE)%nat); [unfold BATCH_SIZE; lia|].
    by rewrite length_drop, Hlen. }
  erewrite list_fmap_ext; [rewrite Hrest; apply take_drop|].
  intros _ i _. simpl. by rewrite drop_drop.
Qed.

(** X14. The batches of the second pass, one after the other, are the
    list [stillNeedWork]: no track is left out, repeated or reordered.
    Every batch has between one and five tracks, and there are
    [ceil (n / 5)] batches for [n] tracks. *)
Theorem batches_partition (stillNeedWork : list string) :
  concat (batches stillNeedWork) = stillNeedWork ∧
  Forall (λ batch, (0 < length batch <= BATCH_SIZE)%nat) (batches stillNeedWork) ∧
  length (batches stillNeedWork)
  = ((length stillNeedWork + BATCH_SIZE - 1) / BATCH_SIZE)%nat.
Proof.
  split_and!.
  - apply batches_concat.
  - unfold batches. apply Forall_fmap, Forall_forall. intros i Hi. simpl.
    unfold batchStarts in Hi. apply list_elem_of_filter in Hi as [_ Hi].
    apply elem_of_seq in Hi. rewrite length_take, length_drop.
    unfold BATCH_SIZE. lia.
  - unfold batches. rewrite length_fmap.
    remember (length stillNeedWork) as n eqn:Hlen. clear Hlen stillNeedWork.
    induction n as [n IH] using lt_wf_ind.
    destruct (decide (n = 0%nat)) as [->|Hpos]; [done|].
    rewrite batchStarts_step by lia. cbn [length]. rewrite length_fmap.
    rewrite IH by (unfold BATCH_SIZE; lia). unfold BATCH_SIZE.
    destruct (decide (n <= 4)%nat) as [Hsmall|Hbig].
    + assert (Hcases : n = 1%nat ∨ n = 2%nat ∨ n = 3%nat ∨ n = 4%nat) by lia.
      destruct Hcases as [->|[->|[->| ->]]]; reflexivity.
    + replace (n + 5 - 1)%nat with ((n - 5 + 5 - 1) + 1 * 5)%nat by lia.
      rewrite Nat.div_add by lia. lia.
Qed.

(** ** Every track of the second pass ends in one of the two sets *)

Lemma applyResult_settled l n s u :
  settled u l ∨ (∃ value, s = Fulfilled value ∧ uri value = u) →
  settled u (applyResult (l, n) s).1.
Proof.
  unfold settled, applyResult. intros H.
  destruct s as [value|].
  - destruct (success value); [|destruct (retryable value)]; simpl;
      destruct (decide (uri value = u)) as [<-|Hne];
      try (left; set_solver); try (right; set_solver);
      destruct H as [[H|H]|(v & Hv & Hu)]; simplify_eq;
      try (left; set_solver); try (right; set_solver).
  - simpl. destruct H as [H|(v & Hv & _)]; [done|discriminate].
Qed.

Lemma applyResults_settled results u : ∀ l n,
  settled u l ∨ (∃ value, Fulfilled value ∈ results ∧ uri value = u) →
  settled u (foldl applyResult (l, n) results).1.
Proof.
  induction results as [|s results IH]; intros l n H; cbn [foldl].
  { destruct H as [H|(v & Hv & _)]; [done|]. by apply elem_of_nil in Hv. }
  pose proof (applyResult_settled l n s u) as H1.
  destruct (applyResult (l, n) s) as [l1 n1]. cbn [fst] in H1.
  apply IH. destruct H as [H|(v & Hv & Hu)].
  - left. apply H1. by left.
  - apply elem_of_cons in Hv as [<-|Hv].
    + left. apply H1. right. by exists v.
    + right. by exists v.
Qed.

Lemma applyResults_keys results : ∀ l n,
  map fst (tracks (updatedData (run (foldl applyResult (l, n) results).1)))
  = map fst (tracks (updatedData (run l))).
Proof.
  induction results as [|s results IH]; intros l n; cbn [foldl]; [done|].
  pose proof (applyResult_keys l n s) as H1.
  destruct (applyResult (l, n) s) as [l1 n1]. cbn [fst] in H1.
  by rewrite IH.
Qed.

Lemma afterBatch_settled env l batch u :
  settled u l ∨
    (u ∈ batch ∧ u ∈ map fst (tracks (updatedData (run l)))) →
  settled u (afterBatch l (settleBatch env l batch)).
Proof.
  intros H. unfold settled. rewrite afterBatch_run.
  apply applyResults_settled. destruct H as [H|[Hb Hk]]; [by left|right].
  apply getTrackData_key in Hk as [c Hc].
  exists (fetchTrack env c u).1. split; [|apply retryLoop_uri].
  unfold settleBatch. apply list_elem_of_fmap. exists u. split; [|done].
  unfold settleTrack. by rewrite Hc.
Qed.

Lemma networkPass_settled env still total starts u : ∀ l w l' w',
  networkPass env still total starts l w = (Done l', w') →
  u ∈ map fst (tracks (updatedData (run l))) →
  settled u l ∨ (∃ i, i ∈ starts ∧ u ∈ take BATCH_SIZE (drop i still)) →
  settled u l'.
Proof.
  induction starts as [|i later IH]; intros l w l' w'; cbn [networkPass].
  { intros H _ [Hs|(i & Hi & _)]; [by simplify_eq|by apply elem_of_nil in Hi]. }
  cbv zeta. intros Hrun Hkey Hu.
  set (l1 := afterBatch l (settleBatch env l (take BATCH_SIZE (drop i still))))
    in *.
  assert (Hkey1 : u ∈ map fst (tracks (updatedData (run l1)))).
  { unfold l1. by rewrite afterBatch_run, applyResults_keys. }
  assert (Hnext : settled u l1 ∨
            ∃ j, j ∈ later ∧ u ∈ take BATCH_SIZE (drop j still)).
  { destruct Hu as [Hs|(j & Hj & Hin)].
    - left. apply afterBatch_settled. by left.
    - apply elem_of_cons in Hj as [->|Hj].
      + left. apply afterBatch_settled. by right.
      + right. by exists j. }
  destruct (MAX_CONSECUTIVE_FAILURES <=? _); [discriminate|].
  destruct (_ && _); eapply IH; try exact Hrun; done.
Qed.

(** X15. When the second pass runs to its end, every key of
    [stillNeedWork] that has a track in the working copy is in the set
    of processed keys or in the set of failed keys. *)
Theorem networkPass_settles_all env stillNeedWork total l w l' w' :
  networkPass env stillNeedWork total (batchStarts (length stillNeedWork)) l w
    = (Done l', w') →
  ∀ u, u ∈ stillNeedWork →
       u ∈ map fst (tracks (updatedData (run l))) →
       u ∈ processedSet (run l') ∨ u ∈ failedSet (run l').
Proof.
  intros Hrun u Hu Hkey.
  eapply networkPass_settled; [exact Hrun|exact Hkey|].
  right. rewrite <- (batches_concat stillNeedWork) in Hu at 1.
  apply list_elem_of_In, in_concat in Hu as (batch & Hb & Hin).
  apply list_elem_of_In in Hb. unfold batches in Hb.
  apply list_elem_of_fmap in Hb as (i & -> & Hi).
  exists i. split; [done|]. by apply list_elem_of_In.
Qed.

Lemma networkPass_settles_all_witness :
  ∃ l',
    (networkPass scenario (map fst (tracks threeTracks)) 3 (batchStarts 3)
       (startLoop scenario threeTracks) freshWorld).1 = Done l' ∧
    ("spotify:track:C"%string ∈ processedSet (run l') ∨
     "spotify:track:C"%string ∈ failedSet (run l')).
Proof.
  destruct (networkPass scenario (map fst (tracks threeTracks)) 3
              (batchStarts 3) (startLoop scenario threeTracks) freshWorld)
    as [[l'|e] w'] eqn:E.
  - exists l'. split; [reflexivity|].
    apply (networkPass_settles_all scenario (map fst (tracks threeTracks)) 3
             (startLoop scenario threeTracks) freshWorld l' w' E);
      simpl; set_solver.
  - vm_compute in E. discriminate E.
Defined.

(** ** The effects of the second migration *)

Lemma extends_refl total w : extends total w w.
Proof. split_and!; try done. exists []. by rewrite app_nil_r. Qed.

Lemma extends_trans total w1 w2 w3 :
  extends total w1 w2 → extends total w2 w3 → extends total w1 w3.
Proof.
  intros ((m1 & E1 & F1) & C1 & S1) ((m2 & E2 & F2) & C2 & S2).
  split_and!; try congruence.
  exists (m1 ++ m2). split; [by rewrite E2, E1, app_assoc|by apply Forall_app].
Qed.

Lemma extends_emit total e w :
  metadataEffect total e → extends total w (emit e w).
Proof.
  intros He. split_and!; try done. exists [e]. split; [done|]. by apply Forall_singleton.
Qed.

Lemma extends_saveMigrationProgress total p w :
  extends total w (saveMigrationProgress p w).
Proof.
  split_and!; try done. exists [SaveMigrationProgress p]. split; [done|].
  by apply Forall_singleton.
Qed.

Lemma extends_checkpoint total r w : extends total w (checkpoint r w).
Proof.
  unfold checkpoint. eapply extends_trans.
  - apply extends_saveMigrationProgress.
  - by apply extends_emit.
Qed.

Lemma scaled_delay (d : Q) :
  (BASE_DELAY_BETWEEN_BATCHES_MS <= d <= inject_Z 5000)%Q →
  (BASE_DELAY_BETWEEN_BATCHES_MS
     <= Qred (Qmin (d * (3 # 2)) (inject_Z 5000)) <= inject_Z 5000)%Q.
Proof.
  intros [Hlo Hhi]. rewrite Qred_correct. split.
  - apply Q.min_glb.
    + eapply Qle_trans; [exact Hlo|].
      unfold BASE_DELAY_BETWEEN_BATCHES_MS, Qle, inject_Z in *.
      destruct d as [n m]. simpl in *. nia.
    + done.
  - apply Q.le_min_r.
Qed.

Lemma applyResults_delay results : ∀ l n,
  currentDelay (foldl applyResult (l, n) results).1 = currentDelay l.
Proof.
  induction results as [|s results IH]; intros l n; cbn [foldl]; [done|].
  assert (H1 : currentDelay (applyResult (l, n) s).1 = currentDelay l).
  { unfold applyResult. destruct s as [value|]; [|done].
    destruct (success value); [done|]. by destruct (retryable value). }
  destruct (applyResult (l, n) s) as [l1 n1]. cbn [fst] in H1.
  by rewrite IH.
Qed.

Lemma afterBatch_delay l results : delayOk l → delayOk (afterBatch l results).
Proof.
  unfold delayOk, afterBatch. intros Hl.
  pose proof (applyResults_delay results l 0) as Hd.
  destruct (foldl applyResult (l, 0) results) as [l1 n1]. cbn [fst] in Hd.
  destruct (0 <? n1); simpl.
  - apply scaled_delay. by rewrite Hd.
  - split; [apply Qle_refl|done].
Qed.

Lemma networkPass_extends env still total starts : ∀ l w,
  delayOk l →
  extends total w (networkPass env still total starts l w).2.
Proof.
  induction starts as [|i later IH]; intros l w Hl; cbn [networkPass].
  { apply extends_refl. }
  cbv zeta.
  pose proof (afterBatch_delay l
                (settleBatch env l (take BATCH_SIZE (drop i still))) Hl) as Hl1.
  set (l1 := afterBatch l (settleBatch env l (take BATCH_SIZE (drop i still))))
    in *.
  destruct (MAX_CONSECUTIVE_FAILURES <=? _); [apply extends_checkpoint|].
  assert (Hreport : extends total w
            (emit (OnProgress (Z.of_nat (size (processedSet (run l1)))) total) w)).
  { apply extends_emit. simpl. split; [lia|done]. }
  destruct (_ && _); destruct (_ <? _)%nat;
    (eapply extends_trans; [|apply IH; exact Hl1]);
    repeat first
      [ exact Hreport
      | apply extends_checkpoint
      | (eapply extends_trans; [|by apply extends_emit; exact Hl1]) 
      | (eapply extends_trans; [|apply extends_checkpoint]) ].
Qed.

(** X16. The metadata migration only adds to the effects, and what it
    adds are writes of the data and of the progress record, progress
    reports with a non-negative count out of the number of tracks that
    needed work, and waits of between 500 and 5000 ms.  It leaves the
    track-info cache and the migration record in storage alone.  With no
    track needing work it returns the data it was given and does nothing.
    With some and a normal return, the last two effects are the write of
    the returned data and the removal of the progress record, and no
    progress record is left in storage. *)
Theorem addTrackMetadataMigration_effects env data w :
  let total := Z.of_nat (length (tracksNeedingWork data)) in
  let w' := (addTrackMetadataMigration env data w).2 in
  (∃ more, effects w' = effects w ++ more ∧
           Forall (metadataEffect total) more) ∧
  trackInfoCache (storage w') = trackInfoCache (storage w) ∧
  savedMigrations (storage w') = savedMigrations (storage w) ∧
  (tracksNeedingWork data = [] →
     addTrackMetadataMigration env data w = (Done data, w)) ∧
  (∀ data', tracksNeedingWork data ≠ [] →
     (addTrackMetadataMigration env data w).1 = Done data' →
     savedProgress (storage w') = None ∧
     ∃ front, effects w'
              = front ++ [SetTagData data'; SaveMigrationProgress None]).
Proof.
  intros total w'.
  assert (Hext : extends total w w').
  { subst w'. unfold addTrackMetadataMigration. fold total.
    destruct (Nat.eqb _ 0); [apply extends_refl|].
    destruct (cachePass _ _ _) as [r1 still].
    assert (Hstart : ∀ r, delayOk {| run := r; consecutiveFailures := 0;
                    currentDelay := BASE_DELAY_BETWEEN_BATCHES_MS |}).
    { intros r. split; [apply Qle_refl|done]. }
    destruct (0 <? _);
      match goal with
      | |- context [networkPass ?e ?s ?t ?b ?l ?w0] =>
          pose proof (networkPass_extends e s t b l w0 (Hstart _)) as H;
          destruct (networkPass e s t b l w0) as [[l'|err] w2]
      end; cbn [fst snd] in *.
    - eapply extends_trans; [|eapply extends_trans; [exact H|]].
      + eapply extends_trans; [|apply extends_saveMigrationProgress].
        by apply extends_emit.
      + eapply extends_trans; [|apply extends_saveMigrationProgress].
        by apply extends_emit.
    - eapply extends_trans; [|exact H].
      eapply extends_trans; [|apply extends_saveMigrationProgress].
      by apply extends_emit.
    - eapply extends_trans; [exact H|].
      eapply extends_trans; [|apply extends_saveMigrationProgress].
      by apply extends_emit.
    - exact H. }
  destruct Hext as (Hmore & Hcache & Hsaved).
  split_and!; try done.
  - intros Hnone. unfold addTrackMetadataMigration. by rewrite Hnone.
  - intros data' Hsome. subst w'. unfold addTrackMetadataMigration.
    destruct (tracksNeedingWork data) as [|u targets] eqn:Ht; [done|].
    cbn [length Nat.eqb].
    destruct (cachePass _ _ _) as [r1 still].
    destruct (0 <? _);
      match goal with
      | |- context [networkPass ?e ?s ?t ?b ?l ?w0] =>
          destruct (networkPass e s t b l w0) as [[l'|err] w2]
      end; cbn [fst snd]; intros H; simplify_eq;
      (split; [done|]); exists (effects w2);
      unfold saveMigrationProgress, emit; simpl; by rewrite <- app_assoc.
Qed.

Lemma resume_updatedData env saved data :
  updatedData (resume env saved data) = data.
Proof.
  unfold resume. destruct saved as [p|]; [|done]. by destruct (decide _).
Qed.

(** X17. When the metadata migration returns, the data it returns has
    the categories and the keys, in order, of the data it was given.
    Every track keeps its rating, energy, tags and dates; a BPM that was
    known is kept, and so are name and artists when neither was missing.
    A track that needed no work (local files among them) is returned
    unchanged. *)
Theorem addTrackMetadataMigration_fills_gaps env data w data' w' :
  addTrackMetadataMigration env data w = (Done data', w') →
  categories data' = categories data ∧
  map fst (tracks data') = map fst (tracks data) ∧
  ∀ u t, getTrackData (tracks data) u = Some t →
    ∃ t', getTrackData (tracks data') u = Some t' ∧
          keeps t t' ∧
          (needsWork data u = false → t' = t).
Proof.
  intros Hrun.
  assert (Hcons : conservative (tracksNeedingWork data) data data').
  { revert Hrun. unfold addTrackMetadataMigration.
    destruct (Nat.eqb _ 0).
    { intros H. simplify_eq. apply conservative_refl. }
    set (r0 := resume env (getMigrationProgress (storage w)) data).
    set (remaining := remainingTracks r0 (tracksNeedingWork data)).
    assert (Hrem : ∀ u, u ∈ remaining → u ∈ tracksNeedingWork data).
    { intros u Hu. unfold remaining, remainingTracks in Hu.
      by apply list_elem_of_filter in Hu as [_ Hu]. }
    pose proof (cachePass_conservative (tracksNeedingWork data) data
                  (storage w) remaining r0 []) as Hcache.
    assert (H0 : conservative (tracksNeedingWork data) data (updatedData r0)).
    { unfold r0. rewrite resume_updatedData. apply conservative_refl. }
    specialize (Hcache H0 Hrem).
    destruct (cachePass_sublist (storage w) remaining r0 [])
      as (more & Hstill & Hsub).
    unfold cachePass.
    destruct (foldl (cacheStep (storage w)) (r0, []) remaining)
      as [r1 still]. cbn [fst snd] in *. subst still.
    assert (Hin : ∀ u, u ∈ more → u ∈ tracksNeedingWork data).
    { intros u Hu. apply Hrem. by eapply sublist_subseteq. }
    destruct (0 <? _);
      match goal with
      | |- context [networkPass ?e ?s ?t ?b ?l ?w0] =>
          pose proof (networkPass_conservative (tracksNeedingWork data) data
                        e s t b l w0) as H;
          destruct (networkPass e s t b l w0) as [[l'|err] w2]
      end; intros Hrun; simplify_eq; eapply H; done. }
  destruct Hcons as (Hcat & Hkeys & Hkeep & Hout).
  split_and!; [done|done|].
  intros u t Ht. destruct (Hkeep u t Ht) as (t' & Ht' & Hk).
  exists t'. split_and!; [done|done|].
  intros Hno. assert (Hu : u ∉ tracksNeedingWork data).
  { unfold tracksNeedingWork. rewrite list_elem_of_filter. intros [Hyes _].
    congruence. }
  rewrite (Hout u Hu) in Ht'. congruence.
Qed.

Lemma addTrackMetadataMigration_fills_gaps_witness :
  ∃ data',
    (addTrackMetadataMigration scenario threeTracks freshWorld).1 = Done data' ∧
    map fst (tracks data') = map fst (tracks threeTracks).
Proof.
  destruct (addTrackMetadataMigration scenario threeTracks freshWorld)
    as [[data'|e] w'] eqn:E.
  - exists data'. split; [reflexivity|].
    apply (addTrackMetadataMigration_fills_gaps scenario threeTracks freshWorld
             data' w' E).
  - vm_compute in E. discriminate E.
Defined.

Lemma addTrackMetadataMigration_effects_witness :
  savedProgress
    (storage (addTrackMetadataMigration scenario threeTracks freshWorld).2)
  = None.
Proof.
  destruct (addTrackMetadataMigration scenario threeTracks freshWorld).1
    as [data'|e] eqn:E.
  - refine (proj1 (proj2 (proj2 (proj2 (proj2
      (addTrackMetadataMigration_effects scenario threeTracks freshWorld))))
      data' _ E)).
    vm_compute. discriminate.
  - vm_compute in E. discriminate E.
Defined.

Lemma fetchTrack_result_witness :
  ∃ n e,
    last (fetchTrack offline (sampleTrack None None) "spotify:track:A").2
      = Some (Attempt n (Some e)) ∧
    retryable (fetchTrack offline (sampleTrack None None) "spotify:track:A").1
      = isRetryableError (Some e).
Proof.
  destruct (proj2 (proj2
    (fetchTrack_result offline (sampleTrack None None) "spotify:track:A"))
    eq_refl) as (n & e & Hlast & Hretry & _).
  exists n, e. split; [exact Hlast|exact Hretry].
Defined.

(** ** The driver *)

Lemma cacheStep_progress ls r todo u :
  progress (cacheStep ls (r, todo) u).1 = progress r.
Proof.
  unfold cacheStep. destruct (bool_decide _); [done|].
  destruct (getTrackData _ u) as [c|]; [|done].
  destruct (needsMetadataOf c); [destruct (getTrackInfo ls u)|];
    simpl; by destruct (needsBpmOf c).
Qed.

Lemma cachePass_progress ls remaining : ∀ r todo,
  progress (foldl (cacheStep ls) (r, todo) remaining).1 = progress r.
Proof.
  induction remaining as [|u remaining IH]; intros r todo; cbn [foldl]; [done|].
  pose proof (cacheStep_progress ls r todo u) as H1.
  destruct (cacheStep ls (r, todo) u) as [r1 todo1]. cbn [fst] in H1.
  by rewrite IH.
Qed.

Lemma resume_name env saved data :
  migrationName (progress (resume env saved data)) = "addTrackMetadata"%string.
Proof.
  unfold resume. destruct saved as [p|]; [|done].
  by destruct (decide (migrationName p = "addTrackMetadata"%string)).
Qed.

Lemma networkPass_thrown_name env still total starts name : ∀ l w e w',
  migrationName (progress (run l)) = name →
  networkPass env still total starts l w = (Thrown e, w') →
  ∃ p, savedProgress (storage w') = Some p ∧ migrationName p = name.
Proof.
  induction starts as [|i later IH]; intros l w e w' Hname; cbn [networkPass].
  { discriminate. }
  cbv zeta.
  pose proof (afterBatch_progress l
                (settleBatch env l (take BATCH_SIZE (drop i still)))) as Hp.
  set (l1 := afterBatch l (settleBatch env l (take BATCH_SIZE (drop i still))))
    in *.
  destruct (MAX_CONSECUTIVE_FAILURES <=? _).
  { intros H. simplify_eq. eexists. split; [reflexivity|]. simpl. by rewrite Hp. }
  destruct (_ && _); apply IH; simpl; by rewrite Hp.
Qed.

Lemma addTrackMetadataMigration_thrown_name env data w e w' :
  addTrackMetadataMigration env data w = (Thrown e, w') →
  e = pausedError ∧
  ∃ p, savedProgress (storage w') = Some p ∧
       migrationName p = "addTrackMetadata"%string.
Proof.
  unfold addTrackMetadataMigration.
  destruct (Nat.eqb _ 0); [discriminate|].
  pose proof (cachePass_progress (storage w)
    (remainingTracks (resume env (getMigrationProgress (storage w)) data)
       (tracksNeedingWork data))
    (resume env (getMigrationProgress (storage w)) data) []) as Hp.
  apply (f_equal migrationName) in Hp. rewrite resume_name in Hp.
  unfold cachePass.
  destruct (foldl _ _ _) as [r1 still]. cbn [fst] in Hp.
  destruct (0 <? _);
    match goal with
    | |- context [networkPass ?e ?s ?t ?b ?l ?w0] =>
        pose proof (networkPass_thrown e s t b l w0) as H1;
        pose proof (networkPass_thrown_name e s t b "addTrackMetadata" l w0)
          as H2;
        destruct (networkPass e s t b l w0) as [[l'|err] w2]
    end; intros H; simplify_eq;
    (split; [by destruct (H1 _ _ eq_refl) as [-> _]|]);
    eapply H2; simpl; try done; by rewrite Hp.
Qed.

Lemma migration1_state d w :
  savedMigrations (storage (migration1 d w).2) = savedMigrations (storage w) ∧
  version (migrationState (migration1 d w).1) = version (migrationState d) ∧
  addTrackMetadata (flagsOf (migration1 d w).1) = addTrackMetadata (flagsOf d) ∧
  removeTrackInfoCache (flagsOf (migration1 d w).1)
    = removeTrackInfoCache (flagsOf d) ∧
  (cleanupEmptyTracks (flagsOf (migration1 d w).1) = Some true) ∧
  (hasChanges (migration1 d w).1 = false → (migration1 d w) = (d, w)).
Proof.
  unfold migration1.
  destruct (unset (cleanupEmptyTracks (flagsOf d))) eqn:Hflag.
  - pose proof (cleanupEmptyTracksMigration_migrations (driverData d) w) as Hm.
    destruct (cleanupEmptyTracksMigration (driverData d) w) as [cleaned w1].
    cbn [fst snd] in *. split_and!; try done.
  - apply unset_false in Hflag. split_and!; done.
Qed.

(** X18. After a run of the driver over data with at least one track
    that returns, the stored state has the current version and has the
    first and the third migration marked; migrations are still needed
    exactly when the second migration is not marked, and in that case a
    progress record of the second migration is in storage.  When the run
    reports changes, its last two effects are the write of that state and
    the update event. *)
Theorem runMigrations_outcome V env data w changed w' :
  tracks data ≠ [] →
  runMigrations V env data w = (Done changed, w') →
  let st := getMigrationState (storage w') in
  version st = V ∧
  cleanupEmptyTracks (migrations st) = Some true ∧
  removeTrackInfoCache (migrations st) = Some true ∧
  needsMigrations V (storage w') = unset (addTrackMetadata (migrations st)) ∧
  (unset (addTrackMetadata (migrations st)) = true →
     ∃ p, savedProgress (storage w') = Some p ∧
          migrationName p = "addTrackMetadata"%string) ∧
  (changed = true →
     ∃ front, effects w'
              = front ++ [SaveMigrationState st; DispatchDataUpdated]).
Proof.
  intros Hdata. unfold runMigrations.
  destruct (tracks data) as [|entry entries] eqn:Htracks; [done|].
  cbn [length Nat.eqb].
  set (d0 := {| migrationState := getMigrationState (storage w);
                hasChanges := false; driverData := data |}).
  pose proof (migration1_state d0 w) as (S1 & V1 & A1 & R1 & C1 & N1).
  destruct (migration1 d0 w) as [d1 w1]. cbn [fst snd] in *.
  intros Hrun.
  assert (Hcore : ∃ d2 w2,
    migration2 env d1 w1 = (Done d2, w2) ∧
    savedMigrations (storage w2) = savedMigrations (storage w) ∧
    version (migrationState d2) = version (migrationState d0) ∧
    cleanupEmptyTracks (flagsOf d2) = Some true ∧
    removeTrackInfoCache (flagsOf d2) = removeTrackInfoCache (flagsOf d0) ∧
    (unset (addTrackMetadata (flagsOf d2)) = true →
       (∃ p, savedProgress (storage w2) = Some p ∧
             migrationName p = "addTrackMetadata"%string) ∧
       hasChanges d2 = hasChanges d1 ∧
       addTrackMetadata (flagsOf d2) = addTrackMetadata (flagsOf d0)) ∧
    (hasChanges d2 = false → d2 = d1)).
  { revert Hrun. unfold migration2.
    destruct (unset (addTrackMetadata (flagsOf d1))) eqn:Hflag.
    - pose proof (addTrackMetadataMigration_migrations env (driverData d1) w1)
        as Hm.
      destruct (addTrackMetadataMigration env (driverData d1) w1)
        as [[updated|err] w2] eqn:Hm2; cbn [snd] in Hm.
      + intros _. eexists _, _. split; [reflexivity|].
        split_and!; simpl; try done; congruence.
      + destruct (addTrackMetadataMigration_thrown_name _ _ _ _ _ Hm2)
          as (-> & p & Hp & Hname).
        change (isPause pausedError) with true. cbv iota.
        intros _. eexists _, _. split; [reflexivity|].
        split_and!; try done; try congruence.
        intros _. split_and!; [by exists p|done|congruence].
    - intros _. eexists _, _. split; [reflexivity|].
      split_and!; try done; try congruence. }
  destruct Hcore as (d2 & w2 & Hm2 & S2 & V2 & C2 & R2 & A2 & N2).
  rewrite Hm2 in Hrun. unfold migration3, saveAndNotify in Hrun.
  assert (Hsaved : ∀ w0 flags,
    cleanupEmptyTracks flags = Some true →
    removeTrackInfoCache flags = Some true →
    (unset (addTrackMetadata flags) = true →
       ∃ p, savedProgress (storage w0) = Some p ∧
            migrationName p = "addTrackMetadata"%string) →
    let w' := emit DispatchDataUpdated
                (saveMigrationState {| version := V; migrations := flags |} w0) in
    let st := getMigrationState (storage w') in
    version st = V ∧
    cleanupEmptyTracks (migrations st) = Some true ∧
    removeTrackInfoCache (migrations st) = Some true ∧
    needsMigrations V (storage w') = unset (addTrackMetadata (migrations st)) ∧
    (unset (addTrackMetadata (migrations st)) = true →
       ∃ p, savedProgress (storage w') = Some p ∧
            migrationName p = "addTrackMetadata"%string) ∧
    (changed = true →
       ∃ front, effects w'
                = front ++ [SaveMigrationState st; DispatchDataUpdated])).
  { intros w0 flags Hc Hr Hp. cbn zeta.
    unfold needsMigrations, getMigrationState. simpl.
    rewrite String.eqb_refl, Hc. simpl.
    split_and!; try done.
    intros _. exists (effects w0). by rewrite <- app_assoc. }
  destruct (unset (removeTrackInfoCache (flagsOf d2))) eqn:Hthird.
  { simpl in Hrun. simplify_eq. apply Hsaved; simpl; try done.
    intros Hpending. by destruct (A2 Hpending) as (Hp & _). }
  apply unset_false in Hthird.
  destruct (hasChanges d2 || negb (String.eqb (version (migrationState d2)) V))
    eqn:Hsave; simplify_eq.
  { apply Hsaved; simpl; try done.
    intros Hpending. by destruct (A2 Hpending) as (Hp & _). }
  apply orb_false_iff in Hsave as [Hchanges Hversion].
  apply negb_false_iff, String.eqb_eq in Hversion.
  assert (Hstate : getMigrationState (storage w') = migrationState d0).
  { unfold getMigrationState. by rewrite S2. }
  pose proof (N2 Hchanges) as ->. pose proof (N1 Hchanges) as Heq.
  injection Heq as -> ->.
  unfold needsMigrations. rewrite Hstate. unfold flagsOf in *.
  rewrite Hversion, String.eqb_refl, C1. simpl.
  split_and!; try done; try congruence.
  all: intros Hpending; by destruct (A2 Hpending) as (Hp & _).
Qed.

Lemma runMigrations_outcome_witness :
  needsMigrations "1.2.0"
    (storage (runMigrations "1.2.0" scenario threeTracks freshWorld).2)
  = false.
Proof.
  destruct (runMigrations "1.2.0" scenario threeTracks freshWorld)
    as [[changed|e] w'] eqn:E.
  - cbn [snd].
    assert (Hdata : tracks threeTracks ≠ []) by discriminate.
    destruct (runMigrations_outcome "1.2.0" scenario threeTracks freshWorld
                changed w' Hdata E) as (_ & _ & _ & -> & _).
    vm_compute in E. injection E as _ <-. reflexivity.
  - vm_compute in E. discriminate E.
Defined.

(** ** Resuming and the first pass *)

(** X19. Without a saved progress record, or with one of another
    migration, a run starts with both key sets empty, counts the tracks
    needing work as its total, takes the clock reading as its start, and
    has every track needing work left to do. *)
Theorem resume_starts_afresh env saved data :
  (∀ p, saved = Some p → migrationName p ≠ "addTrackMetadata"%string) →
  let r := resume env saved data in
  processedSet r = ∅ ∧ failedSet r = ∅ ∧
  totalTracks (progress r) = Z.of_nat (length (tracksNeedingWork data)) ∧
  startedAt (progress r) = now env ∧
  remainingTracks r (tracksNeedingWork data) = tracksNeedingWork data.
Proof.
  intros Hforeign r.
  assert (Hr : r = resume env None data).
  { subst r. unfold resume. destruct saved as [p|]; [|done].
    destruct (decide _) as [Hname|]; [|done]. by destruct (Hforeign p). }
  rewrite Hr. simpl. split_and!; try done.
  unfold remainingTracks. simpl.
  induction (tracksNeedingWork data) as [|u l IH]; [done|].
  rewrite filter_cons, decide_True by set_solver. by rewrite IH.
Qed.

Lemma resume_starts_afresh_witness :
  remainingTracks (resume scenario None threeTracks)
    (tracksNeedingWork threeTracks)
  = tracksNeedingWork threeTracks.
Proof.
  refine (proj2 (proj2 (proj2 (proj2
    (resume_starts_afresh scenario None threeTracks _))))).
  intros p Hp. discriminate Hp.
Defined.

Lemma truthy_is_Some s : truthy s = true → is_Some s.
Proof. destruct s; [by eexists|done]. Qed.

Lemma cacheStep_resolves ls r todo u :
  is_Some (getTrackData (tracks (updatedData r)) u) →
  (cacheStep ls (r, todo) u).2 = todo ++ [u] ∨
  resolved u (cacheStep ls (r, todo) u).1.
Proof.
  intros [c Hc]. unfold cacheStep. rewrite Hc.
  destruct (bool_decide _); [by left|].
  destruct (needsMetadataOf c) eqn:Hm; cbv zeta.
  - destruct (getTrackInfo ls u) as [info|]; [|by left].
    destruct (needsBpmOf c) eqn:Hb; [by left|].
    right. unfold resolved. simpl. split_and!; [set_solver|set_solver|].
    eexists. rewrite getTrackData_set_eq. split; [done|]. simpl.
    split_and!; [|by eexists|by eexists].
    unfold needsBpmOf in Hb. by destruct (bpm c).
  - destruct (needsBpmOf c) eqn:Hb; [by left|].
    right. unfold resolved. simpl. split_and!; [set_solver|set_solver|].
    exists c. split; [done|].
    unfold needsMetadataOf in Hm. apply orb_false_iff in Hm as [Hn Ha].
    apply negb_false_iff in Hn, Ha.
    split_and!; [|by apply truthy_is_Some|by apply truthy_is_Some].
    unfold needsBpmOf in Hb. by destruct (bpm c).
Qed.

Lemma cacheStep_resolved ls r todo u v :
  resolved u r → resolved u (cacheStep ls (r, todo) v).1.
Proof.
  intros (Hp & Hf & t & Ht & Hb & Hn & Ha). unfold cacheStep.
  destruct (bool_decide _); [by split_and!; eauto|].
  destruct (getTrackData (tracks (updatedData r)) v) as [c|] eqn:Hc;
    [|by split_and!; eauto].
  destruct (decide (v = u)) as [->|Hne].
  - assert (c = t) as -> by congruence.
    assert (Hbpm : needsBpmOf t = false).
    { unfold needsBpmOf. by destruct (bpm t). }
    rewrite Hbpm.
    destruct (needsMetadataOf t); [destruct (getTrackInfo ls u)|]; simpl;
      unfold resolved; simpl;
      (split_and!; [set_solver|set_solver|]);
      rewrite ?getTrackData_set_eq; eexists; (split; [done|]); simpl;
      split_and!; done || by eexists.
  - assert (Hsame : ∀ c', getTrackData
              (setTrackData (tracks (updatedData r)) v c') u = Some t).
    { intros c'. by rewrite getTrackData_set_ne. }
    destruct (needsMetadataOf c); [destruct (getTrackInfo ls v)|]; simpl;
      destruct (needsBpmOf c); unfold resolved; simpl;
      (split_and!; [set_solver|set_solver|]);
      exists t; rewrite ?Hsame; done.
Qed.

Lemma cachePass_resolved ls remaining u : ∀ r todo,
  resolved u r → resolved u (foldl (cacheStep ls) (r, todo) remaining).1.
Proof.
  induction remaining as [|v remaining IH]; intros r todo Hr; cbn [foldl];
    [done|].
  pose proof (cacheStep_resolved ls r todo u v Hr) as H1.
  destruct (cacheStep ls (r, todo) v) as [r1 todo1]. by apply IH.
Qed.

Lemma cachePass_resolves ls remaining u : ∀ r todo,
  u ∈ remaining →
  is_Some (getTrackData (tracks (updatedData r)) u) →
  u ∈ (foldl (cacheStep ls) (r, todo) remaining).2 ∨
  resolved u (foldl (cacheStep ls) (r, todo) remaining).1.
Proof.
  induction remaining as [|v remaining IH]; intros r todo Hu Hkey; cbn [foldl].
  { by apply elem_of_nil in Hu. }
  pose proof (cacheStep_keys ls r todo v) as Hkeys.
  pose proof (cacheStep_resolves ls r todo v) as Hstep.
  destruct (cacheStep ls (r, todo) v) as [r1 todo1] eqn:E. cbn [fst snd] in *.
  assert (Hkey1 : is_Some (getTrackData (tracks (updatedData r1)) u)).
  { apply getTrackData_key. rewrite Hkeys. destruct Hkey as [c Hc].
    by eapply getTrackData_Some_key. }
  apply elem_of_cons in Hu as [->|Hu]; [|by apply IH].
  destruct (Hstep Hkey) as [->|Hres].
  - left. pose proof (cachePass_from ls remaining r1 (todo ++ [v])) as Hfrom.
    cbv zeta in Hfrom. destruct Hfrom as (Hmono & _ & _).
    apply Hmono. set_solver.
  - right. by apply cachePass_resolved.
Qed.

Lemma cachePass_keys ls remaining : ∀ r todo,
  map fst (tracks (updatedData (foldl (cacheStep ls) (r, todo) remaining).1))
  = map fst (tracks (updatedData r)).
Proof.
  induction remaining as [|v remaining IH]; intros r todo; cbn [foldl]; [done|].
  pose proof (cacheStep_keys ls r todo v) as H1.
  destruct (cacheStep ls (r, todo) v) as [r1 todo1]. cbn [fst] in H1.
  by rewrite IH.
Qed.

(** X20. The first pass over keys that all have a track: the keys it
    hands to the second pass are a sublist of the keys it was given; it
    changes neither the keys of the working copy nor the progress
    record; and every key it was given is either handed on or marked
    processed and not failed, with a track that has a BPM, a name and
    artists. *)
Theorem cachePass_splits ls r remaining :
  remaining ⊆ map fst (tracks (updatedData r)) →
  let r1 := (cachePass ls r remaining).1 in
  let stillNeedWork := (cachePass ls r remaining).2 in
  stillNeedWork `sublist_of` remaining ∧
  map fst (tracks (updatedData r1)) = map fst (tracks (updatedData r)) ∧
  progress r1 = progress r ∧
  ∀ u, u ∈ remaining →
       u ∈ stillNeedWork ∨
       (u ∈ processedSet r1 ∧ (u ∉ failedSet r1) ∧
        ∃ t, getTrackData (tracks (updatedData r1)) u = Some t ∧
             bpm t ≠ None ∧ is_Some (name t) ∧ is_Some (artists t)).
Proof.
  intros Hkeys r1 still. subst r1 still. unfold cachePass. split_and!.
  - destruct (cachePass_sublist ls remaining r []) as (more & -> & Hsub).
    done.
  - apply cachePass_keys.
  - apply cachePass_progress.
  - intros u Hu. apply cachePass_resolves; [done|].
    by apply getTrackData_key, Hkeys.
Qed.

Lemma cachePass_splits_witness :
  (cachePass interrupted
     (resume scenario (getMigrationProgress interrupted) threeTracks)
     ["spotify:track:B"; "spotify:track:C"]%string).2
  `sublist_of` ["spotify:track:B"; "spotify:track:C"]%string.
Proof.
  refine (proj1 (cachePass_splits interrupted
    (resume scenario (getMigrationProgress interrupted) threeTracks)
    ["spotify:track:B"; "spotify:track:C"]%string _)).
  simpl. set_solver.
Defined.

(** ** The count of consecutive failures *)

Lemma applyResults_counts results : ∀ l n,
  Forall (λ s, s ≠ RejectedPromise) results →
  consecutiveFailures (foldl applyResult (l, n) results).1
    = (if existsb succeeded results then 0 else consecutiveFailures l) ∧
  (foldl applyResult (l, n) results).2 = n + failuresIn results.
Proof.
  unfold failuresIn.
  induction results as [|s results IH]; intros l n Hall; cbn [foldl].
  { simpl. split; [done|lia]. }
  apply Forall_cons in Hall as [Hs Hall].
  destruct s as [value|]; [|done].
  rewrite filter_cons. cbn [existsb succeeded].
  unfold applyResult at 2 4.
  destruct (success value) eqn:Hsucc.
  - rewrite decide_False by done.
    match goal with
    | |- context [foldl applyResult (?l1, n) results] =>
        destruct (IH l1 n Hall) as [H1 H2]
    end.
    rewrite H1, H2. simpl. split; [by destruct (existsb succeeded results)|done].
  - rewrite decide_True by done. cbn [length].
    destruct (retryable value);
      match goal with
      | |- context [foldl applyResult (?l1, n + 1) results] =>
          destruct (IH l1 (n + 1) Hall) as [H1 H2]
      end; rewrite H1, H2; simpl; split; try done; lia.
Qed.

(** X21. For a batch all of whose promises fulfil, the count of
    consecutive failures after the batch is the number of failed results
    of the batch, added to the count before the batch when the batch has
    no success and to zero when it has one, wherever in the batch the
    successes are.  The delay between batches grows by half, up to
    5000 ms, when the batch has a failure, and is 500 ms otherwise.  A
    batch with results and without failure brings the count to zero. *)
Theorem afterBatch_counts l results :
  Forall (λ s, s ≠ RejectedPromise) results →
  consecutiveFailures (afterBatch l results)
    = (if existsb succeeded results then 0 else consecutiveFailures l)
      + failuresIn results ∧
  currentDelay (afterBatch l results)
    = (if 0 <? failuresIn results
       then Qred (Qmin (currentDelay l * (3 # 2)) (inject_Z 5000))
       else BASE_DELAY_BETWEEN_BATCHES_MS) ∧
  (results ≠ [] → failuresIn results = 0 →
   consecutiveFailures (afterBatch l results) = 0).
Proof.
  intros Hall.
  destruct (applyResults_counts results l 0 Hall) as [Hcount Hfail].
  pose proof (applyResults_delay results l 0) as Hdelay.
  assert (Hnone : results ≠ [] → failuresIn results = 0 →
                  existsb succeeded results = true).
  { unfold failuresIn. destruct results as [|s rest]; [done|]. intros _.
    rewrite filter_cons. cbn [existsb].
    destruct (succeeded s); [done|]. rewrite decide_True by done.
    simpl. lia. }
  unfold afterBatch.
  destruct (foldl applyResult (l, 0) results) as [l1 n1].
  cbn [fst snd] in *. rewrite Z.add_0_l in Hfail. subst n1.
  assert (Hnonneg : 0 <= failuresIn results) by (unfold failuresIn; lia).
  destruct (Z.ltb_spec 0 (failuresIn results)); simpl.
  - rewrite Hcount, Hdelay. split_and!; try done. lia.
  - rewrite Hcount. split_and!; try done; [lia|].
    intros Hne Hzero. rewrite (Hnone Hne Hzero). lia.
Qed.

Lemma afterBatch_counts_witness :
  consecutiveFailures
    (afterBatch (startLoop scenario threeTracks)
       (settleBatch scenario (startLoop scenario threeTracks)
          (map fst (tracks threeTracks))))
  = 0 + 1.
Proof.
  refine (proj1 (afterBatch_counts (startLoop scenario threeTracks)
    (settleBatch scenario (startLoop scenario threeTracks)
       (map fst (tracks threeTracks))) _)).
  vm_compute. repeat constructor; discriminate.
Defined.

(** ** A pause keeps what was done *)

Lemma applyResults_processed results : ∀ l n,
  processedSet (run l) ⊆ processedSet (run (foldl applyResult (l, n) results).1).
Proof.
  induction results as [|s results IH]; intros l n; cbn [foldl]; [done|].
  assert (H1 : processedSet (run l) ⊆ processedSet (run (applyResult (l, n) s).1)).
  { unfold applyResult. destruct s as [value|]; [|done].
    destruct (success value); [simpl; set_solver|].
    destruct (retryable value); simpl; set_solver. }
  destruct (applyResult (l, n) s) as [l1 n1]. cbn [fst] in H1.
  etrans; [exact H1|apply IH].
Qed.

Lemma cachePass_processed ls remaining : ∀ r todo,
  processedSet r ⊆ processedSet (foldl (cacheStep ls) (r, todo) remaining).1.
Proof.
  induction remaining as [|u remaining IH]; intros r todo; cbn [foldl]; [done|].
  assert (H1 : processedSet r ⊆ processedSet (cacheStep ls (r, todo) u).1).
  { unfold cacheStep. destruct (bool_decide _); [done|].
    destruct (getTrackData _ u) as [c|]; [|done].
    destruct (needsMetadataOf c); [destruct (getTrackInfo ls u)|]; simpl;
      destruct (needsBpmOf c); simpl; set_solver. }
  destruct (cacheStep ls (r, todo) u) as [r1 todo1]. cbn [fst] in H1.
  etrans; [exact H1|apply IH].
Qed.

Lemma networkPass_thrown_progress env still total starts : ∀ l w e w',
  networkPass env still total starts l w = (Thrown e, w') →
  ∃ r, savedProgress (storage w') = Some (snapshot r) ∧
       processedSet (run l) ⊆ processedSet r ∧
       totalTracks (progress r) = totalTracks (progress (run l)) ∧
       startedAt (progress r) = startedAt (progress (run l)).
Proof.
  induction starts as [|i later IH]; intros l w e w'; cbn [networkPass].
  { discriminate. }
  cbv zeta.
  pose proof (afterBatch_progress l
                (settleBatch env l (take BATCH_SIZE (drop i still)))) as Hp.
  pose proof (applyResults_processed
                (settleBatch env l (take BATCH_SIZE (drop i still))) l 0) as Hs.
  rewrite <- afterBatch_run in Hs.
  set (l1 := afterBatch l (settleBatch env l (take BATCH_SIZE (drop i still))))
    in *.
  destruct (MAX_CONSECUTIVE_FAILURES <=? _).
  { intros H. simplify_eq. exists (run l1). by rewrite Hp. }
  destruct (_ && _); intros Hrun;
    destruct (IH _ _ _ _ Hrun) as (r & Hsaved & Hsub & Ht & Ha);
    exists r; simpl in *; rewrite <- Hp; split_and!; try done;
    by etrans.
Qed.

(** X22. When a resumed run of the metadata migration pauses, the
    progress record it leaves in storage is again one of this migration,
    has the total and the start time of the record the run resumed from,
    and lists as processed every key that record listed. *)
Theorem pause_keeps_progress env data w e w' p :
  addTrackMetadataMigration env data w = (Thrown e, w') →
  getMigrationProgress (storage w) = Some p →
  migrationName p = "addTrackMetadata"%string →
  ∃ p', savedProgress (storage w') = Some p' ∧
        migrationName p' = "addTrackMetadata"%string ∧
        totalTracks p' = totalTracks p ∧
        startedAt p' = startedAt p ∧
        ∀ u, u ∈ processedUris p → u ∈ processedUris p'.
Proof.
  intros Hrun Hsaved Hname.
  destruct (addTrackMetadataMigration_thrown_name _ _ _ _ _ Hrun)
    as (_ & q & Hq & Hqname).
  revert Hrun. unfold addTrackMetadataMigration.
  destruct (Nat.eqb _ 0); [discriminate|].
  rewrite Hsaved.
  set (r0 := resume env (Some p) data).
  assert (Hr0 : processedSet r0 = list_to_set (processedUris p) ∧
                progress r0 = p).
  { unfold r0, resume. by rewrite decide_True. }
  destruct Hr0 as [Hset Hprog].
  pose proof (cachePass_processed (storage w)
                (remainingTracks r0 (tracksNeedingWork data)) r0 []) as Hsub.
  pose proof (cachePass_progress (storage w)
                (remainingTracks r0 (tracksNeedingWork data)) r0 []) as Hp1.
  unfold cachePass.
  destruct (foldl _ _ _) as [r1 still]. cbn [fst] in *.
  destruct (0 <? _);
    match goal with
    | |- context [networkPass ?e ?s ?t ?b ?l ?w0] =>
        pose proof (networkPass_thrown_progress e s t b l w0) as H;
        destruct (networkPass e s t b l w0) as [[l'|err] w2]
    end; intros Hrun; simplify_eq;
    destruct (H _ _ eq_refl) as (r & Hsnap & Hin & Ht & Ha);
    rewrite Hsnap in Hq; simplify_eq;
    exists (snapshot r); simpl in *;
    (split_and!; [done|done|congruence|congruence|]);
    intros u Hu; apply elem_of_elements, Hin, Hsub; rewrite Hset;
    by apply elem_of_list_to_set.
Qed.

Lemma pause_keeps_progress_witness :
  ∃ p',
    savedProgress
      (storage (addTrackMetadataMigration offline elevenTracks
                  {| storage := interrupted; effects := [] |}).2) = Some p' ∧
    startedAt p' = 500.
Proof.
  destruct (addTrackMetadataMigration offline elevenTracks
              {| storage := interrupted; effects := [] |})
    as [[data'|e] w'] eqn:E.
  - vm_compute in E. discriminate E.
  - destruct (pause_keeps_progress offline elevenTracks
                {| storage := interrupted; effects := [] |} e w'
                {| migrationName := "addTrackMetadata";
                   processedUris := ["spotify:track:A"%string];
                   failedUris := Some ["spotify:track:B"%string];
                   totalTracks := 3;
                   startedAt := 500 |}
                E eq_refl eq_refl) as (p' & Hsaved & _ & _ & Hstart & _).
    exists p'. split; [exact Hsaved|exact Hstart].
Defined.

End MigrationMore.
